(** * Fuel Finder: the station-ranking pipeline, embedded in Rocq

    The development follows the JavaScript sources of the application:

    - [utils] ([toRadians], [haversineDistanceMeters], [formatDistance],
      [sortStationsByDistance]);
    - [fetchStations], the normalisation of an Overpass response;
    - the [App] component: its state, its event handlers, its effects and
      the conditions under which it displays its panels, in its version
      with the manual form and in its first version;
    - the hook [useDarkMode].

    JavaScript numbers are IEEE-754 binary64 values.  They are represented
    by [spec_float], the executable specification of binary floating point
    of the Standard Library, at precision 53 and maximal exponent 1024, so
    that subtraction, division and the comparisons used by the code are the
    ones of the language.  The transcendental functions of [Math] are only
    "implementation-approximated" in ECMA-262; they are a parameter of the
    development (class [Host]).  The geodesic identities are established on
    binary64 numbers for every host that meets a few stated requirements,
    and the length of one degree of longitude for every host whose [Math]
    functions are accurate, at the arguments of the calls made, to a
    relative error of [2^-15]. *)

From Stdlib Require Import ZArith Lia Bool List String Ascii Reals Lra Permutation Sorted.
From Stdlib Require Import Floats.SpecFloat.
From stdpp Require Import gmap strings list pretty.

Local Open Scope Z_scope.

(** * Part I.  Binary floating point: facts about [spec_float]

    The facts are stated for any format; they are used at binary64 below. *)

Section Binary.

Variables prec emax : Z.
Hypothesis Hprec : 0 < prec.
Hypothesis Hmax : prec < emax.

Abbreviation emin := (SpecFloat.emin prec emax).
Abbreviation fexp := (SpecFloat.fexp prec emax).

(** The value of a float counted in units of the smallest positive
    subnormal, [2 ^ emin].  Infinities are sent beyond every finite value;
    [NaN] is sent to 0 and is always excluded by hypothesis. *)
Definition scaled (x : spec_float) : Z :=
  match x with
  | S754_zero _ | S754_nan => 0
  | S754_infinity s => cond_Zopp s (2 ^ (emax - emin))
  | S754_finite s m e => cond_Zopp s (Zpos m * 2 ^ (e - emin))
  end.

Definition is_nan (x : spec_float) : bool :=
  match x with S754_nan => true | _ => false end.

Definition pzero : spec_float := S754_zero false.

Ltac cmp_solve :=
  f_equal; symmetry;
  first [apply Z.compare_eq_iff; lia | apply Z.compare_lt_iff; lia
        | apply Z.compare_gt_iff; lia].

Ltac ltb_solve :=
  symmetry; first [apply Z.ltb_lt; lia | apply Z.ltb_ge; lia].

Lemma digits2_pos_log2 m : Zpos (digits2_pos m) = Z.log2 (Zpos m) + 1.
Proof.
  induction m as [m IH|m IH|]; simpl digits2_pos.
  - rewrite Pos2Z.inj_succ, IH. change (Zpos m~1) with (2 * Zpos m + 1).
    rewrite Z.log2_succ_double by lia. lia.
  - rewrite Pos2Z.inj_succ, IH. change (Zpos m~0) with (2 * Zpos m).
    rewrite Z.log2_double by lia. lia.
  - reflexivity.
Qed.

Lemma digits2_pos_bounds m :
  2 ^ (Zpos (digits2_pos m) - 1) <= Zpos m < 2 ^ Zpos (digits2_pos m).
Proof.
  rewrite digits2_pos_log2.
  pose proof (Z.log2_spec (Zpos m) ltac:(lia)) as H.
  replace (Z.log2 (Zpos m) + 1 - 1) with (Z.log2 (Zpos m)) by lia.
  replace (Z.log2 (Zpos m) + 1) with (Z.succ (Z.log2 (Zpos m))) by lia. exact H.
Qed.

Lemma pow2_pos k : 0 <= k -> 0 < 2 ^ k.
Proof. intros. apply Z.pow_pos_nonneg; lia. Qed.

(** ** Right shifts keep a positive mantissa positive *)

Lemma shr_1_m r : 0 <= shr_m r -> shr_m (shr_1 r) = shr_m r / 2.
Proof.
  destruct r as [m b s]; simpl. intros Hm.
  destruct m as [|[p|p|]|p]; simpl; try lia; try reflexivity.
  - rewrite Pos2Z.inj_xI. apply Z.div_unique with 1; lia.
  - rewrite Pos2Z.inj_xO. apply Z.div_unique with 0; lia.
Qed.

Lemma iter_shr_1_m p : forall r, 0 <= shr_m r ->
  shr_m (SpecFloat.iter_pos shr_1 p r) = shr_m r / 2 ^ Zpos p.
Proof.
  induction p as [p IH|p IH|]; intros r Hr; simpl SpecFloat.iter_pos.
  - assert (H1 : 0 <= shr_m (shr_1 r)) by (rewrite shr_1_m by lia; apply Z.div_pos; lia).
    assert (H2 : 0 <= shr_m (SpecFloat.iter_pos shr_1 p (shr_1 r)))
      by (rewrite IH by lia; apply Z.div_pos; lia).
    rewrite IH by lia. rewrite IH by lia. rewrite shr_1_m by lia.
    rewrite !Z.div_div by lia.
    f_equal. rewrite (Pos2Z.inj_xI p).
    replace (2 * Zpos p + 1) with (1 + Zpos p + Zpos p) by lia.
    rewrite !Z.pow_add_r by lia. change (2 ^ 1) with 2. ring.
  - assert (H2 : 0 <= shr_m (SpecFloat.iter_pos shr_1 p r))
      by (rewrite IH by lia; apply Z.div_pos; lia).
    rewrite IH by lia. rewrite IH by lia.
    rewrite !Z.div_div by lia.
    f_equal. rewrite (Pos2Z.inj_xO p).
    replace (2 * Zpos p) with (Zpos p + Zpos p) by lia.
    rewrite Z.pow_add_r by lia. ring.
  - rewrite shr_1_m by lia. reflexivity.
Qed.

Lemma shr_fexp_pos m e l :
  emin <= e ->
  0 < shr_m (fst (shr_fexp prec emax (Zpos m) e l)) /\
  emin <= snd (shr_fexp prec emax (Zpos m) e l).
Proof.
  intros He. unfold shr_fexp, shr. simpl Zdigits2.
  set (d := Zpos (digits2_pos m)).
  assert (Hr : shr_m (shr_record_of_loc (Zpos m) l) = Zpos m)
    by (destruct l as [|[]]; reflexivity).
  destruct (fexp (d + e) - e) as [|n|n] eqn:Hn; simpl fst; simpl snd.
  - rewrite Hr. lia.
  - rewrite iter_shr_1_m by (rewrite Hr; lia). rewrite Hr. split; [|lia].
    assert (Hd : Zpos n = d - prec) by (unfold SpecFloat.fexp in Hn; lia).
    pose proof (digits2_pos_bounds m) as [Hlo _]. fold d in Hlo.
    apply Z.div_str_pos. split; [apply Z.pow_pos_nonneg; lia|].
    apply Z.le_trans with (2 ^ (d - 1)); [|exact Hlo].
    apply Z.pow_le_mono_r; lia.
  - rewrite Hr. lia.
Qed.

Lemma round_nearest_even_pos m l : 0 < m -> 0 < round_nearest_even m l.
Proof.
  intros Hm. destruct l as [|[]]; simpl; try lia.
  destruct (Z.even m); lia.
Qed.

(** Rounding a non-zero value whose exponent is at least [emin] never
    produces a zero nor changes the sign: gradual underflow. *)
Lemma binary_round_aux_sign s m e l :
  emin <= e ->
  (exists m' e', binary_round_aux prec emax s (Zpos m) e l = S754_finite s m' e')
  \/ binary_round_aux prec emax s (Zpos m) e l = S754_infinity s.
Proof.
  intros He. unfold binary_round_aux.
  pose proof (shr_fexp_pos m e l He) as [H1 H2].
  destruct (shr_fexp prec emax (Zpos m) e l) as [r1 e1]. simpl in H1, H2.
  pose proof (round_nearest_even_pos (shr_m r1) (loc_of_shr_record r1) H1) as H3.
  destruct (round_nearest_even (shr_m r1) (loc_of_shr_record r1)) as [|m2|m2]; try lia.
  pose proof (shr_fexp_pos m2 e1 loc_Exact H2) as [H4 H5].
  destruct (shr_fexp prec emax (Zpos m2) e1 loc_Exact) as [r2 e2]. simpl in H4, H5.
  destruct (shr_m r2) as [|m3|m3]; try lia.
  destruct (e2 <=? emax - prec); eauto.
Qed.

Lemma fexp_ge_emin e : emin <= fexp e.
Proof. unfold SpecFloat.fexp. lia. Qed.

Lemma binary_round_sign s m e :
  emin <= e ->
  (exists m' e', binary_round prec emax s m e = S754_finite s m' e')
  \/ binary_round prec emax s m e = S754_infinity s.
Proof.
  intros He. unfold binary_round, shl_align.
  destruct (fexp (Zpos (digits2_pos m) + e) - e) eqn:Hn;
    apply binary_round_aux_sign; try lia.
  pose proof (fexp_ge_emin (Zpos (digits2_pos m) + e)). lia.
Qed.

(** ** Well-formed floats and their order *)

Lemma bounded_spec m e :
  bounded prec emax m e = true ->
  emin <= e <= emax - prec /\ Zpos (digits2_pos m) <= prec /\
  (emin < e -> Zpos (digits2_pos m) = prec).
Proof.
  unfold bounded, canonical_mantissa, SpecFloat.fexp. intros H.
  apply andb_true_iff in H as [H1 H2].
  apply Z.eqb_eq in H1. apply Z.leb_le in H2. lia.
Qed.

Lemma finite_scaled_pos m e :
  bounded prec emax m e = true -> 0 < Zpos m * 2 ^ (e - emin).
Proof.
  intros H. apply bounded_spec in H as (He & _).
  apply Z.mul_pos_pos; [lia|apply pow2_pos; lia].
Qed.

Lemma finite_below_infinity m e :
  bounded prec emax m e = true ->
  Zpos m * 2 ^ (e - emin) < 2 ^ (emax - emin).
Proof.
  intros H. apply bounded_spec in H as (He & Hd & _).
  pose proof (digits2_pos_bounds m) as [_ Hm].
  apply Z.lt_le_trans with (2 ^ prec * 2 ^ (e - emin)).
  - apply Z.mul_lt_mono_pos_r; [apply pow2_pos; lia|].
    apply Z.lt_le_trans with (1 := Hm). apply Z.pow_le_mono_r; lia.
  - rewrite <- Z.pow_add_r by lia. apply Z.pow_le_mono_r; lia.
Qed.

Lemma canonical_exponent_lt m1 e1 m2 e2 :
  bounded prec emax m1 e1 = true -> bounded prec emax m2 e2 = true ->
  e1 < e2 ->
  Zpos m1 * 2 ^ (e1 - emin) < Zpos m2 * 2 ^ (e2 - emin).
Proof.
  intros H1 H2 Hlt.
  apply bounded_spec in H1 as (He1 & Hd1 & _).
  apply bounded_spec in H2 as (He2 & _ & Hd2).
  pose proof (digits2_pos_bounds m1) as [_ Hm1].
  pose proof (digits2_pos_bounds m2) as [Hm2 _].
  rewrite Hd2 in Hm2 by lia.
  apply Z.lt_le_trans with (2 ^ prec * 2 ^ (e1 - emin)).
  - apply Z.mul_lt_mono_pos_r; [apply pow2_pos; lia|].
    apply Z.lt_le_trans with (1 := Hm1). apply Z.pow_le_mono_r; lia.
  - apply Z.le_trans with (2 ^ (prec - 1) * 2 ^ (e2 - emin)).
    + rewrite <- !Z.pow_add_r by lia. apply Z.pow_le_mono_r; lia.
    + apply Z.mul_le_mono_nonneg_r; [|exact Hm2].
      apply Z.lt_le_incl, pow2_pos; lia.
Qed.

Lemma compare_finite_pos m1 e1 m2 e2 :
  bounded prec emax m1 e1 = true -> bounded prec emax m2 e2 = true ->
  match e1 ?= e2 with
  | Lt => Lt | Gt => Gt | Eq => Pos.compare_cont Eq m1 m2
  end = (Zpos m1 * 2 ^ (e1 - emin) ?= Zpos m2 * 2 ^ (e2 - emin)).
Proof.
  intros H1 H2. destruct (Z.compare_spec e1 e2) as [E|E|E].
  - subst e2. rewrite <- Zmult_compare_compat_r.
    + reflexivity.
    + apply bounded_spec in H1. apply Z.lt_gt, pow2_pos; lia.
  - symmetry. apply Z.compare_lt_iff. now apply canonical_exponent_lt.
  - symmetry. apply Z.compare_gt_iff. now apply canonical_exponent_lt.
Qed.

(** On well-formed numbers other than [NaN], the comparison of the standard
    is the comparison of the scaled values. *)
Lemma SFcompare_scaled x y :
  valid_binary prec emax x = true -> valid_binary prec emax y = true ->
  is_nan x = false -> is_nan y = false ->
  SFcompare x y = Some (scaled x ?= scaled y).
Proof.
  intros Vx Vy Nx Ny.
  assert (HB : 0 < 2 ^ (emax - emin)) by (apply pow2_pos; unfold SpecFloat.emin; lia).
  destruct x as [sx|sx| |sx mx ex]; try discriminate;
  destruct y as [sy|sy| |sy my ey]; try discriminate;
  cbn [scaled SFcompare cond_Zopp valid_binary is_nan] in *;
  try (pose proof (finite_scaled_pos _ _ Vx));
  try (pose proof (finite_scaled_pos _ _ Vy));
  try (pose proof (finite_below_infinity _ _ Vx));
  try (pose proof (finite_below_infinity _ _ Vy)).
  - reflexivity.
  - destruct sy; cbn [cond_Zopp]; cmp_solve.
  - destruct sy; cbn [cond_Zopp]; cmp_solve.
  - destruct sx; cbn [cond_Zopp]; cmp_solve.
  - destruct sx, sy; cbn [cond_Zopp]; cmp_solve.
  - destruct sx, sy; cbn [cond_Zopp]; cmp_solve.
  - destruct sx; cbn [cond_Zopp]; cmp_solve.
  - destruct sx, sy; cbn [cond_Zopp]; cmp_solve.
  - destruct sx, sy; cbn [cond_Zopp]; try cmp_solve; f_equal.
    + rewrite Z.compare_opp. rewrite <- (compare_finite_pos my ey mx ex) by assumption.
      rewrite (Z.compare_antisym ey ex).
      destruct (ey ?= ex); simpl; try reflexivity.
      change (Pos.compare_cont Eq mx my) with (Pos.compare mx my).
      change (Pos.compare_cont Eq my mx) with (Pos.compare my mx).
      symmetry. apply Pos.compare_antisym.
    + now apply compare_finite_pos.
Qed.

(** ** The sign of a difference *)

Lemma iter_xO_value m d : Zpos (Pos.iter xO m d) = Zpos m * 2 ^ Zpos d.
Proof.
  induction d as [|d IH] using Pos.peano_ind.
  - simpl. lia.
  - rewrite Pos.iter_succ, Pos2Z.inj_xO, IH, Pos2Z.inj_succ, Z.pow_succ_r by lia. ring.
Qed.

Lemma shl_align_value m e e' :
  e' <= e -> Zpos (fst (shl_align m e e')) = Zpos m * 2 ^ (e - e').
Proof.
  intros H. unfold shl_align. destruct (e' - e) as [|d|d] eqn:Hd; simpl fst; try lia.
  - replace (e - e') with 0 by lia. simpl. lia.
  - rewrite iter_xO_value. f_equal. f_equal. lia.
Qed.

Lemma SFsub_align sx mx ex sy my ey :
  bounded prec emax mx ex = true -> bounded prec emax my ey = true ->
  (cond_Zopp sx (Zpos (fst (shl_align mx ex (Z.min ex ey))))
   - cond_Zopp sy (Zpos (fst (shl_align my ey (Z.min ex ey)))))
  * 2 ^ (Z.min ex ey - emin)
  = scaled (S754_finite sx mx ex) - scaled (S754_finite sy my ey).
Proof.
  intros Vx Vy.
  apply bounded_spec in Vx as (Hx & _). apply bounded_spec in Vy as (Hy & _).
  rewrite !shl_align_value by lia. cbn [scaled].
  replace (ex - emin) with ((ex - Z.min ex ey) + (Z.min ex ey - emin)) by lia.
  replace (ey - emin) with ((ey - Z.min ex ey) + (Z.min ex ey - emin)) by lia.
  rewrite !Z.pow_add_r by lia.
  replace (ex - Z.min ex ey + (Z.min ex ey - emin) - (ex - Z.min ex ey + (Z.min ex ey - emin)))
    with 0 by lia.
  destruct sx, sy; cbn [cond_Zopp]; ring.
Qed.

Lemma SFltb_zero_finite s m e : SFltb pzero (S754_finite s m e) = negb s.
Proof. destruct s; reflexivity. Qed.

Lemma SFltb_zero_infinity s : SFltb pzero (S754_infinity s) = negb s.
Proof. destruct s; reflexivity. Qed.

(** The rounded difference [x - y] is positive exactly when [y < x]: the
    subtraction of the standard never rounds a non-zero difference to zero,
    and [inf - inf], which is [NaN], is not positive. *)
Lemma SFsub_positive x y :
  valid_binary prec emax x = true -> valid_binary prec emax y = true ->
  is_nan x = false -> is_nan y = false ->
  SFltb pzero (SFsub prec emax x y) = (scaled y <? scaled x).
Proof.
  intros Vx Vy Nx Ny.
  assert (HB : 0 < 2 ^ (emax - emin)) by (apply pow2_pos; unfold SpecFloat.emin; lia).
  destruct x as [sx|sx| |sx mx ex]; try discriminate;
  destruct y as [sy|sy| |sy my ey]; try discriminate;
  cbn [SFsub valid_binary is_nan] in *;
  try (pose proof (finite_scaled_pos _ _ Vx));
  try (pose proof (finite_scaled_pos _ _ Vy));
  try (pose proof (finite_below_infinity _ _ Vx));
  try (pose proof (finite_below_infinity _ _ Vy)).
  - destruct sx, sy; cbn; reflexivity.
  - rewrite SFltb_zero_infinity. destruct sy; cbn [scaled cond_Zopp negb]; ltb_solve.
  - rewrite SFltb_zero_finite. destruct sy; cbn [scaled cond_Zopp negb]; ltb_solve.
  - rewrite SFltb_zero_infinity. destruct sx; cbn [scaled cond_Zopp negb]; ltb_solve.
  - destruct sx, sy; cbn [scaled cond_Zopp]; ltb_solve.
  - rewrite SFltb_zero_infinity. destruct sx, sy; cbn [scaled cond_Zopp negb]; ltb_solve.
  - rewrite SFltb_zero_finite. destruct sx; cbn [scaled cond_Zopp negb]; ltb_solve.
  - rewrite SFltb_zero_infinity. destruct sx, sy; cbn [scaled cond_Zopp negb]; ltb_solve.
  - pose proof (SFsub_align sx mx ex sy my ey Vx Vy) as Hd.
    pose proof (bounded_spec _ _ Vx) as (Hx & _).
    pose proof (bounded_spec _ _ Vy) as (Hy & _).
    assert (Hp : 0 < 2 ^ (Z.min ex ey - emin)) by (apply pow2_pos; lia).
    set (d := cond_Zopp sx (Zpos (fst (shl_align mx ex (Z.min ex ey))))
              - cond_Zopp sy (Zpos (fst (shl_align my ey (Z.min ex ey))))) in *.
    destruct d as [|p|p]; cbn [binary_normalize].
    + ltb_solve.
    + assert (0 < Zpos p * 2 ^ (Z.min ex ey - emin)) by (apply Z.mul_pos_pos; lia).
      destruct (binary_round_sign false p (Z.min ex ey)) as [(m' & e' & ->)| ->]; [lia| |];
        rewrite ?SFltb_zero_finite, ?SFltb_zero_infinity; ltb_solve.
    + assert (Zneg p * 2 ^ (Z.min ex ey - emin) < 0) by (apply Z.mul_neg_pos; lia).
      destruct (binary_round_sign true p (Z.min ex ey)) as [(m' & e' & ->)| ->]; [lia| |];
        rewrite ?SFltb_zero_finite, ?SFltb_zero_infinity; ltb_solve.
Qed.

(** ** Signs, and products that do not overflow *)

Lemma SFopp_involutive x : SFopp (SFopp x) = x.
Proof. destruct x as [s|s| |s m e]; simpl; rewrite ?negb_involutive; reflexivity. Qed.

Lemma binary_round_aux_opp s m e l :
  binary_round_aux prec emax (negb s) m e l = SFopp (binary_round_aux prec emax s m e l).
Proof.
  unfold binary_round_aux.
  destruct (shr_fexp prec emax m e l) as [r1 e1].
  destruct (shr_fexp prec emax _ e1 loc_Exact) as [r2 e2].
  destruct (shr_m r2); try reflexivity.
  destruct (e2 <=? emax - prec); reflexivity.
Qed.

Lemma binary_round_opp s m e :
  binary_round prec emax (negb s) m e = SFopp (binary_round prec emax s m e).
Proof.
  unfold binary_round. destruct (shl_align m e _) as [mz ez]. apply binary_round_aux_opp.
Qed.

Lemma SFmul_comm x y : SFmul prec emax x y = SFmul prec emax y x.
Proof.
  destruct x as [sx|sx| |sx mx ex], y as [sy|sy| |sy my ey]; simpl;
    rewrite ?(xorb_comm sx sy); try reflexivity.
  now rewrite Pos.mul_comm, Z.add_comm.
Qed.

Lemma SFmul_opp_l x y : SFmul prec emax (SFopp x) y = SFopp (SFmul prec emax x y).
Proof.
  destruct x as [sx|sx| |sx mx ex], y as [sy|sy| |sy my ey]; simpl;
    rewrite <- ?negb_xorb_l; try reflexivity.
  apply binary_round_aux_opp.
Qed.

Lemma SFmul_opp_r x y : SFmul prec emax x (SFopp y) = SFopp (SFmul prec emax x y).
Proof. now rewrite SFmul_comm, SFmul_opp_l, SFmul_comm. Qed.

Lemma SFdiv_opp_l x y : SFdiv prec emax (SFopp x) y = SFopp (SFdiv prec emax x y).
Proof.
  destruct x as [sx|sx| |sx mx ex], y as [sy|sy| |sy my ey]; simpl;
    rewrite <- ?negb_xorb_l; try reflexivity.
  destruct (SFdiv_core_binary prec emax (Z.pos mx) ex (Z.pos my) ey) as [[mz ez] lz].
  apply binary_round_aux_opp.
Qed.

(** Swapping the operands of a subtraction negates the result, except that
    both differences of equal operands are [+0]. *)
Lemma SFsub_swap x y :
  SFsub prec emax x y = SFopp (SFsub prec emax y x)
  \/ (SFsub prec emax x y = S754_zero false /\ SFsub prec emax y x = S754_zero false).
Proof.
  destruct x as [sx|sx| |sx mx ex], y as [sy|sy| |sy my ey]; simpl;
    try (left; reflexivity);
    try (destruct sx, sy; simpl; auto; fail);
    try (left; rewrite ?negb_involutive; reflexivity).
  rewrite (Z.min_comm ey ex).
  set (a := cond_Zopp sx (Z.pos (fst (shl_align mx ex (Z.min ex ey))))).
  set (b := cond_Zopp sy (Z.pos (fst (shl_align my ey (Z.min ex ey))))).
  replace (b - a) with (- (a - b)) by lia.
  destruct (a - b) as [|p|p]; simpl; [right; auto| |]; left.
  - change true with (negb false). now rewrite binary_round_opp, SFopp_involutive.
  - change true with (negb false). apply binary_round_opp.
Qed.


Lemma digits2_pos_le p k : 0 <= k -> Zpos p <= 2 ^ k -> Zpos (digits2_pos p) <= k + 1.
Proof.
  intros Hk Hp. pose proof (digits2_pos_bounds p) as [Hlo _].
  assert (H : 2 ^ (Zpos (digits2_pos p) - 1) <= 2 ^ k) by lia.
  apply Z.pow_le_mono_r_iff in H; lia.
Qed.

Lemma digits2_pos_lt p k : 0 <= k -> Zpos p < 2 ^ k -> Zpos (digits2_pos p) <= k.
Proof.
  intros Hk Hp. pose proof (digits2_pos_bounds p) as [Hlo _].
  assert (H : 2 ^ (Zpos (digits2_pos p) - 1) < 2 ^ k) by lia.
  apply Z.pow_lt_mono_r_iff in H; lia.
Qed.

Lemma shr_fexp_spec m e l :
  shr_m (fst (shr_fexp prec emax m e l))
  = (if 0 <=? m then m / 2 ^ Z.max 0 (fexp (Zdigits2 m + e) - e)
     else shr_m (fst (shr_fexp prec emax m e l)))
  /\ snd (shr_fexp prec emax m e l) = e + Z.max 0 (fexp (Zdigits2 m + e) - e).
Proof.
  unfold shr_fexp, shr.
  assert (Hr : shr_m (shr_record_of_loc m l) = m) by (destruct l as [|[]]; reflexivity).
  destruct (Z.leb_spec 0 m) as [Hm|Hm].
  - destruct (fexp (Zdigits2 m + e) - e) as [|n|n] eqn:Hn; simpl fst; simpl snd.
    + rewrite Hr. simpl. rewrite Z.div_1_r. lia.
    + rewrite iter_shr_1_m by (rewrite Hr; lia). rewrite Hr.
      replace (Z.max 0 (Z.pos n)) with (Z.pos n) by lia. lia.
    + rewrite Hr. replace (Z.max 0 (Z.neg n)) with 0 by lia. simpl. rewrite Z.div_1_r. lia.
  - split; [reflexivity|].
    destruct (fexp (Zdigits2 m + e) - e) as [|n|n] eqn:Hn; simpl snd; lia.
Qed.

Lemma round_nearest_even_bounds m l :
  m <= round_nearest_even m l <= m + 1.
Proof.
  destruct l as [|[]]; simpl; try lia. destruct (Z.even m); lia.
Qed.

(** A zero, or a finite number of magnitude below [2 ^ k]. *)
Definition finiteBelow (k : Z) (x : spec_float) : Prop :=
  match x with
  | S754_zero _ => True
  | S754_finite _ m e => Zpos (digits2_pos m) + e <= k
  | _ => False
  end.

Lemma Zdigits2_bounds m : 0 <= m -> m < 2 ^ Zdigits2 m /\ 0 <= Zdigits2 m.
Proof.
  intros Hm. destruct m as [|p|p]; [simpl; lia| |lia].
  simpl. pose proof (digits2_pos_bounds p). lia.
Qed.

Lemma Zdigits2_le m k : 0 <= m -> 0 <= k -> m <= 2 ^ k -> Zdigits2 m <= k + 1.
Proof.
  intros Hm Hk Hle. destruct m as [|p|p]; [simpl; lia| |lia].
  simpl. now apply digits2_pos_le.
Qed.

Lemma div_pow2_bound m d n :
  0 <= m -> 0 <= d -> 0 <= n -> m < 2 ^ d -> m / 2 ^ n < 2 ^ Z.max (d - n) 0.
Proof.
  intros Hm Hd Hn Hlt. destruct (Z.le_gt_cases n d) as [H|H].
  - replace (Z.max (d - n) 0) with (d - n) by lia.
    apply Z.div_lt_upper_bound; [apply Z.pow_pos_nonneg; lia|].
    rewrite <- Z.pow_add_r by lia. now replace (n + (d - n)) with d by lia.
  - replace (Z.max (d - n) 0) with 0 by lia.
    rewrite Z.div_small; [simpl; lia|]. split; [lia|].
    apply Z.lt_le_trans with (1 := Hlt). apply Z.pow_le_mono_r; lia.
Qed.

(** Rounding neither overflows nor gains more than one binary order of
    magnitude. *)
Lemma binary_round_aux_below s m e l k :
  0 <= m -> Zdigits2 m + e <= k -> e <= k -> emin <= k -> k < emax - 1 ->
  e <= emax - prec ->
  finiteBelow (k + 1) (binary_round_aux prec emax s m e l).
Proof.
  intros Hm Hd Hek Hk Hk' He. unfold binary_round_aux.
  pose proof (Zdigits2_bounds m Hm) as [Hhi Hd0].
  pose proof (shr_fexp_spec m e l) as [H1 H2].
  replace (0 <=? m) with true in H1 by (symmetry; now apply Z.leb_le).
  set (d := Zdigits2 m) in *.
  set (n1 := Z.max 0 (fexp (d + e) - e)) in *.
  destruct (shr_fexp prec emax m e l) as [r1 e1]. simpl in H1, H2.
  pose proof (round_nearest_even_bounds (shr_m r1) (loc_of_shr_record r1)) as Hrnd.
  set (m2 := round_nearest_even (shr_m r1) (loc_of_shr_record r1)) in *. clearbody m2.
  assert (Hm1 : 0 <= shr_m r1 < 2 ^ Z.max (d - n1) 0).
  { rewrite H1. split; [apply Z.div_pos; [lia|apply Z.pow_pos_nonneg; lia]|].
    apply div_pow2_bound; lia. }
  assert (He1 : e1 <= emax - prec /\ e1 <= k).
  { rewrite H2. unfold n1, SpecFloat.fexp, SpecFloat.emin in *. lia. }
  assert (Hd2 : Zdigits2 m2 <= Z.max (d - n1) 0 + 1) by (apply Zdigits2_le; lia).
  pose proof (Zdigits2_bounds m2 ltac:(lia)) as [Hhi2 Hd20].
  pose proof (shr_fexp_spec m2 e1 loc_Exact) as [H3 H4].
  replace (0 <=? m2) with true in H3 by (symmetry; apply Z.leb_le; lia).
  set (d2 := Zdigits2 m2) in *.
  set (n2 := Z.max 0 (fexp (d2 + e1) - e1)) in *.
  destruct (shr_fexp prec emax m2 e1 loc_Exact) as [r2 e2]. simpl in H3, H4.
  assert (Hm3 : 0 <= shr_m r2 < 2 ^ Z.max (d2 - n2) 0).
  { rewrite H3. split; [apply Z.div_pos; [lia|apply Z.pow_pos_nonneg; lia]|].
    apply div_pow2_bound; lia. }
  assert (Hsum : d2 + e1 <= k + 1).
  { rewrite H2. unfold n1, SpecFloat.fexp, SpecFloat.emin in *. lia. }
  destruct (shr_m r2) as [|m3|m3] eqn:E3; [exact I| |lia].
  assert (Hd3 : Zpos (digits2_pos m3) <= Z.max (d2 - n2) 0)
    by (apply digits2_pos_lt; lia).
  assert (Hpos : 0 < d2 - n2).
  { destruct (Z.le_gt_cases (d2 - n2) 0); [|lia].
    replace (Z.max (d2 - n2) 0) with 0 in Hm3 by lia. simpl in Hm3. lia. }
  assert (Hfin : e2 <= emax - prec).
  { rewrite H4. unfold n2, SpecFloat.fexp, SpecFloat.emin in *. lia. }
  apply Z.leb_le in Hfin. rewrite Hfin. simpl. lia.
Qed.

Lemma SFmul_below x y kx ky :
  finiteBelow kx x -> finiteBelow ky y ->
  emin <= kx + ky -> kx + ky < emax - 1 -> kx + ky <= emax - prec ->
  finiteBelow (kx + ky + 1) (SFmul prec emax x y).
Proof.
  intros Hx Hy Hk1 Hk2 Hk3.
  destruct x as [sx|sx| |sx mx ex]; try contradiction;
  destruct y as [sy|sy| |sy my ey]; try contradiction; cbn [SFmul]; try exact I.
  simpl in Hx, Hy.
  pose proof (digits2_pos_bounds mx) as [_ Hmx]. pose proof (digits2_pos_bounds my) as [_ Hmy].
  assert (Hd : Zpos (digits2_pos (mx * my)) <= Zpos (digits2_pos mx) + Zpos (digits2_pos my)).
  { apply digits2_pos_lt; [lia|]. rewrite Z.pow_add_r by lia. rewrite Pos2Z.inj_mul. nia. }
  apply binary_round_aux_below; simpl Zdigits2; lia.
Qed.

Lemma SFdiv_below x sy my ey kx :
  finiteBelow kx x ->
  let ky := Zpos (digits2_pos my) + ey in
  emin <= kx - ky + 1 -> kx - ky + 1 < emax - 1 ->
  finiteBelow (kx - ky + 2) (SFdiv prec emax x (S754_finite sy my ey)).
Proof.
  intros Hx ky Hk1 Hk2.
  destruct x as [sx|sx| |sx mx ex]; try contradiction; cbn [SFdiv]; [exact I|].
  simpl in Hx. unfold SFdiv_core_binary. simpl Zdigits2.
  set (d1 := Zpos (digits2_pos mx)) in *. set (d2 := Zpos (digits2_pos my)) in *.
  set (e' := Z.min (fexp (d1 + ex - (d2 + ey))) (ex - ey)).
  set (sh := ex - ey - e').
  assert (Hsh : 0 <= sh) by (unfold sh, e'; lia).
  set (m' := match sh with Z.pos _ => Z.shiftl (Z.pos mx) sh | 0 => Z.pos mx | Z.neg _ => 0 end).
  assert (Hm' : m' = Zpos mx * 2 ^ sh).
  { unfold m'. destruct sh as [|p|p]; [simpl; lia| |lia]. now rewrite Z.shiftl_mul_pow2 by lia. }
  pose proof (Z.div_eucl_eq m' (Zpos my) ltac:(lia)) as Hdiv.
  pose proof (Z.mod_pos_bound m' (Zpos my) ltac:(lia)) as Hrem.
  unfold Z.modulo in Hrem.
  destruct (Z.div_eucl m' (Z.pos my)) as [q r].
  pose proof (digits2_pos_bounds mx) as [_ Hmx]. fold d1 in Hmx.
  pose proof (digits2_pos_bounds my) as [Hmy _]. fold d2 in Hmy.
  assert (H2sh : 0 < 2 ^ sh) by (apply Z.pow_pos_nonneg; lia).
  assert (Hq0 : 0 <= q) by nia.
  assert (Hq : (0 <= d1 + sh - d2 + 1 /\ q < 2 ^ (d1 + sh - d2 + 1))
               \/ (d1 + sh - d2 + 1 < 0 /\ q = 0)).
  { destruct (Z.le_gt_cases 0 (d1 + sh - d2 + 1)) as [Hge|Hlt].
    - left. split; [exact Hge|]. assert (Hx1 : m' < 2 ^ (d1 + sh)).
      { rewrite Hm', Z.pow_add_r by lia. nia. }
      assert (Hx2 : 2 ^ (d1 + sh) <= 2 ^ (d1 + sh - d2 + 1) * 2 ^ (d2 - 1)).
      { rewrite <- Z.pow_add_r by lia. apply Z.pow_le_mono_r; lia. }
      assert (0 < 2 ^ (d1 + sh - d2 + 1)) by (apply Z.pow_pos_nonneg; lia).
      nia.
    - right. split; [lia|].
      assert (Hx1 : m' < 2 ^ (d1 + sh)) by (rewrite Hm', Z.pow_add_r by lia; nia).
      assert (2 ^ (d1 + sh) <= 2 ^ (d2 - 1)) by (apply Z.pow_le_mono_r; lia).
      nia. }
  assert (Hdq : Zdigits2 q + e' <= kx - ky + 1).
  { destruct Hq as [[Hge Hq]|[Hneg ->]].
    - destruct q as [|pq|pq]; [|pose proof (digits2_pos_lt pq _ Hge Hq); simpl; unfold sh, ky in *; lia|lia].
      simpl. unfold e', ky, SpecFloat.fexp in *. lia.
    - simpl. unfold e', ky, SpecFloat.fexp in *. lia. }
  replace (kx - ky + 2) with (kx - ky + 1 + 1) by lia.
  apply binary_round_aux_below; try lia;
    unfold e', ky, SpecFloat.fexp, SpecFloat.emin in *; lia.
Qed.

(** A well-formed number whose value is below [2 ^ k]. *)
Lemma scaled_below x k :
  valid_binary prec emax x = true -> is_nan x = false ->
  k <= emax -> Z.abs (scaled x) < 2 ^ (k - emin) ->
  finiteBelow k x.
Proof.
  intros V N Hk Hv. destruct x as [s|s| |s m e]; try discriminate; cbn [scaled finiteBelow] in *.
  - exact I.
  - assert (2 ^ (k - emin) <= 2 ^ (emax - emin))
      by (apply Z.pow_le_mono_r; unfold SpecFloat.emin; lia).
    assert (0 < 2 ^ (emax - emin)) by (apply pow2_pos; unfold SpecFloat.emin; lia).
    destruct s; cbn [cond_Zopp] in Hv; lia.
  - pose proof (bounded_spec m e V) as (He & _).
    pose proof (digits2_pos_bounds m) as [Hlo _].
    assert (Hpos : 0 < 2 ^ (e - emin)) by (apply pow2_pos; lia).
    assert (Hm : Zpos m * 2 ^ (e - emin) < 2 ^ (k - emin))
      by (destruct s; cbn [cond_Zopp] in Hv; lia).
    assert (Hp : 2 ^ (Zpos (digits2_pos m) - 1) * 2 ^ (e - emin) < 2 ^ (k - emin)) by nia.
    rewrite <- Z.pow_add_r in Hp by lia.
    destruct (Z.lt_ge_cases (k - emin) 0) as [Hneg|Hge].
    + rewrite (Z.pow_neg_r 2 (k - emin)) in Hm by exact Hneg. lia.
    + apply Z.pow_lt_mono_r_iff in Hp; lia.
Qed.

End Binary.

(** * Part II.  JavaScript numbers

    A [number] is a binary64 value.  Every number the language produces is
    well formed ([wellFormed]: canonical mantissa, exponent in range). *)

Definition number : Type := spec_float.

Module Num.

Definition prec : Z := 53.
Definition emax : Z := 1024.

Definition wellFormed (x : number) : bool := valid_binary prec emax x.
Definition NaN : number := S754_nan.
Definition isNaN (x : number) : bool := is_nan x.
Definition zero : number := pzero.

(** A numeric literal with an integral value, correctly rounded. *)
Definition ofZ (z : Z) : number := binary_normalize prec emax z 0 false.

Definition add (x y : number) : number := SFadd prec emax x y.
Definition sub (x y : number) : number := SFsub prec emax x y.
Definition mul (x y : number) : number := SFmul prec emax x y.
Definition div (x y : number) : number := SFdiv prec emax x y.

(** The relational operators [<], [>], [<=] and [==] on numbers; every
    comparison with [NaN] is false. *)
Definition lt (x y : number) : bool := SFltb x y.
Definition gt (x y : number) : bool := SFltb y x.
Definition le (x y : number) : bool := SFleb x y.
Definition eqb (x y : number) : bool := SFeqb x y.

(** The exact value of a number, in units of [2 ^ -1074]. *)
Definition value (x : number) : Z := scaled prec emax x.

(** A number that is neither [NaN] nor ill formed. *)
Definition numeric (x : number) : bool := wellFormed x && negb (isNaN x).

End Num.

(** The nullish coalescing operator [v ?? d], on an optional property:
    [None] stands for a property that is [undefined] or [null]. *)
Definition nullish {A : Type} (v : option A) (d : A) : A :=
  match v with Some a => a | None => d end.

Notation "v ?? d" := (nullish v d) (at level 40, left associativity).

(** ** Order facts at binary64 *)

Lemma numeric_spec x :
  Num.numeric x = true ->
  valid_binary Num.prec Num.emax x = true /\ is_nan x = false.
Proof.
  unfold Num.numeric, Num.wellFormed, Num.isNaN. intros H.
  apply andb_true_iff in H as [H1 H2]. apply negb_true_iff in H2. auto.
Qed.

Lemma Num_compare_value x y :
  Num.numeric x = true -> Num.numeric y = true ->
  SFcompare x y = Some (Num.value x ?= Num.value y).
Proof.
  intros Hx Hy. apply numeric_spec in Hx as [Vx Nx]. apply numeric_spec in Hy as [Vy Ny].
  apply SFcompare_scaled; auto; reflexivity.
Qed.

Lemma Num_lt_value x y :
  Num.numeric x = true -> Num.numeric y = true ->
  Num.lt x y = (Num.value x <? Num.value y).
Proof.
  intros Hx Hy. unfold Num.lt, SFltb. rewrite (Num_compare_value x y Hx Hy).
  unfold Z.ltb. destruct (Num.value x ?= Num.value y); reflexivity.
Qed.

Lemma Num_le_value x y :
  Num.numeric x = true -> Num.numeric y = true ->
  Num.le x y = (Num.value x <=? Num.value y).
Proof.
  intros Hx Hy. unfold Num.le, SFleb. rewrite (Num_compare_value x y Hx Hy).
  unfold Z.leb. destruct (Num.value x ?= Num.value y); reflexivity.
Qed.

Lemma Num_eqb_value x y :
  Num.numeric x = true -> Num.numeric y = true ->
  Num.eqb x y = (Num.value x =? Num.value y).
Proof.
  intros Hx Hy. unfold Num.eqb, SFeqb. rewrite (Num_compare_value x y Hx Hy).
  unfold Z.eqb. destruct (Num.value x) as [|p|p], (Num.value y) as [|q|q]; simpl;
    try reflexivity.
  - destruct (Pos.compare_spec p q); subst; rewrite ?Pos.eqb_refl; try reflexivity;
      symmetry; apply Pos.eqb_neq; lia.
  - rewrite <- Pos.compare_antisym.
    destruct (Pos.compare_spec q p); subst; rewrite ?Pos.eqb_refl; try reflexivity;
      symmetry; apply Pos.eqb_neq; lia.
Qed.

Lemma Num_sub_positive x y :
  Num.numeric x = true -> Num.numeric y = true ->
  Num.lt Num.zero (Num.sub x y) = (Num.value y <? Num.value x).
Proof.
  intros Hx Hy. apply numeric_spec in Hx as [Vx Nx]. apply numeric_spec in Hy as [Vy Ny].
  apply SFsub_positive; auto; reflexivity.
Qed.

(** * Part III.  Stations and their ranking *)

(** A station as [fetchStations] builds it and as the ranking extends it.  A
    property that is absent or [undefined] is [None]. *)
Module Station.
Record t : Type := mk {
  id : Z;
  name : option string;
  brand : option string;
  address : string;
  lat : option number;
  lon : option number;
  distanceMeters : option number
}.
End Station.

(** ** [Array.prototype.sort]

    Modelled from the spec: ECMA-262 leaves the algorithm open and requires
    the result to be stable (since ES2019); [SortCompare] turns a [NaN]
    answer of the comparator into [+0].  The model is the stable insertion
    sort: an element moves past exactly the elements that the comparator
    puts strictly before it.  With a consistent comparator every conforming
    implementation returns the same array. *)
Section ArraySort.

Context {A : Type}.
Variable comparator : A -> A -> number.

Definition SortCompare (x y : A) : number :=
  let v := comparator x y in
  if Num.isNaN v then Num.zero else v.

Fixpoint insertSorted (x : A) (sorted : list A) : list A :=
  match sorted with
  | [] => [x]
  | y :: rest =>
      if Num.lt Num.zero (SortCompare x y) then y :: insertSorted x rest
      else x :: sorted
  end.

Definition Array_sort (l : list A) : list A := foldr insertSorted [] l.

Lemma insertSorted_perm x l : Permutation (x :: l) (insertSorted x l).
Proof.
  induction l as [|y l IH]; simpl; [reflexivity|].
  destruct (Num.lt Num.zero (SortCompare x y)); [|reflexivity].
  rewrite perm_swap. now constructor.
Qed.

Lemma Array_sort_perm l : Permutation l (Array_sort l).
Proof.
  induction l as [|x l IH]; simpl; [constructor|].
  rewrite <- insertSorted_perm. now constructor.
Qed.

(** A comparator that agrees with an integer key on the elements at hand. *)
Variable key : A -> Z.
Variable good : A -> Prop.
Hypothesis comparator_key : forall x y, good x -> good y ->
  Num.lt Num.zero (SortCompare x y) = (key y <? key x).

Lemma insertSorted_sorted x l :
  good x -> Forall good l ->
  StronglySorted (fun a b => key a <= key b) l ->
  StronglySorted (fun a b => key a <= key b) (insertSorted x l).
Proof.
  intros Hx Hl Hs. induction l as [|y l IH]; simpl.
  - repeat constructor.
  - inversion Hl as [|? ? Hy Hl']; subst. inversion Hs as [|? ? Hs' Hall]; subst.
    rewrite comparator_key by assumption.
    destruct (Z.ltb_spec (key y) (key x)) as [Hlt|Hge].
    + constructor; [now apply IH|].
      rewrite <- insertSorted_perm. constructor; [lia|assumption].
    + constructor; [assumption|].
      constructor; [assumption|].
      eapply Forall_impl; [exact Hall|]. simpl. intros. lia.
Qed.

Lemma Array_sort_good l : Forall good l -> Forall good (Array_sort l).
Proof. intros H. now rewrite <- Array_sort_perm. Qed.

Lemma Array_sort_sorted l :
  Forall good l -> StronglySorted (fun a b => key a <= key b) (Array_sort l).
Proof.
  induction l as [|x l IH]; intros Hl; simpl; [constructor|].
  inversion Hl; subst.
  apply insertSorted_sorted; auto using Array_sort_good.
Qed.

Lemma insertSorted_stable k x l :
  good x -> Forall good l ->
  StronglySorted (fun a b => key a <= key b) l ->
  List.filter (fun a => key a =? k) (insertSorted x l)
  = List.filter (fun a => key a =? k) (x :: l).
Proof.
  intros Hx Hl Hs. induction l as [|y l IH]; [reflexivity|].
  inversion Hl as [|? ? Hy Hl']; subst. inversion Hs as [|? ? Hs' Hall]; subst.
  cbn [insertSorted]. rewrite comparator_key by assumption.
  destruct (Z.ltb_spec (key y) (key x)) as [Hlt|Hge]; [|reflexivity].
  cbn [List.filter] in *. rewrite IH by assumption.
  destruct (Z.eqb_spec (key y) k), (Z.eqb_spec (key x) k); try reflexivity; lia.
Qed.

(** Stability: the elements of any one key keep their relative order. *)
Lemma Array_sort_stable k l :
  Forall good l ->
  List.filter (fun a => key a =? k) (Array_sort l)
  = List.filter (fun a => key a =? k) l.
Proof.
  induction l as [|x l IH]; intros Hl; [reflexivity|].
  inversion Hl; subst. cbn [Array_sort foldr].
  rewrite insertSorted_stable; auto using Array_sort_good, Array_sort_sorted.
  cbn [List.filter]. fold (Array_sort l). now rewrite IH.
Qed.

(** A sorted arrangement in which the elements of each key keep their
    order is unique: whatever algorithm an engine runs, a stable sort with
    this comparator returns the array of the model. *)
Lemma stable_sorted_unique l1 : forall l2,
  StronglySorted (fun a b => key a <= key b) l1 ->
  StronglySorted (fun a b => key a <= key b) l2 ->
  (forall k, List.filter (fun a => key a =? k) l1 = List.filter (fun a => key a =? k) l2) ->
  l1 = l2.
Proof.
  induction l1 as [|x l1 IH]; intros l2 S1 S2 Hf.
  - destruct l2 as [|y l2]; [reflexivity|].
    specialize (Hf (key y)). cbn [List.filter] in Hf. rewrite Z.eqb_refl in Hf. discriminate.
  - destruct l2 as [|y l2].
    { specialize (Hf (key x)). cbn [List.filter] in Hf. rewrite Z.eqb_refl in Hf. discriminate. }
    inversion S1 as [|? ? S1' A1]; subst. inversion S2 as [|? ? S2' A2]; subst.
    assert (Hxy : key x = key y).
    { pose proof (Hf (key x)) as Hx. pose proof (Hf (key y)) as Hy.
      cbn [List.filter] in Hx, Hy. rewrite Z.eqb_refl in Hx, Hy.
      destruct (Z.eqb_spec (key y) (key x)) as [E|NE]; [now symmetry|].
      destruct (Z.eqb_spec (key x) (key y)) as [E'|_]; [exact E'|].
      assert (Hin2 : In x (List.filter (fun a => key a =? key x) l2))
        by (rewrite <- Hx; now left).
      assert (Hin1 : In y (List.filter (fun a => key a =? key y) l1))
        by (rewrite Hy; now left).
      apply filter_In in Hin2 as [Hin2 _]. apply filter_In in Hin1 as [Hin1 _].
      rewrite Forall_forall in A1, A2.
      apply list_elem_of_In in Hin1, Hin2.
      pose proof (A1 _ Hin1). pose proof (A2 _ Hin2). lia. }
    assert (Hhead : x = y /\ forall k, List.filter (fun a => key a =? k) l1
                                      = List.filter (fun a => key a =? k) l2).
    { split.
      - specialize (Hf (key x)). cbn [List.filter] in Hf.
        rewrite <- Hxy, Z.eqb_refl in Hf. now injection Hf.
      - intros k. specialize (Hf k). cbn [List.filter] in Hf. rewrite <- Hxy in Hf.
        destruct (key x =? k); [now injection Hf|exact Hf]. }
    destruct Hhead as [-> Htail]. f_equal. now apply IH.
Qed.

Lemma Array_sort_unique l l' :
  Forall good l ->
  StronglySorted (fun a b => key a <= key b) l' ->
  (forall k, List.filter (fun a => key a =? k) l' = List.filter (fun a => key a =? k) l) ->
  l' = Array_sort l.
Proof.
  intros Hl Hs Hf. apply stable_sorted_unique; [exact Hs|now apply Array_sort_sorted|].
  intros k. now rewrite Hf, Array_sort_stable.
Qed.

End ArraySort.

(** ** [sortStationsByDistance]

    [[...stations].sort((a, b) => (a.distanceMeters ?? 0) - (b.distanceMeters ?? 0))] *)

Definition byDistance (a b : Station.t) : number :=
  Num.sub (Station.distanceMeters a ?? Num.ofZ 0) (Station.distanceMeters b ?? Num.ofZ 0).

(** The contents of the array that [sortStationsByDistance] returns. *)
Definition sortStationsByDistance (stations : list Station.t) : list Station.t :=
  Array_sort byDistance stations.

(** ** The same function on the store of arrays

    Arrays are mutable objects, named by references; [sort] works in place
    and returns the reference it was given, and the spread [[...stations]]
    allocates.  [None] is a [TypeError] (the reference is no array). *)

Abbreviation ref := positive.
Abbreviation store := (gmap positive (list Station.t)).
Definition Eff (A : Type) : Type := store -> option (A * store).

Definition bindEff {A B : Type} (m : Eff A) (k : A -> Eff B) : Eff B :=
  fun h => match m h with Some (a, h') => k a h' | None => None end.

Notation "'let!' x ':=' m 'in' k" := (bindEff m (fun x => k))
  (at level 10, x name, m at level 100, k at level 200).

(** [[...a]]: a new array with the elements of [a]. *)
Definition spread (a : ref) : Eff ref :=
  fun h => match h !! a with
           | Some l => let r := fresh (dom h) in Some (r, <[r := l]> h)
           | None => None
           end.

(** [a.sort(comparator)]: sorts [a] in place and returns [a]. *)
Definition Array_prototype_sort (a : ref) (comparator : Station.t -> Station.t -> number)
  : Eff ref :=
  fun h => match h !! a with
           | Some l => Some (a, <[a := Array_sort comparator l]> h)
           | None => None
           end.

Definition sortStationsByDistance_store (stations : ref) : Eff ref :=
  let! copy := spread stations in
  Array_prototype_sort copy byDistance.

(** The operand of the comparator, and the stations the ranking is meant
    for: those that carry a [distanceMeters] that is a number. *)
Definition distanceOf (s : Station.t) : number :=
  Station.distanceMeters s ?? Num.ofZ 0.

Definition hasNumericDistance (s : Station.t) : bool :=
  match Station.distanceMeters s with
  | Some d => Num.numeric d
  | None => false
  end.

(** The example of the specification: distances 300, 100, 300, 50. *)
Definition stationAt (i : Z) (d : Z) : Station.t :=
  Station.mk i None None EmptyString None None (Some (Num.ofZ d)).

Definition exampleStations : list Station.t :=
  [stationAt 1 300; stationAt 2 100; stationAt 3 300; stationAt 4 50].

(** ** Properties of the ranking *)

Lemma hasNumericDistance_numeric s :
  hasNumericDistance s = true -> Num.numeric (distanceOf s) = true.
Proof.
  unfold hasNumericDistance, distanceOf. destruct (Station.distanceMeters s); [auto|discriminate].
Qed.

Lemma byDistance_key x y :
  Num.numeric (distanceOf x) = true -> Num.numeric (distanceOf y) = true ->
  Num.lt Num.zero (SortCompare byDistance x y)
  = (Num.value (distanceOf y) <? Num.value (distanceOf x)).
Proof.
  intros Hx Hy. rewrite <- (Num_sub_positive _ _ Hx Hy).
  unfold SortCompare, byDistance. fold (distanceOf x) (distanceOf y).
  destruct (Num.sub (distanceOf x) (distanceOf y)); reflexivity.
Qed.

Lemma StronglySorted_weaken {A : Type} (R R' : A -> A -> Prop) (P : A -> Prop) l :
  (forall a b, P a -> P b -> R a b -> R' a b) ->
  Forall P l -> StronglySorted R l -> StronglySorted R' l.
Proof.
  intros HR HP HS. induction HS as [|a l HS IH Hall]; [constructor|].
  inversion HP as [|? ? Ha HP']; subst. constructor; [now apply IH|].
  rewrite Forall_forall in *. intros b Hb. apply HR; auto.
Qed.

(** C1.  On stations that each carry a numeric [distanceMeters],
    [sortStationsByDistance] returns a rearrangement of its input that is
    ascending by [distanceMeters] (every station is at most as far as every
    later one) and stable: for every distance, the stations at that distance
    come out in the order they came in.  On the distances 300, 100, 300, 50
    the result is 50, 100, 300, 300 with station 1 before station 3. *)
Theorem sortStationsByDistance_ascending_stable (stations : list Station.t) :
  Forall (fun s => hasNumericDistance s = true) stations ->
  Permutation stations (sortStationsByDistance stations)
  /\ StronglySorted (fun a b => Num.le (distanceOf a) (distanceOf b) = true)
       (sortStationsByDistance stations)
  /\ (forall d, Num.numeric d = true ->
        List.filter (fun s => Num.eqb (distanceOf s) d) (sortStationsByDistance stations)
        = List.filter (fun s => Num.eqb (distanceOf s) d) stations)
  /\ sortStationsByDistance exampleStations
     = [stationAt 4 50; stationAt 2 100; stationAt 1 300; stationAt 3 300].
Proof.
  intros Hnum.
  assert (Hgood : Forall (fun s => Num.numeric (distanceOf s) = true) stations).
  { eapply Forall_impl; [exact Hnum|]. apply hasNumericDistance_numeric. }
  assert (Hperm : Permutation stations (sortStationsByDistance stations))
    by apply Array_sort_perm.
  assert (Hgood' : Forall (fun s => Num.numeric (distanceOf s) = true)
                     (sortStationsByDistance stations)) by now rewrite <- Hperm.
  split; [exact Hperm|]. split; [|split].
  - eapply StronglySorted_weaken with (P := fun s => Num.numeric (distanceOf s) = true);
      [|exact Hgood'|].
    2: { apply (Array_sort_sorted byDistance (fun s => Num.value (distanceOf s))
                  (fun s => Num.numeric (distanceOf s) = true) byDistance_key).
         exact Hgood. }
    intros a b Ha Hb Hle. simpl in Hle.
    rewrite (Num_le_value _ _ Ha Hb). now apply Z.leb_le.
  - intros d Hd.
    pose proof (Array_sort_stable byDistance (fun s => Num.value (distanceOf s))
                  (fun s => Num.numeric (distanceOf s) = true) byDistance_key
                  (Num.value d) stations Hgood) as Hst.
    fold (sortStationsByDistance stations) in Hst.
    erewrite (List.filter_ext_in _ (fun s => Num.value (distanceOf s) =? Num.value d)
                (sortStationsByDistance stations)).
    + rewrite Hst. symmetry. apply List.filter_ext_in.
      intros s Hs. rewrite Forall_forall in Hgood.
      apply Num_eqb_value; [apply Hgood; now apply list_elem_of_In|exact Hd].
    + intros s Hs. rewrite Forall_forall in Hgood'.
      apply Num_eqb_value; [apply Hgood'; now apply list_elem_of_In|exact Hd].
  - vm_compute. reflexivity.
Qed.

Lemma sortStationsByDistance_ascending_stable_witness :
  Forall (fun s => hasNumericDistance s = true) exampleStations
  /\ Permutation exampleStations (sortStationsByDistance exampleStations)
  /\ StronglySorted (fun a b => Num.le (distanceOf a) (distanceOf b) = true)
       (sortStationsByDistance exampleStations).
Proof.
  assert (H : Forall (fun s => hasNumericDistance s = true) exampleStations)
    by (repeat constructor).
  split; [exact H|].
  split; [exact (proj1 (sortStationsByDistance_ascending_stable exampleStations H))
         |exact (proj1 (proj2 (sortStationsByDistance_ascending_stable exampleStations H)))].
Defined.

(** On the store, the function computes the contents given by
    [sortStationsByDistance], in a new array. *)
Lemma sortStationsByDistance_store_run (h : store) (a : ref) (l : list Station.t) :
  h !! a = Some l ->
  sortStationsByDistance_store a h
  = Some (fresh (dom h), <[fresh (dom h) := sortStationsByDistance l]> h).
Proof.
  intros Ha. unfold sortStationsByDistance_store, bindEff, spread, Array_prototype_sort.
  rewrite Ha. rewrite lookup_insert_eq. rewrite insert_insert_eq. reflexivity.
Qed.

(** C10.  [sortStationsByDistance] returns a new array and leaves its
    argument as it was: the reference returned was not allocated before the
    call and differs from the argument, the argument holds the same elements
    in the same order after the call, every array allocated before the call
    is unchanged, and the new array holds the ranking. *)
Theorem sortStationsByDistance_fresh_array (h : store) (a : ref) (l : list Station.t) :
  h !! a = Some l ->
  exists (r : ref) (h' : store),
    sortStationsByDistance_store a h = Some (r, h')
    /\ h !! r = None
    /\ r <> a
    /\ h' !! a = Some l
    /\ (forall b : ref, b <> r -> h' !! b = h !! b)
    /\ h' !! r = Some (sortStationsByDistance l).
Proof.
  intros Ha. exists (fresh (dom h)), (<[fresh (dom h) := sortStationsByDistance l]> h).
  assert (Hfresh : h !! fresh (dom h) = None).
  { apply not_elem_of_dom. apply is_fresh. }
  assert (Hne : fresh (dom h) <> a) by (intros E; rewrite E in Hfresh; congruence).
  split; [now apply sortStationsByDistance_store_run|].
  split; [exact Hfresh|]. split; [exact Hne|].
  split; [now rewrite lookup_insert_ne|].
  split; [intros b Hb; now rewrite lookup_insert_ne|].
  apply lookup_insert_eq.
Qed.

Lemma sortStationsByDistance_fresh_array_witness :
  ({[ 1%positive := exampleStations ]} : store) !! 1%positive = Some exampleStations
  /\ exists (r : ref) (h' : store),
       sortStationsByDistance_store 1%positive {[ 1%positive := exampleStations ]}
       = Some (r, h')
       /\ ({[ 1%positive := exampleStations ]} : store) !! r = None
       /\ r <> 1%positive
       /\ h' !! 1%positive = Some exampleStations
       /\ (forall b : ref, b <> r ->
             h' !! b = ({[ 1%positive := exampleStations ]} : store) !! b)
       /\ h' !! r = Some (sortStationsByDistance exampleStations).
Proof.
  split; [reflexivity|].
  apply (sortStationsByDistance_fresh_array {[ 1%positive := exampleStations ]}
           1%positive exampleStations).
  reflexivity.
Defined.

(** * Part IV.  The host: what the platform provides

    [Math.sin], [Math.cos], [Math.sqrt] and [Math.atan2] return
    "implementation-approximated" numbers, [parseFloat] may approximate a
    literal of more than twenty significant digits, and the digits that
    [Number::toString] prints for a number that is no small integer come
    from a shortest-representation search.  The development takes them as
    given and assumes nothing about them. *)
Class Host : Type := {
  Math_sin : number -> number;
  Math_cos : number -> number;
  Math_sqrt : number -> number;
  Math_atan2 : number -> number -> number;
  parseFloat : string -> number;
  shortestDigits : number -> string;
  (** ['geolocation' in navigator] *)
  geolocationSupported : bool
}.

(** ** Numbers as exact rationals and integers *)

(** The exact value [p / q] of a finite number, with [0 < q]. *)
Definition rational (x : number) : option (Z * Z) :=
  match x with
  | S754_zero _ => Some (0, 1)
  | S754_finite s m e =>
      if 0 <=? e then Some (cond_Zopp s (Zpos m * 2 ^ e), 1)
      else Some (cond_Zopp s (Zpos m), 2 ^ (- e))
  | _ => None
  end.

(** [nearestInteger c x n]: [n] is the integer nearest to [c * x], the
    larger one when two are equally near ([n - 1/2 <= c * x < n + 1/2]). *)
Definition nearestInteger (c : Z) (x : number) (n : Z) : Prop :=
  match rational x with
  | Some (p, q) => (2 * n - 1) * q <= 2 * c * p < (2 * n + 1) * q
  | None => False
  end.

(** The integer [floor (c * x + 1/2)], for a finite [x]. *)
Definition roundHalfUp (c : Z) (x : number) : Z :=
  match rational x with
  | Some (p, q) => (2 * c * p + q) / (2 * q)
  | None => 0
  end.

(** The integer a number is, when it is one. *)
Definition integralValue (x : number) : option Z :=
  match rational x with
  | Some (p, q) => if p mod q =? 0 then Some (p / q) else None
  | None => None
  end.

(** ** [Math.round]

    Modelled from the spec (ECMA-262, Math.round): a number that is not
    finite or is integral is returned as it is; otherwise the result is the
    nearest integer, the one closer to [+inf] in case of a tie, and a zero
    result keeps the sign of the argument. *)
Definition Math_round (x : number) : number :=
  match x with
  | S754_finite s m e =>
      if 0 <=? e then x
      else
        let n := roundHalfUp 1 x in
        if n =? 0 then S754_zero s else Num.ofZ n
  | _ => x
  end.

(** ** [Number::toString], as used by a template literal

    Modelled from the spec (ECMA-262, Number::toString, radix 10): [NaN],
    the zeros and the infinities have fixed spellings; an integer of
    magnitude at most [2 ^ 53] is printed in full, since no shorter digit
    string denotes it; every other number is printed by the host. *)
Definition Number_toString `{Host} (x : number) : string :=
  match x with
  | S754_nan => "NaN"
  | S754_infinity false => "Infinity"
  | S754_infinity true => "-Infinity"
  | S754_zero _ => "0"
  | S754_finite _ _ _ =>
      match integralValue x with
      | Some n => if Z.abs n <=? 2 ^ 53 then pretty n else shortestDigits x
      | None => shortestDigits x
      end
  end.

(** ** [Number.prototype.toFixed]

    Modelled from the spec (ECMA-262, Number.prototype.toFixed): a number
    that is not finite, or of magnitude [10 ^ 21] or more, is printed by
    [Number::toString]; otherwise, with [n] the integer nearest to
    [10 ^ f * |x|] (the larger of two), the result is the sign, the decimal
    digits of [n] before its last [f] digits (["0"] when there is none), a
    point and the last [f] digits. *)
Fixpoint lastDigits (f : nat) (n : Z) : string :=
  match f with
  | O => ""
  | S f' => lastDigits f' (n / 10) +:+ pretty (n mod 10)
  end.

Definition belowE21 (x : number) : bool :=
  match rational (SFabs x) with
  | Some (p, q) => p <? 10 ^ 21 * q
  | None => false
  end.

Definition signString (x : number) : string :=
  match x with
  | S754_finite true _ _ | S754_infinity true => "-"
  | _ => ""
  end.

Definition toFixed `{Host} (fractionDigits : nat) (x : number) : string :=
  match x with
  | S754_nan | S754_infinity _ => Number_toString x
  | _ =>
      if belowE21 x then
        let n := roundHalfUp (10 ^ Z.of_nat fractionDigits) (SFabs x) in
        signString x +:+ pretty (n / 10 ^ Z.of_nat fractionDigits)
        +:+ match fractionDigits with
            | O => ""
            | S _ => "." +:+ lastDigits fractionDigits n
            end
      else signString x +:+ Number_toString (SFabs x)
  end.

(** ** [formatDistance]

    [meters == null] holds of [null] and of [undefined], here [None]. *)
Definition formatDistance `{Host} (meters : option number) : string :=
  match meters with
  | None => ""
  | Some m =>
      if Num.isNaN m then ""
      else if Num.lt m (Num.ofZ 1000) then Number_toString (Math_round m) +:+ " m"
      else toFixed 2 (Num.div m (Num.ofZ 1000)) +:+ " km"
  end.

(** A host to run examples on.  Its [parseFloat] knows the literals that the
    examples type; the results stated below do not depend on what its other
    functions return. *)
Definition sampleParseFloat (s : string) : number :=
  if String.eqb s "0" then Num.ofZ 0
  else if String.eqb s "10" then Num.ofZ 10
  else if String.eqb s "20" then Num.ofZ 20
  else if String.eqb s "200" then Num.ofZ 200
  else Num.NaN.

Definition sampleHost : Host := {|
  Math_sin := fun x => x;
  Math_cos := fun _ => Num.ofZ 1;
  Math_sqrt := SFsqrt Num.prec Num.emax;
  Math_atan2 := fun y x => Num.div y x;
  parseFloat := sampleParseFloat;
  shortestDigits := fun _ => "?";
  geolocationSupported := true
|}.

(** ** Rounding to the nearest integer *)

Lemma rational_den_pos x p q : rational x = Some (p, q) -> 0 < q.
Proof.
  destruct x as [s|s| |s m e]; simpl; try discriminate.
  - intros [= <- <-]. lia.
  - destruct (0 <=? e) eqn:He; intros [= <- <-]; [lia|].
    apply Z.leb_gt in He. apply Z.pow_pos_nonneg; lia.
Qed.

Lemma roundHalfUp_nearest c x p q :
  rational x = Some (p, q) -> nearestInteger c x (roundHalfUp c x).
Proof.
  intros Hx. pose proof (rational_den_pos _ _ _ Hx) as Hq.
  unfold nearestInteger, roundHalfUp. rewrite Hx.
  pose proof (Z.div_mod (2 * c * p + q) (2 * q) ltac:(lia)) as Hdm.
  pose proof (Z.mod_pos_bound (2 * c * p + q) (2 * q) ltac:(lia)) as Hr.
  set (n := (2 * c * p + q) / (2 * q)) in *.
  set (r := (2 * c * p + q) mod (2 * q)) in *.
  split; lia.
Qed.

Lemma nearestInteger_unique c x n n' :
  nearestInteger c x n -> nearestInteger c x n' -> n = n'.
Proof.
  unfold nearestInteger. destruct (rational x) as [[p q]|] eqn:Hx; [|tauto].
  pose proof (rational_den_pos _ _ _ Hx) as Hq. intros H1 H2. nia.
Qed.

(** The scaled value and the rational value of a well-formed number. *)
Lemma value_rational x p q :
  Num.wellFormed x = true -> rational x = Some (p, q) ->
  Num.value x * q = p * 2 ^ 1074.
Proof.
  destruct x as [s|s| |s m e]; simpl rational; try discriminate.
  - intros _ [= <- <-]. reflexivity.
  - intros V. apply (bounded_spec Num.prec Num.emax) in V as (He & _).
    change (SpecFloat.emin Num.prec Num.emax) with (-1074) in He.
    unfold Num.value, scaled.
    change (SpecFloat.emin Num.prec Num.emax) with (-1074).
    destruct (0 <=? e) eqn:H0; intros [= <- <-].
    + apply Z.leb_le in H0.
      replace (e - -1074) with (e + 1074) by lia. rewrite Z.pow_add_r by lia.
      destruct s; cbn [cond_Zopp]; ring.
    + apply Z.leb_gt in H0.
      assert (E : 2 ^ (e - -1074) * 2 ^ (- e) = 2 ^ 1074)
        by (rewrite <- Z.pow_add_r by lia; f_equal; lia).
      destruct s; cbn [cond_Zopp]; rewrite <- E; ring.
Qed.

Lemma numeric_literals :
  Num.numeric (Num.ofZ 0) = true /\ Num.value (Num.ofZ 0) = 0
  /\ Num.numeric (Num.ofZ 1000) = true /\ Num.value (Num.ofZ 1000) = 1000 * 2 ^ 1074.
Proof. repeat split; vm_compute; reflexivity. Qed.

(** [Math.round] on a well-formed number of [[0, 1000)]: the result is the
    integer nearest to it, between 0 and 1000, or a zero. *)
Lemma small_distance_round x :
  Num.numeric x = true ->
  Num.le (Num.ofZ 0) x = true -> Num.lt x (Num.ofZ 1000) = true ->
  exists n, 0 <= n <= 1000 /\ nearestInteger 1 x n
    /\ (Math_round x = Num.ofZ n \/ (n = 0 /\ exists s, Math_round x = S754_zero s)).
Proof.
  intros Hx Hle Hlt.
  destruct numeric_literals as (N0 & V0 & N1000 & V1000).
  rewrite (Num_le_value _ _ N0 Hx), V0 in Hle. apply Z.leb_le in Hle.
  rewrite (Num_lt_value _ _ Hx N1000), V1000 in Hlt. apply Z.ltb_lt in Hlt.
  pose proof (numeric_spec _ Hx) as [Vx Nx].
  assert (HU : 0 < 2 ^ 1074) by (apply Z.pow_pos_nonneg; lia).
  destruct x as [s|s| |s m e]; try discriminate.
  - exists 0. split; [clear; lia|]. split; [unfold nearestInteger; simpl; clear; lia|].
    right. eauto.
  - exfalso. revert Hle Hlt HU. unfold Num.value, scaled.
    change (SpecFloat.emin Num.prec Num.emax) with (-1074).
    change (Num.emax - -1074) with 2098.
    assert (H2 : 1000 * 2 ^ 1074 < 2 ^ 2098) by (vm_compute; reflexivity).
    revert H2. generalize (2 ^ 1074), (2 ^ 2098). clear.
    intros U V. destruct s; cbn [cond_Zopp]; lia.
  - destruct (rational (S754_finite s m e)) as [[p q]|] eqn:Hr;
      [|simpl in Hr; destruct (0 <=? e); discriminate].
    pose proof (rational_den_pos _ _ _ Hr) as Hq.
    pose proof (value_rational _ _ _ Vx Hr) as Hpq.
    pose proof (roundHalfUp_nearest 1 _ _ _ Hr) as Hnear.
    exists (roundHalfUp 1 (S754_finite s m e)).
    assert (Hp : 0 <= p < 1000 * q).
    { revert Hle Hlt Hpq HU Hq. generalize (Num.value (S754_finite s m e)), (2 ^ 1074).
      clear. intros v U. nia. }
    clear Hle Hlt Hpq HU V1000.
    split; [|split; [exact Hnear|]].
    + unfold nearestInteger in Hnear. rewrite Hr in Hnear. nia.
    + simpl in Hr. destruct (0 <=? e) eqn:H0.
      * exfalso. injection Hr as <- <-. apply Z.leb_le in H0.
        pose proof (bounded_spec Num.prec Num.emax m e Vx) as (He & _ & Hd).
        change (SpecFloat.emin Num.prec Num.emax) with (-1074) in *.
        pose proof (digits2_pos_bounds m) as [Hm _]. rewrite Hd in Hm by lia.
        change (2 ^ (Num.prec - 1)) with 4503599627370496 in Hm.
        assert (1 <= 2 ^ e) by (pose proof (Z.pow_pos_nonneg 2 e); lia).
        destruct s; cbn [cond_Zopp] in Hp; nia.
      * unfold Math_round. rewrite H0. cbv zeta.
        destruct (Z.eqb_spec (roundHalfUp 1 (S754_finite s m e)) 0) as [E|E].
        -- right. split; [exact E|]. eauto.
        -- left. reflexivity.
Qed.

(** The integers from 0 to 1000 are printed in full (checked one by one). *)
Lemma small_integer_toString `{Host} n :
  0 <= n <= 1000 -> Number_toString (Num.ofZ n) = pretty n.
Proof.
  intros Hn.
  assert (Hall : forallb (fun k => String.eqb (Number_toString (Num.ofZ (Z.of_nat k)))
                                      (pretty (Z.of_nat k))) (seq 0 1001) = true)
    by (vm_compute; reflexivity).
  rewrite forallb_forall in Hall.
  specialize (Hall (Z.to_nat n)). rewrite Z2Nat.id in Hall by lia.
  apply String.eqb_eq, Hall, in_seq. lia.
Qed.

(** ** Two decimal places *)

Lemma belowE21_rational x :
  belowE21 x = true -> exists p q, rational (SFabs x) = Some (p, q).
Proof.
  unfold belowE21. destruct (rational (SFabs x)) as [[p q]|]; [eauto|discriminate].
Qed.

Lemma toFixed_two_decimals `{Host} x :
  belowE21 x = true ->
  let n := roundHalfUp 100 (SFabs x) in
  nearestInteger 100 (SFabs x) n
  /\ toFixed 2 x
     = signString x +:+ pretty (n / 100) +:+ "."
       +:+ pretty (n / 10 mod 10) +:+ pretty (n mod 10).
Proof.
  intros Hb n. destruct (belowE21_rational x Hb) as (p & q & Hr).
  split; [exact (roundHalfUp_nearest 100 _ _ _ Hr)|].
  unfold toFixed. rewrite Hb.
  destruct x as [s|s| |s m e]; try discriminate; reflexivity.
Qed.

Lemma string_append_assoc (s1 s2 s3 : string) :
  (s1 +:+ s2) +:+ s3 = s1 +:+ s2 +:+ s3.
Proof.
  induction s1 as [|c s1 IH]; [reflexivity|].
  change (String c ((s1 +:+ s2) +:+ s3) = String c (s1 +:+ s2 +:+ s3)).
  now rewrite IH.
Qed.

(** A quotient by 1000 of a number that is not below 1000 has no sign. *)
Lemma kilometres_unsigned m :
  Num.isNaN m = false -> Num.lt m (Num.ofZ 1000) = false ->
  signString (Num.div m (Num.ofZ 1000)) = "".
Proof.
  intros Hn Hlt.
  change (Num.ofZ 1000) with (S754_finite false 8796093022208000 (-43)) in *.
  destruct m as [s|[]| |[] mx ex]; try discriminate; try reflexivity.
  unfold Num.div, SFdiv.
  destruct (SFdiv_core_binary Num.prec Num.emax (Z.pos mx) ex (Z.pos 8796093022208000) (-43))
    as [[mz ez] lz].
  unfold binary_round_aux.
  destruct (shr_fexp Num.prec Num.emax mz ez lz) as [r1 e1].
  destruct (shr_fexp Num.prec Num.emax _ e1 loc_Exact) as [r2 e2].
  destruct (shr_m r2); try reflexivity.
  destruct (e2 <=? Num.emax - Num.prec); reflexivity.
Qed.

Definition wellFormedArgument (meters : option number) : Prop :=
  match meters with
  | Some m => Num.wellFormed m = true
  | None => True
  end.

(** C2, as amended.  [formatDistance] returns the empty string for [null],
    [undefined] and [NaN].  For a number below 1000, negative numbers
    included, it returns [Math.round] of it followed by [" m"]; when the
    number is at least 0 this is the decimal spelling of the integer [n]
    nearest to it (the larger of two), and [0 <= n <= 1000].  For a number
    that is not below 1000 it returns [toFixed(2)] of the quotient by 1000
    followed by [" km"]; when the quotient is below [10 ^ 21] this is an
    integer part, a point and exactly two digits, which together spell the
    integer nearest to a hundred times the quotient.  In particular 500
    gives ["500 m"], 1500 gives ["1.50 km"] and [null] gives [""]. *)
Theorem formatDistance_cases `{Host} (meters : option number) :
  wellFormedArgument meters ->
  match meters with
  | None => formatDistance meters = ""
  | Some m =>
      if Num.isNaN m then formatDistance meters = ""
      else if Num.lt m (Num.ofZ 1000) then
        formatDistance meters = Number_toString (Math_round m) +:+ " m"
        /\ (Num.le (Num.ofZ 0) m = true ->
            exists n, 0 <= n <= 1000 /\ nearestInteger 1 m n
              /\ formatDistance meters = pretty n +:+ " m")
      else
        formatDistance meters = toFixed 2 (Num.div m (Num.ofZ 1000)) +:+ " km"
        /\ (belowE21 (Num.div m (Num.ofZ 1000)) = true ->
            exists w d1 d0, 0 <= w /\ 0 <= d1 <= 9 /\ 0 <= d0 <= 9
              /\ nearestInteger 100 (SFabs (Num.div m (Num.ofZ 1000))) (100 * w + 10 * d1 + d0)
              /\ formatDistance meters
                 = pretty w +:+ "." +:+ pretty d1 +:+ pretty d0 +:+ " km")
  end
  /\ formatDistance (Some (Num.ofZ 500)) = "500 m"
  /\ formatDistance (Some (Num.ofZ 1500)) = "1.50 km"
  /\ formatDistance None = "".
Proof.
  intros Hwf. split; [|repeat split; vm_compute; reflexivity].
  destruct meters as [m|]; [|reflexivity].
  simpl in Hwf. unfold formatDistance.
  destruct (Num.isNaN m) eqn:Hnan; [reflexivity|].
  destruct (Num.lt m (Num.ofZ 1000)) eqn:Hlt.
  - split; [reflexivity|]. intros Hle.
    assert (Hnum : Num.numeric m = true) by (unfold Num.numeric; now rewrite Hwf, Hnan).
    destruct (small_distance_round m Hnum Hle Hlt) as (n & Hn & Hnear & Hround).
    exists n. split; [exact Hn|]. split; [exact Hnear|]. f_equal.
    destruct Hround as [-> | (-> & s & ->)]; [now apply small_integer_toString|reflexivity].
  - split; [reflexivity|]. intros Hb.
    destruct (toFixed_two_decimals _ Hb) as [Hnear ->].
    rewrite (kilometres_unsigned m Hnan Hlt).
    set (n := roundHalfUp 100 (SFabs (Num.div m (Num.ofZ 1000)))) in *.
    assert (Hn0 : 0 <= n).
    { destruct (belowE21_rational _ Hb) as (p & q & Hr).
      pose proof (rational_den_pos _ _ _ Hr) as Hq.
      assert (Hp : 0 <= p).
      { destruct (Num.div m (Num.ofZ 1000)) as [s|s| |s mq eq]; simpl in Hr; try discriminate.
        - injection Hr as <- <-. lia.
        - destruct (0 <=? eq); injection Hr as <- <-; cbn [cond_Zopp]; lia. }
      subst n. unfold roundHalfUp. rewrite Hr. apply Z.div_pos; lia. }
    exists (n / 100), (n / 10 mod 10), (n mod 10).
    pose proof (Z.mod_pos_bound (n / 10) 10 ltac:(lia)).
    pose proof (Z.mod_pos_bound n 10 ltac:(lia)).
    assert (0 <= n / 100) by (apply Z.div_pos; lia).
    replace (100 * (n / 100) + 10 * (n / 10 mod 10) + n mod 10) with n.
    2: { pose proof (Z.div_mod n 10 ltac:(lia)). pose proof (Z.div_mod (n / 10) 10 ltac:(lia)).
         rewrite Z.div_div in * by lia. change (10 * 10) with 100 in *. lia. }
    repeat split; try lia; try assumption.
    rewrite !string_append_assoc. reflexivity.
Qed.

Lemma formatDistance_cases_witness :
  wellFormedArgument (Some (Num.ofZ 1500))
  /\ @formatDistance sampleHost (Some (Num.ofZ 1500)) = "1.50 km".
Proof.
  split; [reflexivity|].
  exact (proj1 (proj2 (proj2 (@formatDistance_cases sampleHost (Some (Num.ofZ 1500)) eq_refl)))).
Defined.

(** C2, as stated, fails on a negative number: -5 is neither [null] nor
    [NaN] nor in [[0, 1000)], and the result is ["-5 m"], not the
    two-decimal kilometres ["-0.01 km"]. *)
Lemma formatDistance_negative_metres :
  Num.isNaN (Num.ofZ (-5)) = false
  /\ Num.le (Num.ofZ 0) (Num.ofZ (-5)) = false
  /\ @formatDistance sampleHost (Some (Num.ofZ (-5))) = "-5 m"
  /\ @toFixed sampleHost 2 (Num.div (Num.ofZ (-5)) (Num.ofZ 1000)) +:+ " km" = "-0.01 km"
  /\ @formatDistance sampleHost (Some (Num.ofZ (-5)))
     <> @toFixed sampleHost 2 (Num.div (Num.ofZ (-5)) (Num.ofZ 1000)) +:+ " km".
Proof. repeat split; try (vm_compute; reflexivity). vm_compute. discriminate. Qed.

(** * Part V.  [fetchStations]: the query client *)

(** A function call either returns or throws. *)
Inductive Exception : Type :=
  | Error (message : string)
  | TypeError
  | Rejection.

Inductive Outcome (A : Type) : Type :=
  | Returned (a : A)
  | Thrown (e : Exception).

Arguments Returned {A} a.
Arguments Thrown {A} e.

Definition bindOutcome {A B : Type} (m : Outcome A) (k : A -> Outcome B) : Outcome B :=
  match m with
  | Returned a => k a
  | Thrown e => Thrown e
  end.

(** [array.map(f)] for a callback that may throw: the first exception ends
    the traversal. *)
Fixpoint mapOutcome {A B : Type} (f : A -> Outcome B) (l : list A) : Outcome (list B) :=
  match l with
  | [] => Returned []
  | x :: rest =>
      bindOutcome (f x) (fun y =>
      bindOutcome (mapOutcome f rest) (fun ys => Returned (y :: ys)))
  end.

(** The elements of an Overpass answer:
    [{ type, id, lat?, lon?, center?: {lat, lon}, tags? }]. *)
Module Center.
Record t : Type := mk { lat : option number; lon : option number }.
End Center.

Module Element.
Record t : Type := mk {
  type : string;
  id : Z;
  lat : option number;
  lon : option number;
  center : option Center.t;
  tags : option (gmap string string)
}.
End Element.

(** The parsed body of the answer, and the answer: [res.ok] and what
    [res.json()] settles to.  [fetch] itself may be rejected. *)
Module Data.
Record t : Type := mk { elements : option (list Element.t) }.
End Data.

Module Response.
Record t : Type := mk { ok : bool; json : Outcome Data.t }.
End Response.

(** [parts.filter(Boolean).join(' ')]: an absent part and an empty string
    are falsy. *)
Definition truthy (part : option string) : option string :=
  match part with
  | Some EmptyString | None => None
  | Some s => Some s
  end.

Fixpoint join (separator : string) (parts : list string) : string :=
  match parts with
  | [] => ""
  | [s] => s
  | s :: rest => s +:+ separator +:+ join separator rest
  end.

(** The callback of [elements.map]; reading [center.lat] when [center] is
    [undefined] throws a [TypeError]. *)
Definition normalize (el : Element.t) : Outcome Station.t :=
  let center :=
    if String.eqb (Element.type el) "node"
    then Some (Center.mk (Element.lat el) (Element.lon el))
    else Element.center el in
  let tags := Element.tags el ?? ∅ in
  match center with
  | None => Thrown TypeError
  | Some c =>
      Returned {|
        Station.id := Element.id el;
        Station.name := tags !! "name";
        Station.brand := tags !! "brand";
        Station.address :=
          join " " (omap truthy [tags !! "addr:street"; tags !! "addr:housenumber";
                                 tags !! "addr:city"]);
        Station.lat := Center.lat c;
        Station.lon := Center.lon c;
        Station.distanceMeters := None
      |}
  end.

(** [fetchStations(lat, lon, radiusMeters)], as a function of what the
    network request settles to. *)
Definition fetchStations (lat lon radiusMeters : number) (reply : Outcome Response.t)
  : Outcome (list Station.t) :=
  bindOutcome reply (fun res =>
  if negb (Response.ok res) then Thrown (Error "Failed to fetch stations")
  else
    bindOutcome (Response.json res) (fun data =>
    mapOutcome normalize (Data.elements data ?? []))).

(** An element that carries what [normalize] reads its coordinate from. *)
Definition hasCenter (el : Element.t) : bool :=
  String.eqb (Element.type el) "node" || bool_decide (is_Some (Element.center el)).

(** Sample elements: a node, a node without [lat]/[lon], a way without
    [center]. *)
Definition sampleNode : Element.t :=
  Element.mk "node" 1 (Some (Num.ofZ 12)) (Some (Num.ofZ 77)) None
    (Some {[ "name" := "Shell"; "addr:city" := "Bengaluru" ]}).

Definition bareNode : Element.t := Element.mk "node" 2 None None None None.

Definition bareWay : Element.t := Element.mk "way" 3 None None None None.

Definition success (els : option (list Element.t)) : Outcome Response.t :=
  Returned (Response.mk true (Returned (Data.mk els))).

(** ** Properties of the normalisation *)

Lemma normalize_hasCenter el :
  hasCenter el = true -> exists s, normalize el = Returned s
    /\ Station.id s = Element.id el.
Proof.
  unfold hasCenter, normalize. intros H.
  destruct (String.eqb (Element.type el) "node"); [eauto|].
  simpl in H. apply bool_decide_eq_true in H as [c Hc]. rewrite Hc. eauto.
Qed.

Lemma normalize_no_center el :
  hasCenter el = false -> normalize el = Thrown TypeError.
Proof.
  unfold hasCenter, normalize. intros H. apply orb_false_iff in H as [H1 H2].
  rewrite H1. apply bool_decide_eq_false in H2.
  destruct (Element.center el); [exfalso; apply H2; eauto|reflexivity].
Qed.

Lemma mapOutcome_all els :
  forallb hasCenter els = true ->
  exists stations, mapOutcome normalize els = Returned stations
    /\ Forall2 (fun el s => normalize el = Returned s) els stations.
Proof.
  induction els as [|el els IH]; simpl; [eauto|].
  intros H. apply andb_true_iff in H as [H1 H2].
  destruct (normalize_hasCenter el H1) as (s & Hs & _).
  destruct (IH H2) as (ss & Hss & Hall). rewrite Hs, Hss. simpl.
  exists (s :: ss). split; [reflexivity|]. now constructor.
Qed.

Lemma mapOutcome_some_missing els :
  forallb hasCenter els = false -> mapOutcome normalize els = Thrown TypeError.
Proof.
  induction els as [|el els IH]; simpl; [discriminate|].
  intros H. destruct (hasCenter el) eqn:Hel.
  - destruct (normalize_hasCenter el Hel) as (s & -> & _). simpl.
    rewrite IH by exact H. reflexivity.
  - now rewrite normalize_no_center.
Qed.

(** C3, as amended.  [fetchStations] skips no element.  On a successful
    answer each of whose elements is a node or carries a [center], it
    returns one station per element, in the order of the answer, each the
    normalisation of its element; a node without [lat] and [lon] is kept,
    with its coordinates [undefined].  On a successful answer with an
    element that is no node and carries no [center], it throws a
    [TypeError] and returns no station at all. *)
Theorem fetchStations_skips_nothing (lat lon radiusMeters : number) (els : list Element.t) :
  (forallb hasCenter els = true ->
   exists stations,
     fetchStations lat lon radiusMeters (success (Some els)) = Returned stations
     /\ length stations = length els
     /\ Forall2 (fun el s => normalize el = Returned s) els stations)
  /\ (forallb hasCenter els = false ->
      fetchStations lat lon radiusMeters (success (Some els)) = Thrown TypeError)
  /\ (exists s1 s2,
        fetchStations lat lon radiusMeters (success (Some [sampleNode; bareNode]))
        = Returned [s1; s2]
        /\ Station.id s2 = 2 /\ Station.lat s2 = None /\ Station.lon s2 = None).
Proof.
  split; [|split].
  - intros H. destruct (mapOutcome_all els H) as (stations & Hrun & Hall).
    exists stations. split; [exact Hrun|]. split; [|exact Hall].
    symmetry. eapply Forall2_length, Hall.
  - intros H. now apply mapOutcome_some_missing.
  - eexists _, _. split; [reflexivity|]. repeat split.
Qed.

Lemma fetchStations_skips_nothing_witness :
  forallb hasCenter [sampleNode; bareNode] = true
  /\ exists stations,
       fetchStations (Num.ofZ 12) (Num.ofZ 77) (Num.ofZ 2000)
         (success (Some [sampleNode; bareNode])) = Returned stations
       /\ length stations = length [sampleNode; bareNode]
       /\ Forall2 (fun el s => normalize el = Returned s) [sampleNode; bareNode] stations.
Proof.
  split; [reflexivity|].
  exact (proj1 (fetchStations_skips_nothing (Num.ofZ 12) (Num.ofZ 77) (Num.ofZ 2000)
                  [sampleNode; bareNode]) eq_refl).
Defined.

(** C3, as stated, fails: with a well-formed node followed by a way that
    has no [center], the way is not skipped and the node is not returned;
    the call throws. *)
Lemma fetchStations_aborts_on_missing_center :
  fetchStations (Num.ofZ 12) (Num.ofZ 77) (Num.ofZ 2000) (success (Some [sampleNode; bareWay]))
  = Thrown TypeError
  /\ (exists s, fetchStations (Num.ofZ 12) (Num.ofZ 77) (Num.ofZ 2000)
                  (success (Some [sampleNode])) = Returned [s])
  /\ ~ (exists stations,
          fetchStations (Num.ofZ 12) (Num.ofZ 77) (Num.ofZ 2000)
            (success (Some [sampleNode; bareWay])) = Returned stations).
Proof.
  split; [reflexivity|]. split; [eexists; reflexivity|].
  intros [stations H]. discriminate H.
Qed.

(** C9, as amended.  For a successful answer whose [elements] is empty or
    absent, [fetchStations] returns an empty array and throws nothing.
    Whenever the status is not a success it throws the error
    ["Failed to fetch stations"].  (A success status does not exclude an
    exception: see [fetchStations_throws_on_success].) *)
Theorem fetchStations_empty_and_failure (lat lon radiusMeters : number) (res : Response.t) :
  (Response.ok res = false ->
   fetchStations lat lon radiusMeters (Returned res)
   = Thrown (Error "Failed to fetch stations"))
  /\ (Response.ok res = true ->
      forall data, Response.json res = Returned data ->
      Data.elements data = None \/ Data.elements data = Some [] ->
      fetchStations lat lon radiusMeters (Returned res) = Returned []).
Proof.
  split.
  - intros H. unfold fetchStations, bindOutcome. now rewrite H.
  - intros H data Hj He. unfold fetchStations, bindOutcome. rewrite H, Hj. simpl.
    destruct He as [-> | ->]; reflexivity.
Qed.

Lemma fetchStations_empty_and_failure_witness :
  (Response.ok (Response.mk false (Returned (Data.mk None))) = false
   /\ fetchStations (Num.ofZ 12) (Num.ofZ 77) (Num.ofZ 2000)
        (Returned (Response.mk false (Returned (Data.mk None))))
      = Thrown (Error "Failed to fetch stations"))
  /\ (Response.ok (Response.mk true (Returned (Data.mk None))) = true
      /\ fetchStations (Num.ofZ 12) (Num.ofZ 77) (Num.ofZ 2000)
           (Returned (Response.mk true (Returned (Data.mk None))))
         = Returned []).
Proof.
  split; (split; [reflexivity|]).
  - exact (proj1 (fetchStations_empty_and_failure (Num.ofZ 12) (Num.ofZ 77) (Num.ofZ 2000)
                    (Response.mk false (Returned (Data.mk None)))) eq_refl).
  - exact (proj2 (fetchStations_empty_and_failure (Num.ofZ 12) (Num.ofZ 77) (Num.ofZ 2000)
                    (Response.mk true (Returned (Data.mk None)))) eq_refl
             (Data.mk None) eq_refl (or_introl eq_refl)).
Defined.

(** C9, as stated, fails in one direction: an exception is raised on an
    answer whose status is a success. *)
Lemma fetchStations_throws_on_success :
  Response.ok (Response.mk true (Returned (Data.mk (Some [bareWay])))) = true
  /\ fetchStations (Num.ofZ 12) (Num.ofZ 77) (Num.ofZ 2000)
       (Returned (Response.mk true (Returned (Data.mk (Some [bareWay])))))
     = Thrown TypeError.
Proof. split; reflexivity. Qed.

(** * Part VI.  Geodesy

    [toRadians] and [haversineDistanceMeters] are written once, over the
    arithmetic they use.  The application runs them on binary64 numbers with
    the functions of the host; their geometric properties are those of the
    same formula over the real numbers. *)

Class Arith (N : Type) : Type := {
  ofInteger : Z -> N;
  add : N -> N -> N;
  sub : N -> N -> N;
  mul : N -> N -> N;
  div : N -> N -> N;
  pi : N;
  sine : N -> N;
  cosine : N -> N;
  squareRoot : N -> N;
  arctan2 : N -> N -> N
}.

Declare Scope arith_scope.
Delimit Scope arith_scope with arith.
Notation "x + y" := (add x y) : arith_scope.
Notation "x - y" := (sub x y) : arith_scope.
Notation "x * y" := (mul x y) : arith_scope.
Notation "x / y" := (div x y) : arith_scope.
Notation "# z" := (ofInteger z) (at level 9, z at level 9, format "# z") : arith_scope.

Section Utils.

Context {N : Type} `{Arith N}.
Local Open Scope arith_scope.

Definition toRadians (degrees : N) : N :=
  (degrees * pi) / #180.

Definition haversineDistanceMeters (lat1 lon1 lat2 lon2 : N) : N :=
  let R := #6371000 in
  let dLat := toRadians (lat2 - lat1) in
  let dLon := toRadians (lon2 - lon1) in
  let a :=
    sine (dLat / #2) * sine (dLat / #2) +
    cosine (toRadians lat1) *
      cosine (toRadians lat2) *
      sine (dLon / #2) *
      sine (dLon / #2) in
  let c := #2 * arctan2 (squareRoot a) (squareRoot (#1 - a)) in
  R * c.

End Utils.

(** ** The arithmetic of the language *)

(** [Math.PI], the binary64 number nearest to pi. *)
Definition Math_PI : number := S754_finite false 7074237752028440 (-51).

#[export] Instance hostArith `{Host} : Arith number := {|
  ofInteger := Num.ofZ;
  add := Num.add;
  sub := Num.sub;
  mul := Num.mul;
  div := Num.div;
  pi := Math_PI;
  sine := Math_sin;
  cosine := Math_cos;
  squareRoot := Math_sqrt;
  arctan2 := Math_atan2
|}.

(** ** The arithmetic of the real numbers *)

(** Modelled from the spec: [Math.atan2 (y, x)], the angle of the point
    [(x, y)], between [- PI] and [PI]. *)
Definition atan2 (y x : R) : R :=
  if Rlt_dec 0 x then atan (y / x)
  else if Rlt_dec x 0 then
    if Rle_dec 0 y then (atan (y / x) + PI)%R else (atan (y / x) - PI)%R
  else if Rlt_dec 0 y then (PI / 2)%R
  else if Rlt_dec y 0 then (- (PI / 2))%R
  else 0%R.

#[export] Instance realArith : Arith R := {|
  ofInteger := IZR;
  add := Rplus;
  sub := Rminus;
  mul := Rmult;
  div := Rdiv;
  pi := PI;
  sine := sin;
  cosine := cos;
  squareRoot := sqrt;
  arctan2 := atan2
|}.

(** The haversine term: the square of half the chord between the points. *)
Definition haversine (lat1 lon1 lat2 lon2 : R) : R :=
  (sin ((lat2 - lat1) * PI / 180 / 2) * sin ((lat2 - lat1) * PI / 180 / 2)
   + cos (lat1 * PI / 180) * cos (lat2 * PI / 180)
     * sin ((lon2 - lon1) * PI / 180 / 2) * sin ((lon2 - lon1) * PI / 180 / 2))%R.

Section GeodesyFacts.

Local Open Scope R_scope.

Lemma haversineDistanceMeters_unfold (lat1 lon1 lat2 lon2 : R) :
  haversineDistanceMeters lat1 lon1 lat2 lon2
  = 6371000 * (2 * atan2 (sqrt (haversine lat1 lon1 lat2 lon2))
                         (sqrt (1 - haversine lat1 lon1 lat2 lon2))).
Proof. reflexivity. Qed.

Lemma haversine_same (lat lon : R) : haversine lat lon lat lon = 0.
Proof.
  unfold haversine.
  replace ((lat - lat) * PI / 180 / 2) with 0 by lra.
  replace ((lon - lon) * PI / 180 / 2) with 0 by lra.
  rewrite sin_0. ring.
Qed.

Lemma haversine_sym (lat1 lon1 lat2 lon2 : R) :
  haversine lat1 lon1 lat2 lon2 = haversine lat2 lon2 lat1 lon1.
Proof.
  unfold haversine.
  replace ((lat1 - lat2) * PI / 180 / 2) with (- ((lat2 - lat1) * PI / 180 / 2)) by lra.
  replace ((lon1 - lon2) * PI / 180 / 2) with (- ((lon2 - lon1) * PI / 180 / 2)) by lra.
  rewrite !sin_neg. ring.
Qed.

Lemma atan2_0_1 : atan2 0 1 = 0.
Proof.
  unfold atan2. destruct (Rlt_dec 0 1) as [_|H]; [|lra].
  replace (0 / 1) with 0 by lra. apply atan_0.
Qed.

End GeodesyFacts.

(** A number that is a zero or finite. *)
Definition finiteNumber (x : number) : bool :=
  match x with
  | S754_zero _ | S754_finite _ _ _ => true
  | _ => false
  end.

(** A well-formed number of magnitude at most 1. *)
Definition unitRange (c : number) : bool :=
  Num.numeric c && Num.le (SFabs c) (Num.ofZ 1).

(** A coordinate: a latitude in [-90, 90] and a longitude in [-180, 180]. *)
Definition isCoordinate (lat lon : number) : bool :=
  Num.numeric lat && Num.numeric lon
  && Num.le (SFabs lat) (Num.ofZ 90) && Num.le (SFabs lon) (Num.ofZ 180).

(** What the geodesic identities use of the host: the sine is odd and
    exact at [+0] (ECMA-262), the cosine of a finite number is within
    [-1, 1], the square root is exact at [+0] and 1, and [atan2 (+0, 1)]
    is [+0] (ECMA-262). *)
Record HostMath `{Host} : Prop := {
  sin_odd : forall x, Math_sin (SFopp x) = SFopp (Math_sin x);
  sin_zero : Math_sin Num.zero = Num.zero;
  cos_unit : forall x, finiteNumber x = true -> unitRange (Math_cos x) = true;
  sqrt_zero : Math_sqrt Num.zero = Num.zero;
  sqrt_one : Math_sqrt (Num.ofZ 1) = Num.ofZ 1;
  atan2_zero : Math_atan2 Num.zero (Num.ofZ 1) = Num.zero
}.

Section FloatGeodesy.

Context `{Host}.
Hypothesis HM : HostMath.

Lemma numeric_abs c : Num.numeric c = true -> Num.numeric (SFabs c) = true.
Proof.
  unfold Num.numeric, Num.wellFormed, Num.isNaN.
  destruct c; try discriminate; simpl; auto.
Qed.

Lemma value_abs c : Num.value (SFabs c) = Z.abs (Num.value c).
Proof.
  unfold Num.value, scaled. destruct c as [s|s| |s m e]; try reflexivity;
    destruct s; cbn [SFabs cond_Zopp]; rewrite ?Z.abs_opp;
    symmetry; apply Z.abs_eq; try (apply Z.pow_nonneg; lia);
    apply Z.mul_nonneg_nonneg; try lia; apply Z.pow_nonneg; lia.
Qed.

(** A well-formed number of magnitude at most [n < 2 ^ k]. *)
Lemma le_finiteBelow c n k :
  Num.numeric c = true -> Num.le (SFabs c) (Num.ofZ n) = true ->
  Num.numeric (Num.ofZ n) = true -> Num.value (Num.ofZ n) = n * 2 ^ 1074 ->
  0 <= k <= 1024 -> n < 2 ^ k ->
  finiteBelow k c.
Proof.
  intros Hc Hle Hn Hv Hk Hnk.
  rewrite (Num_le_value _ _ (numeric_abs c Hc) Hn), Hv, value_abs in Hle.
  apply Z.leb_le in Hle. destruct (numeric_spec _ Hc) as [V N].
  apply (scaled_below Num.prec Num.emax eq_refl eq_refl); auto; [unfold Num.emax; lia|].
  change (SpecFloat.emin Num.prec Num.emax) with (-1074).
  replace (k - -1074) with (k + 1074) by lia. rewrite Z.pow_add_r by lia.
  fold (Num.value c).
  assert (0 < 2 ^ 1074) by (apply Z.pow_pos_nonneg; lia). nia.
Qed.

Lemma unitRange_below c : unitRange c = true -> finiteBelow 1 c.
Proof.
  unfold unitRange. intros Hc. apply andb_true_iff in Hc as [Hn Hle].
  apply (le_finiteBelow c 1 1); auto; try (vm_compute; reflexivity); lia.
Qed.

Lemma finiteBelow_finite k x : finiteBelow k x -> finiteNumber x = true.
Proof. destruct x; simpl; tauto. Qed.

Lemma cos_product_finite x y :
  finiteNumber x = true -> finiteNumber y = true ->
  finiteNumber (Num.mul (Math_cos x) (Math_cos y)) = true.
Proof.
  intros Hx Hy. apply (finiteBelow_finite (1 + 1 + 1)).
  apply (SFmul_below Num.prec Num.emax eq_refl eq_refl);
    try (apply unitRange_below, (cos_unit HM); assumption);
    vm_compute; congruence.
Qed.

(** The conversion of a latitude to radians does not overflow. *)
Lemma toRadians_finite (lat : number) :
  Num.numeric lat = true -> Num.le (SFabs lat) (Num.ofZ 90) = true ->
  finiteNumber (toRadians lat) = true.
Proof.
  intros Hn Hle. unfold toRadians. cbn [mul div ofInteger pi hostArith].
  assert (Hlat : finiteBelow 7 lat)
    by (apply (le_finiteBelow lat 90 7); auto; try (vm_compute; reflexivity); lia).
  assert (Hpi : finiteBelow 2 Math_PI) by (vm_compute; congruence).
  assert (Hmul : finiteBelow (7 + 2 + 1) (Num.mul lat Math_PI))
    by (apply (SFmul_below Num.prec Num.emax eq_refl eq_refl); try assumption;
        vm_compute; congruence).
  change (Num.ofZ 180) with (S754_finite false 6333186975989760 (-45)).
  apply (finiteBelow_finite (7 + 2 + 1 - 8 + 2)).
  apply (SFdiv_below Num.prec Num.emax eq_refl eq_refl _ false 6333186975989760 (-45)
           (7 + 2 + 1) Hmul); vm_compute; congruence.
Qed.

Lemma sub_self x : finiteNumber x = true -> Num.sub x x = Num.zero.
Proof.
  destruct x as [s|s| |s m e]; try discriminate; intros _.
  - destruct s; reflexivity.
  - unfold Num.sub, SFsub. rewrite Z.min_id, Z.sub_diag. reflexivity.
Qed.

Lemma mul_finite_zero x :
  finiteNumber x = true ->
  exists s, Num.mul (Num.mul x Num.zero) Num.zero = S754_zero s.
Proof.
  destruct x; try discriminate; intros _; eexists; reflexivity.
Qed.

(** On binary64 numbers, with the functions of a host. *)
Lemma float_haversine_same (lat lon : number) :
  isCoordinate lat lon = true ->
  haversineDistanceMeters lat lon lat lon = Num.zero.
Proof.
  intros Hc. unfold isCoordinate in Hc.
  apply andb_true_iff in Hc as [Hc Hlon180]. apply andb_true_iff in Hc as [Hc Hlat90].
  apply andb_true_iff in Hc as [Hnlat Hnlon].
  assert (Hlat : finiteNumber lat = true)
    by (apply (finiteBelow_finite 7), (le_finiteBelow lat 90 7); auto;
        try (vm_compute; reflexivity); lia).
  assert (Hlon : finiteNumber lon = true)
    by (apply (finiteBelow_finite 8), (le_finiteBelow lon 180 8); auto;
        try (vm_compute; reflexivity); lia).
  pose proof (toRadians_finite lat Hnlat Hlat90) as Hrad.
  unfold toRadians in Hrad. cbn [mul div ofInteger pi hostArith] in Hrad.
  unfold haversineDistanceMeters, toRadians. cbn [sub mul div add ofInteger pi sine cosine squareRoot arctan2 hostArith].
  rewrite !sub_self by assumption.
  change (Num.div (Num.div (Num.mul Num.zero Math_PI) (Num.ofZ 180)) (Num.ofZ 2)) with Num.zero.
  rewrite (sin_zero HM).
  destruct (mul_finite_zero _ (cos_product_finite _ _ Hrad Hrad)) as [s ->].
  replace (Num.add (Num.mul Num.zero Num.zero) (S754_zero s)) with Num.zero
    by (destruct s; reflexivity).
  rewrite (sqrt_zero HM).
  change (Num.sub (Num.ofZ 1) Num.zero) with (Num.ofZ 1).
  rewrite (sqrt_one HM), (atan2_zero HM). reflexivity.
Qed.

(** Equal up to the sign. *)
Definition sameMagnitude (x y : number) : Prop := x = y \/ x = SFopp y.

Lemma sub_swap x y : sameMagnitude (Num.sub x y) (Num.sub y x).
Proof.
  destruct (SFsub_swap Num.prec Num.emax x y) as [E | [E1 E2]].
  - right. exact E.
  - left. unfold Num.sub. now rewrite E1, E2.
Qed.

Lemma halfAngle_sameMagnitude d d' :
  sameMagnitude d d' ->
  sameMagnitude (Math_sin (Num.div (Num.div (Num.mul d Math_PI) (Num.ofZ 180)) (Num.ofZ 2)))
                (Math_sin (Num.div (Num.div (Num.mul d' Math_PI) (Num.ofZ 180)) (Num.ofZ 2))).
Proof.
  intros [-> | ->]; [now left|right].
  unfold Num.mul, Num.div.
  now rewrite SFmul_opp_l, !SFdiv_opp_l, (sin_odd HM).
Qed.

Lemma square_sameMagnitude c u v :
  sameMagnitude u v -> Num.mul (Num.mul c u) u = Num.mul (Num.mul c v) v.
Proof.
  intros [-> | ->]; [reflexivity|]. unfold Num.mul.
  repeat first [rewrite SFmul_opp_r | rewrite SFmul_opp_l | rewrite SFopp_involutive].
  reflexivity.
Qed.

Lemma square_sameMagnitude' u v :
  sameMagnitude u v -> Num.mul u u = Num.mul v v.
Proof.
  intros [-> | ->]; [reflexivity|]. unfold Num.mul.
  repeat first [rewrite SFmul_opp_r | rewrite SFmul_opp_l | rewrite SFopp_involutive].
  reflexivity.
Qed.

Lemma float_haversine_sym (lat1 lon1 lat2 lon2 : number) :
  haversineDistanceMeters lat1 lon1 lat2 lon2 = haversineDistanceMeters lat2 lon2 lat1 lon1.
Proof.
  unfold haversineDistanceMeters, toRadians. cbn [sub mul div add ofInteger pi sine cosine squareRoot arctan2 hostArith].
  pose proof (halfAngle_sameMagnitude _ _ (sub_swap lat2 lat1)) as Hlat.
  pose proof (halfAngle_sameMagnitude _ _ (sub_swap lon2 lon1)) as Hlon.
  rewrite (square_sameMagnitude' _ _ Hlat).
  rewrite (square_sameMagnitude _ _ _ Hlon).
  unfold Num.mul at 7. rewrite (SFmul_comm Num.prec Num.emax (Math_cos _) (Math_cos _)).
  reflexivity.
Qed.

End FloatGeodesy.

Lemma sampleHost_math : @HostMath sampleHost.
Proof. constructor; reflexivity. Qed.

(** C6.  [haversineDistanceMeters] is a total function of its four
    arguments (no state, no exception), the haversine formula in its
    [atan2] form with the radius 6,371,000 m.  On binary64 numbers, with any
    host whose [Math] functions satisfy [HostMath], the distance from a
    coordinate to itself is [+0] and the distance from [a] to [b] is the
    distance from [b] to [a].  Over the real numbers the same holds
    without any assumption, and the function is
    [R * (2 * atan2 (sqrt h, sqrt (1 - h)))] with [h] the haversine term. *)
Theorem haversineDistanceMeters_zero_symmetric `{Host} :
  HostMath ->
  (forall lat1 lon1 lat2 lon2 : number,
     (isCoordinate lat1 lon1 = true ->
      haversineDistanceMeters lat1 lon1 lat1 lon1 = Num.zero)
     /\ haversineDistanceMeters lat1 lon1 lat2 lon2
        = haversineDistanceMeters lat2 lon2 lat1 lon1)
  /\ (forall lat1 lon1 lat2 lon2 : R,
        haversineDistanceMeters lat1 lon1 lat1 lon1 = 0%R
        /\ haversineDistanceMeters lat1 lon1 lat2 lon2
           = haversineDistanceMeters lat2 lon2 lat1 lon1
        /\ haversineDistanceMeters lat1 lon1 lat2 lon2
           = (6371000 * (2 * atan2 (sqrt (haversine lat1 lon1 lat2 lon2))
                                   (sqrt (1 - haversine lat1 lon1 lat2 lon2))))%R).
Proof.
  intros HM. split.
  - intros lat1 lon1 lat2 lon2. split.
    + now apply float_haversine_same.
    + now apply float_haversine_sym.
  - intros lat1 lon1 lat2 lon2. split; [|split].
    + rewrite haversineDistanceMeters_unfold, haversine_same.
      replace (1 - 0)%R with 1%R by lra.
      rewrite sqrt_0, sqrt_1, atan2_0_1. lra.
    + rewrite !haversineDistanceMeters_unfold.
      now rewrite (haversine_sym lat1 lon1 lat2 lon2).
    + apply haversineDistanceMeters_unfold.
Qed.

Lemma haversineDistanceMeters_zero_symmetric_witness :
  @HostMath sampleHost
  /\ haversineDistanceMeters (H := @hostArith sampleHost)
       (Num.ofZ 12) (Num.ofZ 77) (Num.ofZ 12) (Num.ofZ 77) = Num.zero
  /\ haversineDistanceMeters (H := @hostArith sampleHost)
       (Num.ofZ 12) (Num.ofZ 77) (Num.ofZ 13) (Num.ofZ 78)
     = haversineDistanceMeters (H := @hostArith sampleHost)
         (Num.ofZ 13) (Num.ofZ 78) (Num.ofZ 12) (Num.ofZ 77).
Proof.
  split; [exact sampleHost_math|].
  pose proof (proj1 (@haversineDistanceMeters_zero_symmetric sampleHost sampleHost_math)
                (Num.ofZ 12) (Num.ofZ 77) (Num.ofZ 13) (Num.ofZ 78)) as [Hsame Hsym].
  split; [apply Hsame; reflexivity|exact Hsym].
Defined.

(** * Part VI, continued.  One degree of longitude on binary64 numbers *)

(** ** The error of a rounding *)

Section Rounding.

Variables prec emax : Z.
Hypothesis Hprec : 1 < prec.
Hypothesis Hmax : prec < emax.

Abbreviation emin' := (SpecFloat.emin prec emax).
Abbreviation fexp' := (SpecFloat.fexp prec emax).

Lemma digits2_pos_eq p k :
  0 < k -> 2 ^ (k - 1) <= Zpos p < 2 ^ k -> Zpos (digits2_pos p) = k.
Proof.
  intros Hk [Hlo Hhi]. pose proof (digits2_pos_bounds p) as [Hlo' Hhi'].
  assert (H1 : Zpos (digits2_pos p) <= k) by (apply digits2_pos_lt; lia).
  assert (H2 : 2 ^ (k - 1) < 2 ^ Zpos (digits2_pos p)) by lia.
  apply Z.pow_lt_mono_r_iff in H2; lia.
Qed.

(** A mantissa of [prec] digits at an exponent of the format is left as it
    is by the shift to the exponent of the format. *)
Lemma shr_fexp_canonical m e :
  Zpos (digits2_pos m) = prec -> emin' <= e ->
  shr_m (fst (shr_fexp prec emax (Zpos m) e loc_Exact)) = Zpos m
  /\ snd (shr_fexp prec emax (Zpos m) e loc_Exact) = e.
Proof.
  intros Hd He. pose proof (shr_fexp_spec prec emax (Zpos m) e loc_Exact) as [H1 H2].
  simpl Zdigits2 in H1, H2. rewrite Hd in H1, H2.
  replace (Z.max 0 (fexp' (prec + e) - e)) with 0 in H1, H2
    by (unfold SpecFloat.fexp, SpecFloat.emin in *; lia).
  simpl in H1. rewrite Z.div_1_r in H1. split; [exact H1|lia].
Qed.

(** Rounding a mantissa of more than [prec] digits, in the range of the
    normal numbers: the result is a well-formed finite number, at most one
    unit in the last place away, which is a relative error of at most
    [2 ^ (1 - prec)]. *)
Lemma binary_round_aux_rounds s m e :
  prec < Zpos (digits2_pos m) -> emin' <= e -> Zpos (digits2_pos m) + e < emax ->
  exists m' e',
    binary_round_aux prec emax s (Zpos m) e loc_Exact = S754_finite s m' e'
    /\ bounded prec emax m' e' = true
    /\ Zpos (digits2_pos m') = prec
    /\ emin' <= e'
    /\ Z.abs (Zpos m' * 2 ^ (e' - emin') - Zpos m * 2 ^ (e - emin')) * 2 ^ (prec - 1)
       <= Zpos m * 2 ^ (e - emin').
Proof.
  intros Hd He Hov. unfold binary_round_aux.
  pose proof (digits2_pos_bounds m) as [Hlo Hhi].
  pose proof (shr_fexp_spec prec emax (Zpos m) e loc_Exact) as [H1 H2].
  simpl Zdigits2 in H1, H2. simpl (0 <=? Zpos m) in H1.
  set (d := Zpos (digits2_pos m)) in *.
  assert (Hn : Z.max 0 (fexp' (d + e) - e) = d - prec)
    by (unfold SpecFloat.fexp, SpecFloat.emin in *; lia).
  rewrite Hn in H1, H2.
  destruct (shr_fexp prec emax (Zpos m) e loc_Exact) as [r1 e1]. simpl in H1, H2.
  pose proof (round_nearest_even_bounds (shr_m r1) (loc_of_shr_record r1)) as Hrnd.
  set (m2 := round_nearest_even (shr_m r1) (loc_of_shr_record r1)) in *. clearbody m2.
  set (n := d - prec) in *.
  assert (Hp : 0 < 2 ^ n) by (apply Z.pow_pos_nonneg; lia).
  assert (Hsplit : 2 ^ (d - 1) = 2 ^ (prec - 1) * 2 ^ n)
    by (rewrite <- Z.pow_add_r by lia; f_equal; lia).
  assert (Hsplit' : 2 ^ d = 2 ^ prec * 2 ^ n)
    by (rewrite <- Z.pow_add_r by lia; f_equal; lia).
  pose proof (Z.div_mod (Zpos m) (2 ^ n) ltac:(lia)) as Hdm.
  pose proof (Z.mod_pos_bound (Zpos m) (2 ^ n) Hp) as Hmod.
  rewrite <- H1 in Hdm.
  assert (Hm1 : 2 ^ (prec - 1) <= shr_m r1 < 2 ^ prec) by (split; nia).
  assert (Hpp : 2 ^ prec = 2 * 2 ^ (prec - 1)).
  { replace prec with (1 + (prec - 1)) at 1 by lia. rewrite Z.pow_add_r by lia. reflexivity. }
  assert (Hq : 0 < 2 ^ (prec - 1)) by (apply Z.pow_pos_nonneg; lia).
  assert (He1 : emin' <= e1) by lia.
  assert (Hu : 0 < 2 ^ (e - emin')) by (apply Z.pow_pos_nonneg; lia).
  assert (Hen : 2 ^ (e1 - emin') = 2 ^ n * 2 ^ (e - emin')).
  { rewrite <- Z.pow_add_r by lia. f_equal. lia. }
  destruct (Z.lt_ge_cases m2 (2 ^ prec)) as [Hlt|Hge].
  - (* the rounded mantissa has [prec] digits *)
    destruct m2 as [|p2|p2]; try lia.
    assert (Hd2 : Zpos (digits2_pos p2) = prec) by (apply digits2_pos_eq; lia).
    destruct (shr_fexp_canonical p2 e1 Hd2 He1) as [H3 H4].
    destruct (shr_fexp prec emax (Zpos p2) e1 loc_Exact) as [r2 e2]. simpl in H3, H4.
    rewrite H3, H4.
    replace (e1 <=? emax - prec) with true by (symmetry; apply Z.leb_le; lia).
    exists p2, e1. split; [reflexivity|]. split; [|split; [exact Hd2|split; [exact He1|]]].
    + unfold bounded, canonical_mantissa. rewrite Hd2.
      apply andb_true_iff. split; [apply Z.eqb_eq|apply Z.leb_le; lia].
      unfold SpecFloat.fexp, SpecFloat.emin in *. lia.
    + rewrite Hen.
      replace (Zpos p2 * (2 ^ n * 2 ^ (e - emin')) - Zpos m * 2 ^ (e - emin'))
        with ((Zpos p2 * 2 ^ n - Zpos m) * 2 ^ (e - emin')) by ring.
      rewrite Z.abs_mul, (Z.abs_eq (2 ^ (e - emin'))) by lia.
      assert (Z.abs (Zpos p2 * 2 ^ n - Zpos m) <= 2 ^ n) by (apply Z.abs_le; nia).
      assert (2 ^ n * 2 ^ (prec - 1) <= Zpos m) by lia.
      nia.
  - (* the rounded mantissa is [2 ^ prec] *)
    assert (Em2 : m2 = 2 ^ prec) by lia.
    assert (Hd2 : Zdigits2 m2 = prec + 1).
    { destruct m2 as [|p2|p2]; try lia. simpl. apply digits2_pos_eq; [lia|].
      replace (prec + 1 - 1) with prec by lia. rewrite Em2.
      split; [lia|]. rewrite Z.pow_add_r by lia. simpl (2 ^ 1). lia. }
    pose proof (shr_fexp_spec prec emax m2 e1 loc_Exact) as [H3 H4].
    replace (0 <=? m2) with true in H3 by (symmetry; apply Z.leb_le; lia).
    rewrite Hd2 in H3, H4.
    replace (Z.max 0 (fexp' (prec + 1 + e1) - e1)) with 1 in H3, H4
      by (unfold SpecFloat.fexp, SpecFloat.emin in *; lia).
    destruct (shr_fexp prec emax m2 e1 loc_Exact) as [r2 e2]. simpl in H3, H4.
    assert (E3 : shr_m r2 = 2 ^ (prec - 1)).
    { rewrite H3, Em2, Hpp. simpl (2 ^ 1). rewrite Z.mul_comm. apply Z.div_mul. lia. }
    rewrite E3.
    destruct (2 ^ (prec - 1)) as [|p3|p3] eqn:E; try lia.
    assert (Hd3 : Zpos (digits2_pos p3) = prec).
    { apply digits2_pos_eq; [lia|]. rewrite <- E. lia. }
    replace (e2 <=? emax - prec) with true by (symmetry; apply Z.leb_le; lia).
    exists p3, e2. split; [reflexivity|]. split; [|split; [exact Hd3|split; [lia|]]].
    + unfold bounded, canonical_mantissa. rewrite Hd3.
      apply andb_true_iff. split; [apply Z.eqb_eq|apply Z.leb_le; lia].
      unfold SpecFloat.fexp, SpecFloat.emin in *. lia.
    + assert (He2 : 2 ^ (e2 - emin') = 2 * 2 ^ n * 2 ^ (e - emin')).
      { rewrite H4. replace (e1 + 1 - emin') with (1 + (e1 - emin')) by lia.
        rewrite Z.pow_add_r, Hen by lia. simpl (2 ^ 1). ring. }
      rewrite He2.
      replace (Zpos p3 * (2 * 2 ^ n * 2 ^ (e - emin')) - Zpos m * 2 ^ (e - emin'))
        with ((2 * Zpos p3 * 2 ^ n - Zpos m) * 2 ^ (e - emin')) by ring.
      rewrite Z.abs_mul, (Z.abs_eq (2 ^ (e - emin'))) by lia.
      assert (Z.abs (2 * Zpos p3 * 2 ^ n - Zpos m) <= 2 ^ n) by (apply Z.abs_le; nia).
      assert (2 ^ n * Zpos p3 <= Zpos m) by nia.
      nia.
Qed.

(** The product of two positive numbers with full mantissas. *)
Lemma SFmul_rounds mx ex my ey :
  Zpos (digits2_pos mx) = prec -> Zpos (digits2_pos my) = prec ->
  emin' <= ex + ey -> 2 * prec + ex + ey < emax ->
  exists m' e',
    SFmul prec emax (S754_finite false mx ex) (S754_finite false my ey)
    = S754_finite false m' e'
    /\ bounded prec emax m' e' = true
    /\ Zpos (digits2_pos m') = prec
    /\ emin' <= e'
    /\ Z.abs (Zpos m' * 2 ^ (e' - emin') - Zpos mx * Zpos my * 2 ^ (ex + ey - emin'))
       * 2 ^ (prec - 1)
       <= Zpos mx * Zpos my * 2 ^ (ex + ey - emin').
Proof.
  intros Hx Hy He Hov. cbn [SFmul xorb].
  pose proof (digits2_pos_bounds mx) as [Hx1 Hx2]. rewrite Hx in Hx1, Hx2.
  pose proof (digits2_pos_bounds my) as [Hy1 Hy2]. rewrite Hy in Hy1, Hy2.
  pose proof (digits2_pos_bounds (mx * my)) as [Hp1 Hp2].
  rewrite Pos2Z.inj_mul in Hp1, Hp2.
  assert (Hq : 0 < 2 ^ (prec - 1)) by (apply Z.pow_pos_nonneg; lia).
  assert (Hlo : 2 ^ (2 * prec - 2) <= Zpos mx * Zpos my).
  { replace (2 * prec - 2) with ((prec - 1) + (prec - 1)) by lia.
    rewrite Z.pow_add_r by lia. nia. }
  assert (Hhi : Zpos mx * Zpos my < 2 ^ (2 * prec)).
  { replace (2 * prec) with (prec + prec) by lia. rewrite Z.pow_add_r by lia. nia. }
  assert (Hd1 : 2 * prec - 2 < Zpos (digits2_pos (mx * my))).
  { apply (Z.pow_lt_mono_r_iff 2); lia. }
  assert (Hd2 : Zpos (digits2_pos (mx * my)) <= 2 * prec).
  { apply digits2_pos_lt; [lia|]. rewrite Pos2Z.inj_mul. exact Hhi. }
  destruct (binary_round_aux_rounds false (mx * my) (ex + ey)) as (m' & e' & Hr & H);
    try lia.
  exists m', e'. rewrite Pos2Z.inj_mul in H. split; [exact Hr|exact H].
Qed.

(** The difference of two positive numbers, when it is positive and has
    more than [prec] digits at the smaller of the two exponents. *)
Lemma SFsub_rounds mx ex my ey d :
  bounded prec emax mx ex = true -> bounded prec emax my ey = true ->
  Zpos d = Zpos (fst (shl_align mx ex (Z.min ex ey)))
           - Zpos (fst (shl_align my ey (Z.min ex ey))) ->
  prec < Zpos (digits2_pos d) -> Zpos (digits2_pos d) + Z.min ex ey < emax ->
  exists m' e',
    SFsub prec emax (S754_finite false mx ex) (S754_finite false my ey)
    = S754_finite false m' e'
    /\ bounded prec emax m' e' = true
    /\ Zpos (digits2_pos m') = prec
    /\ emin' <= e'
    /\ Z.abs (Zpos m' * 2 ^ (e' - emin')
              - (Zpos mx * 2 ^ (ex - emin') - Zpos my * 2 ^ (ey - emin')))
       * 2 ^ (prec - 1)
       <= Zpos mx * 2 ^ (ex - emin') - Zpos my * 2 ^ (ey - emin').
Proof.
  intros Vx Vy Hd Hdig Hov.
  pose proof (SFsub_align prec emax false mx ex false my ey Vx Vy) as Hal.
  cbn [cond_Zopp scaled] in Hal. rewrite <- Hd in Hal.
  pose proof (bounded_spec prec emax mx ex Vx) as (Hex & _).
  pose proof (bounded_spec prec emax my ey Vy) as (Hey & _).
  cbn [SFsub cond_Zopp]. rewrite <- Hd. cbn [binary_normalize].
  unfold binary_round, shl_align.
  replace (fexp' (Zpos (digits2_pos d) + Z.min ex ey) - Z.min ex ey)
    with (Zpos (digits2_pos d) - prec)
    by (unfold SpecFloat.fexp, SpecFloat.emin in *; lia).
  destruct (Zpos (digits2_pos d) - prec) as [|k|k] eqn:Hk; try lia.
  destruct (binary_round_aux_rounds false d (Z.min ex ey)) as (m' & e' & Hr & H);
    try lia.
  exists m', e'. rewrite <- Hal. split; [exact Hr|exact H].
Qed.

End Rounding.

(** ** Numbers as real numbers *)

(** The real number that a zero or a finite number is. *)
Definition toReal (x : number) : R :=
  match rational x with
  | Some (p, q) => (IZR p / IZR q)%R
  | None => 0%R
  end.

(** A positive number with a full mantissa, neither tiny nor huge. *)
Definition positiveNormal (x : number) : Prop :=
  exists m e, x = S754_finite false m e
    /\ bounded Num.prec Num.emax m e = true
    /\ Zpos (digits2_pos m) = Num.prec
    /\ -200 <= e <= 200.

(** [approx] is a well-formed finite number within the relative error
    [eps] of [exact]. *)
Definition accurate (eps : R) (approx : number) (exact : R) : Prop :=
  Num.wellFormed approx = true /\ finiteNumber approx = true
  /\ (Rabs (toReal approx - exact) <= eps * Rabs exact)%R.

Lemma unit_pos : (0 < IZR (2 ^ 1074))%R.
Proof. apply IZR_lt. apply Z.pow_pos_nonneg; lia. Qed.

Lemma toReal_value x :
  Num.wellFormed x = true -> finiteNumber x = true ->
  toReal x = (IZR (Num.value x) / IZR (2 ^ 1074))%R.
Proof.
  intros V F. unfold toReal.
  destruct (rational x) as [[p q]|] eqn:Hr.
  2: { destruct x as [s|s| |s m e]; try discriminate.
       simpl in Hr. destruct (0 <=? e); discriminate. }
  pose proof (rational_den_pos _ _ _ Hr) as Hq.
  pose proof (value_rational _ _ _ V Hr) as E.
  pose proof unit_pos as HU. apply IZR_lt in Hq.
  apply (f_equal IZR) in E. rewrite !mult_IZR in E.
  field_simplify_eq; [|split; lra]. lra.
Qed.

Lemma toReal_finite (m : positive) (e : Z) :
  bounded Num.prec Num.emax m e = true ->
  toReal (S754_finite false m e) = (IZR (Zpos m * 2 ^ (e + 1074)) / IZR (2 ^ 1074))%R.
Proof.
  intros B. rewrite toReal_value by (auto; exact B).
  unfold Num.value, scaled. cbn [cond_Zopp].
  change (SpecFloat.emin Num.prec Num.emax) with (-1074).
  now replace (e - -1074) with (e + 1074) by lia.
Qed.

Lemma positiveNormal_wellFormed x :
  positiveNormal x -> Num.wellFormed x = true /\ finiteNumber x = true.
Proof. intros (m & e & -> & B & _). split; [exact B|reflexivity]. Qed.

Lemma positiveNormal_intro x :
  Num.wellFormed x = true -> finiteNumber x = true ->
  (/ IZR (2 ^ 64) <= toReal x <= IZR (2 ^ 64))%R ->
  positiveNormal x.
Proof.
  intros V F [Hlo Hhi]. rewrite (toReal_value x V F) in Hlo, Hhi.
  pose proof unit_pos as HU.
  assert (H64 : (0 < IZR (2 ^ 64))%R) by (apply IZR_lt; reflexivity).
  assert (Hlo' : (IZR (2 ^ 1074) <= IZR (Num.value x) * IZR (2 ^ 64))%R).
  { apply (Rmult_le_compat_r (IZR (2 ^ 1074) * IZR (2 ^ 64))) in Hlo; [|nra].
    field_simplify in Hlo; lra. }
  assert (Hhi' : (IZR (Num.value x) <= IZR (2 ^ 64) * IZR (2 ^ 1074))%R).
  { apply (Rmult_le_compat_r (IZR (2 ^ 1074))) in Hhi; [|lra].
    field_simplify in Hhi; lra. }
  rewrite <- mult_IZR in Hlo', Hhi'. apply le_IZR in Hlo', Hhi'.
  destruct x as [s|s| |s m e]; try discriminate.
  - exfalso. unfold Num.value, scaled in Hlo'. simpl in Hlo'. lia.
  - unfold Num.value, scaled in Hlo', Hhi'.
    change (SpecFloat.emin Num.prec Num.emax) with (-1074) in *.
    pose proof (bounded_spec Num.prec Num.emax m e V) as (He & Hd & Hn).
    change (SpecFloat.emin Num.prec Num.emax) with (-1074) in *.
    unfold Num.prec, Num.emax in *.
    assert (Hp : 0 < 2 ^ (e - -1074)) by (apply Z.pow_pos_nonneg; lia).
    destruct s; cbn [cond_Zopp] in Hlo', Hhi'.
    { exfalso. assert (0 < 2 ^ 1074) by (apply Z.pow_pos_nonneg; lia). nia. }
    pose proof (digits2_pos_bounds m) as [Hm1 Hm2].
    assert (Hm53 : Zpos m < 2 ^ 53).
    { apply Z.lt_le_trans with (1 := Hm2). apply Z.pow_le_mono_r; lia. }
    assert (Hup : 2 ^ 1074 < 2 ^ (53 + (e - -1074) + 64)).
    { rewrite !Z.pow_add_r by lia. nia. }
    apply Z.pow_lt_mono_r_iff in Hup; [|lia|lia].
    assert (Hdig : Z.pos (digits2_pos m) = 53) by (apply Hn; lia).
    rewrite Hdig in Hm1.
    assert (Hdn : 2 ^ (52 + (e - -1074)) <= 2 ^ (64 + 1074)).
    { rewrite !Z.pow_add_r by lia. simpl (53 - 1) in Hm1. nia. }
    apply Z.pow_le_mono_r_iff in Hdn; [|lia|lia].
    exists m, e. split; [reflexivity|]. split; [exact V|]. split; [exact Hdig|lia].
Qed.

Lemma toReal_zero x :
  Num.wellFormed x = true -> finiteNumber x = true -> toReal x = 0%R ->
  exists s, x = S754_zero s.
Proof.
  intros V F E. rewrite (toReal_value x V F) in E. pose proof unit_pos as HU.
  assert (E' : IZR (Num.value x) = 0%R).
  { apply (f_equal (fun r => (r * IZR (2 ^ 1074))%R)) in E. field_simplify in E; lra. }
  apply eq_IZR in E'.
  destruct x as [s|s| |s m e]; try discriminate; [eauto|exfalso].
  unfold Num.value, scaled in E'.
  pose proof (bounded_spec Num.prec Num.emax m e V) as (He & _).
  assert (Hp : 0 < 2 ^ (e - SpecFloat.emin Num.prec Num.emax))
    by (apply Z.pow_pos_nonneg; lia).
  destruct s; cbn [cond_Zopp] in E'; nia.
Qed.

(** The product of two such numbers is rounded with a relative error of
    at most [2 ^ -52]. *)
Lemma mul_error x y :
  positiveNormal x -> positiveNormal y ->
  Num.wellFormed (Num.mul x y) = true /\ finiteNumber (Num.mul x y) = true
  /\ (Rabs (toReal (Num.mul x y) - toReal x * toReal y)
      <= / IZR (2 ^ 52) * (toReal x * toReal y))%R.
Proof.
  intros (mx & ex & -> & Bx & Dx & Hex) (my & ey & -> & By & Dy & Hey).
  destruct (SFmul_rounds Num.prec Num.emax eq_refl eq_refl mx ex my ey Dx Dy)
    as (m' & e' & Hr & B' & _ & _ & Herr).
  { change (SpecFloat.emin Num.prec Num.emax) with (-1074). lia. }
  { unfold Num.prec, Num.emax. lia. }
  unfold Num.mul. rewrite Hr. split; [exact B'|]. split; [reflexivity|].
  rewrite !toReal_finite by assumption.
  change (SpecFloat.emin Num.prec Num.emax) with (-1074) in Herr.
  change (Num.prec - 1) with 52 in Herr.
  replace (e' - -1074) with (e' + 1074) in Herr by lia.
  replace (ex + ey - -1074) with (ex + ey + 1074) in Herr by lia.
  assert (Hsplit : Zpos mx * 2 ^ (ex + 1074) * (Zpos my * 2 ^ (ey + 1074))
                   = Zpos mx * Zpos my * 2 ^ (ex + ey + 1074) * 2 ^ 1074).
  { replace (ex + 1074) with ((ex + ey + 1074) + (- ey)) by lia.
    replace (ey + 1074) with (ey + 200 + 874) at 1 by lia.
    assert (E1 : 2 ^ (ex + ey + 1074 + - ey) * 2 ^ (ey + 200 + 874)
                 = 2 ^ (ex + ey + 1074) * 2 ^ 1074).
    { rewrite <- !Z.pow_add_r by lia. f_equal. lia. }
    nia. }
  set (P := Zpos mx * Zpos my * 2 ^ (ex + ey + 1074)) in *.
  set (Q := Zpos m' * 2 ^ (e' + 1074)) in *.
  pose proof unit_pos as HU.
  assert (H52 : (0 < IZR (2 ^ 52))%R) by (apply IZR_lt; reflexivity).
  apply IZR_le in Herr. rewrite mult_IZR, abs_IZR, minus_IZR in Herr.
  replace (IZR (Zpos mx * 2 ^ (ex + 1074)) / IZR (2 ^ 1074)
           * (IZR (Zpos my * 2 ^ (ey + 1074)) / IZR (2 ^ 1074)))%R
    with (IZR P / IZR (2 ^ 1074))%R.
  2: { transitivity (IZR (Zpos mx * 2 ^ (ex + 1074) * (Zpos my * 2 ^ (ey + 1074)))
                     / (IZR (2 ^ 1074) * IZR (2 ^ 1074)))%R.
       - rewrite Hsplit, mult_IZR. field. lra.
       - rewrite (mult_IZR (Zpos mx * 2 ^ (ex + 1074))). field. lra. }
  replace (IZR Q / IZR (2 ^ 1074) - IZR P / IZR (2 ^ 1074))%R
    with ((IZR Q - IZR P) / IZR (2 ^ 1074))%R by (field; lra).
  unfold Rdiv at 1. rewrite Rabs_mult, (Rabs_pos_eq (/ IZR (2 ^ 1074)))
    by (left; apply Rinv_0_lt_compat; lra).
  apply (Rmult_le_reg_r (IZR (2 ^ 1074) * IZR (2 ^ 52))); [nra|].
  field_simplify; [|lra|lra]. lra.
Qed.

(** The difference [1 - a], for a small positive [a], is rounded with a
    relative error of at most [2 ^ -52]. *)
Lemma sub_one_error a :
  positiveNormal a -> (toReal a <= / 16)%R ->
  Num.wellFormed (Num.sub (Num.ofZ 1) a) = true
  /\ finiteNumber (Num.sub (Num.ofZ 1) a) = true
  /\ (Rabs (toReal (Num.sub (Num.ofZ 1) a) - (1 - toReal a))
      <= / IZR (2 ^ 52) * (1 - toReal a))%R.
Proof.
  intros (m & e & -> & B & D & He) Hsmall.
  pose proof unit_pos as HU.
  rewrite toReal_finite in * by assumption.
  assert (Hz : Zpos m * 2 ^ (e + 1074) * 16 <= 2 ^ 1074).
  { apply le_IZR. rewrite mult_IZR.
    apply (Rmult_le_compat_r (IZR (2 ^ 1074) * 16)) in Hsmall; [|lra].
    field_simplify in Hsmall; lra. }
  pose proof (digits2_pos_bounds m) as [Hm1 Hm2]. rewrite D in Hm1, Hm2.
  unfold Num.prec in Hm1, Hm2. simpl (53 - 1) in Hm1.
  assert (Hp : 0 < 2 ^ (e + 1074)) by (apply Z.pow_pos_nonneg; lia).
  assert (He56 : e <= -56).
  { assert (H : 2 ^ (52 + (e + 1074) + 4) <= 2 ^ 1074).
    { rewrite !Z.pow_add_r by lia. change (2 ^ 4) with 16. nia. }
    apply Z.pow_le_mono_r_iff in H; lia. }
  change (Num.ofZ 1) with (S754_finite false 4503599627370496 (-52)).
  assert (B1 : bounded Num.prec Num.emax 4503599627370496 (-52) = true) by reflexivity.
  assert (Hmin : Z.min (-52) e = e) by lia.
  assert (Hal1 : Zpos (fst (shl_align 4503599627370496 (-52) e)) = 2 ^ (- e)).
  { rewrite shl_align_value by lia. change 4503599627370496 with (2 ^ 52).
    rewrite <- Z.pow_add_r by lia. f_equal. lia. }
  assert (Hal2 : Zpos (fst (shl_align m e e)) = Zpos m).
  { rewrite shl_align_value by lia. rewrite Z.sub_diag. simpl. lia. }
  assert (H56 : 2 ^ 56 <= 2 ^ (- e)) by (apply Z.pow_le_mono_r; lia).
  destruct (2 ^ (- e) - Zpos m) as [|d|d] eqn:Hd; try lia.
  assert (Hdig1 : 55 < Zpos (digits2_pos d)).
  { pose proof (digits2_pos_bounds d) as [_ Hd2].
    apply (Z.pow_lt_mono_r_iff 2); [lia|lia|]. lia. }
  assert (Hdig2 : Zpos (digits2_pos d) <= - e).
  { apply digits2_pos_lt; lia. }
  destruct (SFsub_rounds Num.prec Num.emax eq_refl eq_refl
              4503599627370496 (-52) m e d B1 B) as (m' & e' & Hr & B' & _ & _ & Herr).
  { rewrite Hmin, Hal1, Hal2. lia. }
  { unfold Num.prec. lia. }
  { rewrite Hmin. unfold Num.emax. lia. }
  unfold Num.sub. rewrite Hr. split; [exact B'|]. split; [reflexivity|].
  rewrite toReal_finite by assumption.
  change (SpecFloat.emin Num.prec Num.emax) with (-1074) in Herr.
  change (Num.prec - 1) with 52 in Herr.
  replace (e' - -1074) with (e' + 1074) in Herr by lia.
  replace (e - -1074) with (e + 1074) in Herr by lia.
  change (4503599627370496 * 2 ^ (-52 - -1074)) with (2 ^ 1074) in Herr.
  set (Q := Zpos m' * 2 ^ (e' + 1074)) in *.
  set (A := Zpos m * 2 ^ (e + 1074)) in *.
  assert (H52 : (0 < IZR (2 ^ 52))%R) by (apply IZR_lt; reflexivity).
  apply IZR_le in Herr. rewrite mult_IZR, abs_IZR, !minus_IZR in Herr.
  replace (IZR Q / IZR (2 ^ 1074) - (1 - IZR A / IZR (2 ^ 1074)))%R
    with ((IZR Q - (IZR (2 ^ 1074) - IZR A)) / IZR (2 ^ 1074))%R by (field; lra).
  unfold Rdiv at 1. rewrite Rabs_mult, (Rabs_pos_eq (/ IZR (2 ^ 1074)))
    by (left; apply Rinv_0_lt_compat; lra).
  apply (Rmult_le_reg_r (IZR (2 ^ 1074) * IZR (2 ^ 52))); [nra|].
  field_simplify; [|lra|lra]. lra.
Qed.

(** ** The calls of [Math] functions that the distance makes *)

Section Calls.

Context `{Host}.

(** [toRadians (to - from) / 2], the argument of a sine. *)
Definition halfAngle (from to : number) : number :=
  Num.div (toRadians (Num.sub to from)) (Num.ofZ 2).

(** The term [a] of [haversineDistanceMeters]. *)
Definition haversineTerm (lat1 lon1 lat2 lon2 : number) : number :=
  Num.add
    (Num.mul (Math_sin (halfAngle lat1 lat2)) (Math_sin (halfAngle lat1 lat2)))
    (Num.mul
       (Num.mul (Num.mul (Math_cos (toRadians lat1)) (Math_cos (toRadians lat2)))
          (Math_sin (halfAngle lon1 lon2)))
       (Math_sin (halfAngle lon1 lon2))).

Lemma haversineDistanceMeters_calls (lat1 lon1 lat2 lon2 : number) :
  haversineDistanceMeters lat1 lon1 lat2 lon2
  = Num.mul (Num.ofZ 6371000)
      (Num.mul (Num.ofZ 2)
         (Math_atan2 (Math_sqrt (haversineTerm lat1 lon1 lat2 lon2))
            (Math_sqrt (Num.sub (Num.ofZ 1) (haversineTerm lat1 lon1 lat2 lon2))))).
Proof. reflexivity. Qed.

(** Every call of a [Math] function that [haversineDistanceMeters] makes
    on the four arguments returns a well-formed finite number within the
    relative error [eps] of the exact value of the function at the
    argument of the call. *)
Record AccurateCalls (eps : R) (lat1 lon1 lat2 lon2 : number) : Prop := {
  sin_dLat :
    accurate eps (Math_sin (halfAngle lat1 lat2)) (sin (toReal (halfAngle lat1 lat2)));
  sin_dLon :
    accurate eps (Math_sin (halfAngle lon1 lon2)) (sin (toReal (halfAngle lon1 lon2)));
  cos_lat1 :
    accurate eps (Math_cos (toRadians lat1)) (cos (toReal (toRadians lat1)));
  cos_lat2 :
    accurate eps (Math_cos (toRadians lat2)) (cos (toReal (toRadians lat2)));
  sqrt_a :
    accurate eps (Math_sqrt (haversineTerm lat1 lon1 lat2 lon2))
      (sqrt (toReal (haversineTerm lat1 lon1 lat2 lon2)));
  sqrt_1_a :
    accurate eps (Math_sqrt (Num.sub (Num.ofZ 1) (haversineTerm lat1 lon1 lat2 lon2)))
      (sqrt (toReal (Num.sub (Num.ofZ 1) (haversineTerm lat1 lon1 lat2 lon2))));
  atan2_c :
    accurate eps
      (Math_atan2 (Math_sqrt (haversineTerm lat1 lon1 lat2 lon2))
         (Math_sqrt (Num.sub (Num.ofZ 1) (haversineTerm lat1 lon1 lat2 lon2))))
      (atan2 (toReal (Math_sqrt (haversineTerm lat1 lon1 lat2 lon2)))
         (toReal (Math_sqrt (Num.sub (Num.ofZ 1) (haversineTerm lat1 lon1 lat2 lon2)))))
}.

End Calls.

(** ** Intervals *)

Section Intervals.

Local Open Scope R_scope.

Lemma Rabs_bounds a b : Rabs a <= b -> - b <= a <= b.
Proof. unfold Rabs. destruct (Rcase_abs a); lra. Qed.

Lemma accurate_bounds eps z w lo hi :
  accurate eps z w -> 0 <= eps <= 1 -> lo <= w <= hi -> 0 < lo ->
  Num.wellFormed z = true /\ finiteNumber z = true
  /\ lo * (1 - eps) <= toReal z <= hi * (1 + eps).
Proof.
  intros (V & F & E) Heps Hw Hlo. split; [exact V|]. split; [exact F|].
  rewrite (Rabs_pos_eq w) in E by lra.
  apply Rabs_bounds in E. nra.
Qed.

Lemma positiveNormal_bounds x lo hi :
  Num.wellFormed x = true -> finiteNumber x = true ->
  lo <= toReal x <= hi -> / 18446744073709551616 <= lo -> hi <= 18446744073709551616 ->
  positiveNormal x.
Proof.
  intros V F Hx Hlo Hhi. apply positiveNormal_intro; auto.
  change (2 ^ 64)%Z with 18446744073709551616%Z. lra.
Qed.

Lemma mul_bounds x y a b c d :
  positiveNormal x -> positiveNormal y ->
  a <= toReal x <= b -> c <= toReal y <= d -> 0 < a -> 0 < c ->
  Num.wellFormed (Num.mul x y) = true /\ finiteNumber (Num.mul x y) = true
  /\ a * c * (1 - / 4503599627370496) <= toReal (Num.mul x y)
     <= b * d * (1 + / 4503599627370496).
Proof.
  intros Px Py Hx Hy Ha Hc. destruct (mul_error x y Px Py) as (V & F & E).
  split; [exact V|]. split; [exact F|].
  change (2 ^ 52)%Z with 4503599627370496%Z in E.
  apply Rabs_bounds in E.
  assert (a * c <= toReal x * toReal y <= b * d) by (split; nra).
  nra.
Qed.

Lemma sqrt_bounds x lo hi :
  0 <= lo -> 0 <= hi -> lo * lo <= x <= hi * hi -> lo <= sqrt x <= hi.
Proof.
  intros Hlo Hhi [H1 H2]. split.
  - rewrite <- (sqrt_square lo Hlo). now apply sqrt_le_1_alt.
  - rewrite <- (sqrt_square hi Hhi). now apply sqrt_le_1_alt.
Qed.

(** The first terms of the series of the arc tangent. *)
Lemma atan_series_bounds t : 0 < t < 1 -> t - t ^ 3 / 3 <= atan t <= t.
Proof.
  intros Ht. rewrite (atan_eq_ps_atan t Ht). unfold ps_atan.
  destruct (Ratan.in_int t) as [Hin|Hout]; [|exfalso; apply Hout; lra].
  destruct (ps_atan_exists_1 t Hin) as [l Hl].
  pose proof (alternated_series_ineq (Ratan_seq t) l 0
                (Ratan_seq_decreasing t ltac:(lra))
                (Ratan_seq_converging t ltac:(lra)) Hl) as [H1 H2].
  simpl in H1, H2. unfold tg_alt, Ratan_seq in H1, H2. simpl in H1, H2.
  split; lra.
Qed.

Lemma atan_bounds t lo hi :
  lo <= t <= hi -> 0 < lo -> hi < 1 -> lo - lo ^ 3 / 3 <= atan t <= hi.
Proof.
  intros Ht Hlo Hhi.
  assert (H1 : atan lo <= atan t).
  { destruct (Req_dec lo t) as [->|Hne]; [lra|]. left. apply atan_increasing. lra. }
  assert (H2 : atan t <= atan hi).
  { destruct (Req_dec t hi) as [->|Hne]; [lra|]. left. apply atan_increasing. lra. }
  pose proof (atan_series_bounds lo ltac:(lra)). pose proof (atan_series_bounds hi ltac:(lra)).
  lra.
Qed.

(** The first terms of the series of the sine. *)
Lemma sin_series_bounds x :
  0 <= x <= 1 -> x - x ^ 3 / 6 <= sin x <= x - x ^ 3 / 6 + x ^ 5 / 120.
Proof.
  intros Hx. pose proof (pre_sin_bound x 0 ltac:(lra) ltac:(lra)) as [H1 H2].
  unfold sin_approx, sin_term in H1, H2. simpl in H1, H2.
  split; lra.
Qed.

Lemma atan2_right y x : 0 < x -> atan2 y x = atan (y / x).
Proof. intros Hx. unfold atan2. destruct (Rlt_dec 0 x); [reflexivity|contradiction]. Qed.

End Intervals.

Section OneDegree.

Local Open Scope R_scope.

Lemma div_bounds x y a b c d :
  a <= x <= b -> c <= y <= d -> 0 <= a -> 0 < c -> a / d <= x / y <= b / c.
Proof.
  intros Hx Hy Ha Hc. unfold Rdiv.
  assert (H1 : / d <= / y) by (apply Rinv_le_contravar; lra).
  assert (H2 : / y <= / c) by (apply Rinv_le_contravar; lra).
  assert (H3 : 0 < / d) by (apply Rinv_0_lt_compat; lra).
  split; nra.
Qed.

Lemma toReal_pzero : toReal (S754_zero false) = 0.
Proof. unfold toReal. simpl. lra. Qed.

Lemma toReal_two : toReal (Num.ofZ 2) = 2.
Proof. unfold toReal. vm_compute rational. lra. Qed.

Lemma toReal_radius : toReal (Num.ofZ 6371000) = 6371000.
Proof. unfold toReal. vm_compute rational. lra. Qed.

Lemma toReal_halfDegree :
  toReal (S754_finite false 5030569068109113 (-59))
  = 5030569068109113 / 576460752303423488.
Proof. unfold toReal. vm_compute rational. reflexivity. Qed.

Lemma positiveNormal_two : positiveNormal (Num.ofZ 2).
Proof.
  apply (positiveNormal_bounds _ 2 2); [reflexivity|reflexivity|rewrite toReal_two; lra|lra|lra].
Qed.

Lemma positiveNormal_radius : positiveNormal (Num.ofZ 6371000).
Proof.
  apply (positiveNormal_bounds _ 6371000 6371000);
    [reflexivity|reflexivity|rewrite toReal_radius; lra|lra|lra].
Qed.

Lemma add_pzero x : positiveNormal x -> Num.add (S754_zero false) x = x.
Proof. intros (m & e & -> & _). reflexivity. Qed.

Lemma accurate_zero `{Host} eps z :
  accurate eps z 0 -> Num.mul z z = S754_zero false.
Proof.
  intros (V & F & E). rewrite Rabs_R0, Rmult_0_r, Rminus_0_r in E.
  assert (E0 : toReal z = 0).
  { pose proof (Rabs_pos (toReal z)). apply Rabs_bounds in E. lra. }
  destruct (toReal_zero z V F E0) as [s ->]. destruct s; reflexivity.
Qed.

(** C7.  One degree of longitude on the equator: on binary64 numbers, for
    every host whose [Math] calls made for this pair of points each
    return a finite number within the relative error [2^-15] of the
    exact function at the argument of the call,
    [haversineDistanceMeters 0 0 0 1] is a finite number within 50 m of
    111195 m. *)
Theorem haversineDistanceMeters_one_degree `{Host} :
  AccurateCalls (/ 32768)%R (Num.ofZ 0) (Num.ofZ 0) (Num.ofZ 0) (Num.ofZ 1) ->
  Num.wellFormed
    (haversineDistanceMeters (Num.ofZ 0) (Num.ofZ 0) (Num.ofZ 0) (Num.ofZ 1)) = true
  /\ finiteNumber
       (haversineDistanceMeters (Num.ofZ 0) (Num.ofZ 0) (Num.ofZ 0) (Num.ofZ 1)) = true
  /\ (Rabs (toReal
              (haversineDistanceMeters (Num.ofZ 0) (Num.ofZ 0) (Num.ofZ 0) (Num.ofZ 1))
            - 111195) < 50)%R.
Proof.
  intros [A1 A2 A3 _ A5 A6 A7].
  rewrite haversineDistanceMeters_calls.
  assert (E0 : halfAngle (Num.ofZ 0) (Num.ofZ 0) = S754_zero false)
    by (vm_compute; reflexivity).
  assert (ER : toRadians (Num.ofZ 0) = S754_zero false) by (vm_compute; reflexivity).
  assert (Eh : halfAngle (Num.ofZ 0) (Num.ofZ 1)
               = S754_finite false 5030569068109113 (-59)) by (vm_compute; reflexivity).
  unfold haversineTerm in *.
  rewrite E0, ?ER, ?Eh in *.
  rewrite toReal_pzero in A1, A3. rewrite sin_0 in A1. rewrite cos_0 in A3.
  rewrite toReal_halfDegree in A2.
  rewrite (accurate_zero _ _ A1) in *.
  set (c := Math_cos (S754_zero false)) in *.
  set (s := Math_sin (S754_finite false 5030569068109113 (-59))) in *.
  set (p1 := Num.mul c c) in *.
  set (p2 := Num.mul p1 s) in *.
  set (p3 := Num.mul p2 s) in *.
  assert (Heps : 0 <= / 32768 <= 1) by lra.
  (* the cosine of the latitude *)
  destruct (accurate_bounds _ _ _ 1 1 A3 Heps ltac:(lra) ltac:(lra)) as (Vc & Fc & Bc).
  assert (Pc : positiveNormal c)
    by (apply (positiveNormal_bounds _ _ _ Vc Fc Bc); lra).
  (* the sine of half the difference of longitude *)
  assert (BS : 0.00872653549795
               <= sin (5030569068109113 / 576460752303423488)
               <= 0.00872653549838).
  { pose proof (sin_series_bounds (5030569068109113 / 576460752303423488) ltac:(lra))
      as [S1 S2].
    split; [eapply Rle_trans; [|exact S1]|eapply Rle_trans; [exact S2|]]; simpl; lra. }
  destruct (accurate_bounds _ _ _ _ _ A2 Heps BS ltac:(lra)) as (Vs & Fs & Bs).
  assert (Bs' : 0.00872626918522 <= toReal s <= 0.00872680181111) by lra.
  assert (Ps : positiveNormal s)
    by (apply (positiveNormal_bounds _ _ _ Vs Fs Bs'); lra).
  (* the products *)
  destruct (mul_bounds c c _ _ _ _ Pc Pc Bc Bc ltac:(lra) ltac:(lra)) as (V1 & F1 & B1).
  assert (B1' : 0.999938965775 <= toReal p1 <= 1.00006103609) by (fold p1 in B1; lra).
  assert (P1 : positiveNormal p1)
    by (apply (positiveNormal_bounds _ _ _ V1 F1 B1'); lra).
  destruct (mul_bounds p1 s _ _ _ _ P1 Ps B1' Bs' ltac:(lra) ltac:(lra)) as (V2 & F2 & B2).
  assert (B2' : 0.00872573658414 <= toReal p2 <= 0.00872733446098) by (fold p2 in B2; lra).
  assert (P2 : positiveNormal p2)
    by (apply (positiveNormal_bounds _ _ _ V2 F2 B2'); lra).
  destruct (mul_bounds p2 s _ _ _ _ P2 Ps B2' Bs' ltac:(lra) ltac:(lra)) as (V3 & F3 & B3).
  assert (B3' : 0.0000761431262725 <= toReal p3 <= 0.0000761617181803)
    by (fold p3 in B3; lra).
  assert (P3 : positiveNormal p3)
    by (apply (positiveNormal_bounds _ _ _ V3 F3 B3'); lra).
  rewrite (add_pzero p3 P3) in *.
  (* the square root of [a] *)
  set (q1 := Math_sqrt p3) in *.
  assert (Br : 0.00872600288061 <= sqrt (toReal p3) <= 0.00872706813199)
    by (apply sqrt_bounds; lra).
  destruct (accurate_bounds _ _ _ _ _ A5 Heps Br ltac:(lra)) as (Vq1 & Fq1 & Bq1).
  assert (Bq1' : 0.00872573658413 <= toReal q1 <= 0.00872733446098) by lra.
  (* [1 - a] and its square root *)
  destruct (sub_one_error p3 P3 ltac:(lra)) as (Vb & Fb & Eb).
  set (b := Num.sub (Num.ofZ 1) p3) in *.
  change (2 ^ 52)%Z with 4503599627370496%Z in Eb. apply Rabs_bounds in Eb.
  assert (Bb : 0.999923838281 <= toReal b <= 0.999923856874) by lra.
  set (q2 := Math_sqrt b) in *.
  assert (Bw : 0.999961918415 <= sqrt (toReal b) <= 0.999961927713)
    by (apply sqrt_bounds; lra).
  destruct (accurate_bounds _ _ _ _ _ A6 Heps Bw ltac:(lra)) as (Vq2 & Fq2 & Bq2).
  assert (Bq2' : 0.999931401999 <= toReal q2 <= 0.99999244413) by lra.
  (* the arc tangent *)
  rewrite atan2_right in A7 by lra.
  pose proof (div_bounds _ _ _ _ _ _ Bq1' Bq2' ltac:(lra) ltac:(lra)) as Bt.
  assert (Bt' : 0.00872580251515 <= toReal q1 / toReal q2 <= 0.00872793317975) by lra.
  pose proof (atan_bounds _ _ _ Bt' ltac:(lra) ltac:(lra)) as Ba.
  assert (Ba' : 0.00872558105535 <= atan (toReal q1 / toReal q2) <= 0.00872793317975)
    by (simpl in Ba; lra).
  set (theta := Math_atan2 q1 q2) in *.
  destruct (accurate_bounds _ _ _ _ _ A7 Heps Ba' ltac:(lra)) as (Vt & Ft & Bth).
  assert (Bth' : 0.00872531477174 <= toReal theta <= 0.00872819953514) by lra.
  assert (Pt : positiveNormal theta)
    by (apply (positiveNormal_bounds _ _ _ Vt Ft Bth'); lra).
  (* the two products of the result *)
  pose proof toReal_two as T2. pose proof toReal_radius as TR.
  destruct (mul_bounds (Num.ofZ 2) theta 2 2 _ _ positiveNormal_two Pt
              ltac:(lra) Bth' ltac:(lra) ltac:(lra)) as (Vc2 & Fc2 & Bc2).
  set (c2 := Num.mul (Num.ofZ 2) theta) in *.
  assert (Bc2' : 0.0174506295434 <= toReal c2 <= 0.0174563990703) by lra.
  assert (Pc2 : positiveNormal c2)
    by (apply (positiveNormal_bounds _ _ _ Vc2 Fc2 Bc2'); lra).
  destruct (mul_bounds (Num.ofZ 6371000) c2 6371000 6371000 _ _ positiveNormal_radius Pc2
              ltac:(lra) Bc2' ltac:(lra) ltac:(lra)) as (Vr & Fr & Brs).
  split; [exact Vr|]. split; [exact Fr|].
  apply Rabs_def1; lra.
Qed.

End OneDegree.

Section SampleCalls.

Local Open Scope R_scope.

Lemma accurate_intro eps (z : number) (w v lo hi : R) :
  Num.wellFormed z = true -> finiteNumber z = true -> toReal z = v ->
  lo <= w <= hi -> 0 <= lo -> 0 <= eps -> hi - v <= eps * lo -> v - lo <= eps * lo ->
  accurate eps z w.
Proof.
  intros V F E Hw Hlo He H1 H2. split; [exact V|]. split; [exact F|].
  rewrite E, (Rabs_pos_eq w) by lra.
  assert (0 <= eps * (w - lo)) by (apply Rmult_le_pos; lra).
  apply Rabs_le. lra.
Qed.

(** The calls of [sampleHost] for one degree of longitude on the equator:
    its sine and arc tangent are the first term of their series, accurate
    at half a degree; its cosine is exact at [0]; its square root is
    correctly rounded. *)
Lemma sampleHost_calls :
  @AccurateCalls sampleHost (/ 32768) (Num.ofZ 0) (Num.ofZ 0) (Num.ofZ 0) (Num.ofZ 1).
Proof.
  assert (E0 : @halfAngle sampleHost (Num.ofZ 0) (Num.ofZ 0) = S754_zero false)
    by (vm_compute; reflexivity).
  assert (ER : toRadians (H := @hostArith sampleHost) (Num.ofZ 0) = S754_zero false)
    by (vm_compute; reflexivity).
  assert (Eh : @halfAngle sampleHost (Num.ofZ 0) (Num.ofZ 1)
               = S754_finite false 5030569068109113 (-59)) by (vm_compute; reflexivity).
  assert (Ea : @haversineTerm sampleHost (Num.ofZ 0) (Num.ofZ 0) (Num.ofZ 0) (Num.ofZ 1)
               = S754_finite false 5619199583199161 (-66)) by (vm_compute; reflexivity).
  assert (Ta : toReal (S754_finite false 5619199583199161 (-66))
               = 5619199583199161 / 73786976294838206464)
    by (unfold toReal; vm_compute rational; reflexivity).
  assert (Tb : toReal (S754_finite false 9006513317291871 (-53))
               = 9006513317291871 / 9007199254740992)
    by (unfold toReal; vm_compute rational; reflexivity).
  assert (Tq : toReal (S754_finite false 9006856279486542 (-53))
               = 9006856279486542 / 9007199254740992)
    by (unfold toReal; vm_compute rational; reflexivity).
  assert (Tt : toReal (S754_finite false 5030760628921523 (-59))
               = 5030760628921523 / 576460752303423488)
    by (unfold toReal; vm_compute rational; reflexivity).
  constructor; rewrite ?E0, ?ER, ?Eh, ?Ea.
  - (* sin 0 *)
    change (@Math_sin sampleHost (S754_zero false)) with (S754_zero false).
    rewrite toReal_pzero, sin_0.
    apply (accurate_intro _ _ _ 0 0 0); [reflexivity|reflexivity|exact toReal_pzero|lra..].
  - (* the sine of half a degree *)
    change (@Math_sin sampleHost (S754_finite false 5030569068109113 (-59)))
      with (S754_finite false 5030569068109113 (-59)).
    rewrite toReal_halfDegree.
    pose proof (sin_series_bounds (5030569068109113 / 576460752303423488) ltac:(lra))
      as [S1 S2].
    eapply (accurate_intro _ _ _ _ 0.00872653549795 0.00872653549838);
      [reflexivity|reflexivity|exact toReal_halfDegree| |lra..].
    split; [eapply Rle_trans; [|exact S1]|eapply Rle_trans; [exact S2|]]; simpl; lra.
  - (* cos 0, twice *)
    change (@Math_cos sampleHost (S754_zero false)) with (Num.ofZ 1).
    rewrite toReal_pzero, cos_0.
    apply (accurate_intro _ _ _ 1 1 1); [reflexivity|reflexivity| |lra..].
    unfold toReal. vm_compute rational. lra.
  - change (@Math_cos sampleHost (S754_zero false)) with (Num.ofZ 1).
    rewrite toReal_pzero, cos_0.
    apply (accurate_intro _ _ _ 1 1 1); [reflexivity|reflexivity| |lra..].
    unfold toReal. vm_compute rational. lra.
  - (* the square root of [a] *)
    replace (@Math_sqrt sampleHost (S754_finite false 5619199583199161 (-66)))
      with (S754_finite false 5030569068109113 (-59)) by (vm_compute; reflexivity).
    rewrite Ta.
    eapply (accurate_intro _ _ _ _
             (5030569068109113 / 576460752303423488 * (1 - / 1000000000))
             (5030569068109113 / 576460752303423488 * (1 + / 1000000000)));
      [reflexivity|reflexivity|exact toReal_halfDegree| |lra..].
    apply sqrt_bounds; lra.
  - (* the square root of [1 - a] *)
    replace (Num.sub (Num.ofZ 1) (S754_finite false 5619199583199161 (-66)))
      with (S754_finite false 9006513317291871 (-53)) by (vm_compute; reflexivity).
    replace (@Math_sqrt sampleHost (S754_finite false 9006513317291871 (-53)))
      with (S754_finite false 9006856279486542 (-53)) by (vm_compute; reflexivity).
    rewrite Tb.
    eapply (accurate_intro _ _ _ _
             (9006856279486542 / 9007199254740992 * (1 - / 1000000000))
             (9006856279486542 / 9007199254740992 * (1 + / 1000000000)));
      [reflexivity|reflexivity|exact Tq| |lra..].
    apply sqrt_bounds; lra.
  - (* the arc tangent *)
    replace (Num.sub (Num.ofZ 1) (S754_finite false 5619199583199161 (-66)))
      with (S754_finite false 9006513317291871 (-53)) by (vm_compute; reflexivity).
    replace (@Math_sqrt sampleHost (S754_finite false 9006513317291871 (-53)))
      with (S754_finite false 9006856279486542 (-53)) by (vm_compute; reflexivity).
    replace (@Math_sqrt sampleHost (S754_finite false 5619199583199161 (-66)))
      with (S754_finite false 5030569068109113 (-59)) by (vm_compute; reflexivity).
    replace (@Math_atan2 sampleHost (S754_finite false 5030569068109113 (-59))
               (S754_finite false 9006856279486542 (-53)))
      with (S754_finite false 5030760628921523 (-59)) by (vm_compute; reflexivity).
    rewrite toReal_halfDegree, Tq, atan2_right by lra.
    assert (Bt : 0.008726978565
                 <= 5030569068109113 / 576460752303423488
                    / (9006856279486542 / 9007199254740992)
                 <= 0.008726978566).
    { pose proof (div_bounds (5030569068109113 / 576460752303423488)
                    (9006856279486542 / 9007199254740992)
                    (5030569068109113 / 576460752303423488)
                    (5030569068109113 / 576460752303423488)
                    (9006856279486542 / 9007199254740992)
                    (9006856279486542 / 9007199254740992)
                    ltac:(lra) ltac:(lra) ltac:(lra) ltac:(lra)) as Hd.
      unfold Rdiv in Hd |- *. rewrite Rinv_mult, Rinv_inv in Hd |- *. lra. }
    pose proof (atan_bounds _ _ _ Bt ltac:(lra) ltac:(lra)) as Ba. simpl in Ba.
    eapply (accurate_intro _ _ _ _ 0.008726757 0.008726978566);
      [reflexivity|reflexivity|exact Tt|lra..].
Qed.

End SampleCalls.

Lemma haversineDistanceMeters_one_degree_witness :
  @AccurateCalls sampleHost (/ 32768)%R (Num.ofZ 0) (Num.ofZ 0) (Num.ofZ 0) (Num.ofZ 1)
  /\ Num.wellFormed
       (haversineDistanceMeters (H := @hostArith sampleHost)
          (Num.ofZ 0) (Num.ofZ 0) (Num.ofZ 0) (Num.ofZ 1)) = true
  /\ finiteNumber
       (haversineDistanceMeters (H := @hostArith sampleHost)
          (Num.ofZ 0) (Num.ofZ 0) (Num.ofZ 0) (Num.ofZ 1)) = true
  /\ (Rabs (toReal
              (haversineDistanceMeters (H := @hostArith sampleHost)
                 (Num.ofZ 0) (Num.ofZ 0) (Num.ofZ 0) (Num.ofZ 1))
            - 111195) < 50)%R.
Proof.
  split; [exact sampleHost_calls|].
  exact (@haversineDistanceMeters_one_degree sampleHost sampleHost_calls).
Defined.

(** * Part VII.  The [App] component

    The component is modelled as a transition system.  A state of the world
    is the React state of the component together with what the browser has
    been asked and has not answered yet.  An event is a user action on a
    control that is displayed and enabled, or the completion of an
    asynchronous request.  A transition runs the handler of the event and
    then the effects whose dependencies the handler has set. *)

Module Coordinate.
Record t : Type := mk { lat : number; lon : number }.
End Coordinate.

Definition RADIUS_METERS : number := Num.ofZ 2000.

(** The state variables of [App] ([useState]). *)
Record AppState : Type := mkApp {
  userLocation : option Coordinate.t;
  stations : list Station.t;
  loading : bool;
  error : option string;
  selectedStationId : option Z;
  routeCoords : option (list (option number * option number));
  geoError : option string;
  isLocating : bool;
  showManualLocation : bool;
  manualLocation : string * string
}.

Definition setUserLocation (v : option Coordinate.t) (s : AppState) : AppState :=
  mkApp v (stations s) (loading s) (error s) (selectedStationId s) (routeCoords s)
    (geoError s) (isLocating s) (showManualLocation s) (manualLocation s).
Definition setStations (v : list Station.t) (s : AppState) : AppState :=
  mkApp (userLocation s) v (loading s) (error s) (selectedStationId s) (routeCoords s)
    (geoError s) (isLocating s) (showManualLocation s) (manualLocation s).
Definition setLoading (v : bool) (s : AppState) : AppState :=
  mkApp (userLocation s) (stations s) v (error s) (selectedStationId s) (routeCoords s)
    (geoError s) (isLocating s) (showManualLocation s) (manualLocation s).
Definition setError (v : option string) (s : AppState) : AppState :=
  mkApp (userLocation s) (stations s) (loading s) v (selectedStationId s) (routeCoords s)
    (geoError s) (isLocating s) (showManualLocation s) (manualLocation s).
Definition setSelectedStationId (v : option Z) (s : AppState) : AppState :=
  mkApp (userLocation s) (stations s) (loading s) (error s) v (routeCoords s)
    (geoError s) (isLocating s) (showManualLocation s) (manualLocation s).
Definition setRouteCoords (v : option (list (option number * option number)))
  (s : AppState) : AppState :=
  mkApp (userLocation s) (stations s) (loading s) (error s) (selectedStationId s) v
    (geoError s) (isLocating s) (showManualLocation s) (manualLocation s).
Definition setGeoError (v : option string) (s : AppState) : AppState :=
  mkApp (userLocation s) (stations s) (loading s) (error s) (selectedStationId s)
    (routeCoords s) v (isLocating s) (showManualLocation s) (manualLocation s).
Definition setIsLocating (v : bool) (s : AppState) : AppState :=
  mkApp (userLocation s) (stations s) (loading s) (error s) (selectedStationId s)
    (routeCoords s) (geoError s) v (showManualLocation s) (manualLocation s).
Definition setShowManualLocation (v : bool) (s : AppState) : AppState :=
  mkApp (userLocation s) (stations s) (loading s) (error s) (selectedStationId s)
    (routeCoords s) (geoError s) (isLocating s) v (manualLocation s).
Definition setManualLocation (v : string * string) (s : AppState) : AppState :=
  mkApp (userLocation s) (stations s) (loading s) (error s) (selectedStationId s)
    (routeCoords s) (geoError s) (isLocating s) (showManualLocation s) v.

(** The world: the component, the calls of [getCurrentPosition] that have
    not called back, the calls of [load] that await [fetchStations] (each
    with the [userLocation] its closure captured), and the alerts shown. *)
Record World : Type := mkWorld {
  app : AppState;
  geoRequests : nat;
  fetches : list Coordinate.t;
  alerts : list string
}.

Definition onApp (f : AppState -> AppState) (w : World) : World :=
  mkWorld (f (app w)) (geoRequests w) (fetches w) (alerts w).

Inductive Event : Type :=
  | TryAgain
  | LocateMe
  | EnterManually
  | TypeLatitude (text : string)
  | TypeLongitude (text : string)
  | FindStations
  | Cancel
  | PositionSuccess (latitude longitude : number)
  | PositionError (code : Z)
  | FetchSettled (i : nat) (reply : Outcome Response.t)
  | SelectStation (id : Z).

Section Component.

Context `{Host}.

(** ** Handlers *)

Definition getCurrentLocation (w : World) : World :=
  if negb geolocationSupported then
    onApp (fun s => setLoading false
                      (setGeoError (Some "Geolocation is not supported by your browser.") s)) w
  else
    mkWorld (setGeoError None (setIsLocating true (app w)))
      (S (geoRequests w)) (fetches w) (alerts w).

(** The success callback of [getCurrentPosition]. *)
Definition positionSuccess (latitude longitude : number) (s : AppState) : AppState :=
  let current := Coordinate.mk latitude longitude in
  setIsLocating false (setGeoError None (setUserLocation (Some current) s)).

(** The error callback of [getCurrentPosition]. *)
Definition positionError (code : Z) (s : AppState) : AppState :=
  let errorMsg :=
    if code =? 1 then "Location access denied. Please allow location permission and try again."
    else if code =? 2 then "Location unavailable. Please check your GPS/network connection."
    else if code =? 3 then "Location request timed out. Please try again."
    else "Unable to retrieve your location." in
  setIsLocating false (setLoading false (setGeoError (Some errorMsg) s)).

(** The test of [setManualLocationAndFetch] on the parsed coordinates. *)
Definition invalidCoordinates (lat lon : number) : bool :=
  Num.isNaN lat || Num.isNaN lon
  || Num.lt lat (SFopp (Num.ofZ 90)) || Num.gt lat (Num.ofZ 90)
  || Num.lt lon (SFopp (Num.ofZ 180)) || Num.gt lon (Num.ofZ 180).

Definition validationMessage : string :=
  "Please enter valid coordinates (Lat: -90 to 90, Lon: -180 to 180)".

(** [setManualLocationAndFetch]: the new state, and whether
    [setUserLocation] was called. *)
Definition setManualLocationAndFetch (w : World) : World * bool :=
  let lat := parseFloat (fst (manualLocation (app w))) in
  let lon := parseFloat (snd (manualLocation (app w))) in
  if invalidCoordinates lat lon then
    (mkWorld (app w) (geoRequests w) (fetches w) (alerts w ++ [validationMessage]), false)
  else
    let current := Coordinate.mk lat lon in
    (onApp (fun s => setGeoError None
                       (setShowManualLocation false (setUserLocation (Some current) s))) w,
     true).

(** ** Effects *)

(** The effect on [[userLocation]]: [load ()] up to its [await]. *)
Definition loadEffect (w : World) : World :=
  match userLocation (app w) with
  | None => w
  | Some current =>
      mkWorld (setLoading true (app w)) (geoRequests w) (fetches w ++ [current]) (alerts w)
  end.

(** [ToNumber] of a property that may be [undefined]. *)
Definition toNumber (v : option number) : number := v ?? Num.NaN.

Definition withDistance (current : Coordinate.t) (s : Station.t) : Station.t :=
  Station.mk (Station.id s) (Station.name s) (Station.brand s) (Station.address s)
    (Station.lat s) (Station.lon s)
    (Some (haversineDistanceMeters (Coordinate.lat current) (Coordinate.lon current)
             (toNumber (Station.lat s)) (toNumber (Station.lon s)))).

(** [load ()] from its [await] on, for the closure that captured [current]. *)
Definition loadSettled (current : Coordinate.t) (reply : Outcome Response.t)
  (s : AppState) : AppState * bool :=
  match fetchStations (Coordinate.lat current) (Coordinate.lon current) RADIUS_METERS reply with
  | Returned rawStations =>
      let withDistances := map (withDistance current) rawStations in
      (setLoading false (setError None (setStations (sortStationsByDistance withDistances) s)),
       true)
  | Thrown _ =>
      (setLoading false
         (setError (Some "Failed to load nearby petrol stations. Please try again later.") s),
       false)
  end.

(** The effect on [[stations, userLocation]]: the line from the user to the
    nearest station. *)
Definition routeEffect (s : AppState) : AppState :=
  match userLocation s with
  | None => setRouteCoords None s
  | Some u =>
      if (length (stations s) =? 0)%nat then setRouteCoords None s
      else
        match stations s !! 0%nat with
        | Some nearest =>
            setRouteCoords
              (Some [(Some (Coordinate.lat u), Some (Coordinate.lon u));
                     (Station.lat nearest, Station.lon nearest)]) s
        | None => s
        end
  end.

(** The effects that run after [userLocation] has been set. *)
Definition afterUserLocation (w : World) : World :=
  onApp routeEffect (loadEffect w).

(** ** Transitions *)

Definition initialState : AppState :=
  mkApp None [] true None None None None false false ("", "").

(** The world once the component is mounted and its effects have run. *)
Definition mounted : World :=
  onApp routeEffect
    (loadEffect
       (getCurrentLocation (onApp (setLoading true) (mkWorld initialState 0 [] [])))).

Definition isSome {A : Type} (v : option A) : bool :=
  match v with Some _ => true | None => false end.

Definition remove_nth {A : Type} (i : nat) (l : list A) : list A :=
  take i l ++ drop (S i) l.

Definition step (e : Event) (w : World) : option World :=
  let s := app w in
  match e with
  | TryAgain =>
      if isSome (geoError s) && negb (loading s) && negb (isLocating s)
      then Some (getCurrentLocation w) else None
  | LocateMe =>
      if negb (isLocating s) then Some (getCurrentLocation w) else None
  | EnterManually =>
      if isSome (geoError s) && negb (loading s)
      then Some (onApp (setShowManualLocation true) w) else None
  | TypeLatitude text =>
      if showManualLocation s
      then Some (onApp (setManualLocation (text, snd (manualLocation s))) w) else None
  | TypeLongitude text =>
      if showManualLocation s
      then Some (onApp (setManualLocation (fst (manualLocation s), text)) w) else None
  | FindStations =>
      if showManualLocation s then
        let '(w', changed) := setManualLocationAndFetch w in
        Some (if changed then afterUserLocation w' else w')
      else None
  | Cancel =>
      if showManualLocation s
      then Some (onApp (setShowManualLocation false) w) else None
  | PositionSuccess latitude longitude =>
      match geoRequests w with
      | O => None
      | S pending =>
          Some (afterUserLocation
                  (mkWorld (positionSuccess latitude longitude s) pending
                     (fetches w) (alerts w)))
      end
  | PositionError code =>
      match geoRequests w with
      | O => None
      | S pending =>
          Some (mkWorld (positionError code s) pending (fetches w) (alerts w))
      end
  | FetchSettled i reply =>
      match fetches w !! i with
      | None => None
      | Some current =>
          let '(s', changed) := loadSettled current reply s in
          Some (mkWorld (if changed then routeEffect s' else s') (geoRequests w)
                  (remove_nth i (fetches w)) (alerts w))
      end
  | SelectStation id =>
      if existsb (fun st => Station.id st =? id) (stations s)
      then Some (onApp (setSelectedStationId (Some id)) w) else None
  end.

Fixpoint run (events : list Event) (w : World) : option World :=
  match events with
  | [] => Some w
  | e :: rest =>
      match step e w with
      | Some w' => run rest w'
      | None => None
      end
  end.

(** The overlay that the specification describes. *)
Definition routeOverlay (userCoordinate : option Coordinate.t) (ranking : list Station.t)
  : option (list (option number * option number)) :=
  match userCoordinate, ranking with
  | Some u, nearestStation :: _ =>
      Some [(Some (Coordinate.lat u), Some (Coordinate.lon u));
            (Station.lat nearestStation, Station.lon nearestStation)]
  | _, _ => None
  end.

End Component.

(** ** Properties of the component *)

Section ComponentFacts.

Context `{Host}.

(** *** The route overlay *)

Definition RouteOK (w : World) : Prop :=
  routeCoords (app w) = routeOverlay (userLocation (app w)) (stations (app w)).

Lemma routeEffect_spec s :
  routeCoords (routeEffect s) = routeOverlay (userLocation s) (stations s)
  /\ userLocation (routeEffect s) = userLocation s
  /\ stations (routeEffect s) = stations s.
Proof.
  unfold routeEffect, routeOverlay.
  destruct (userLocation s) as [u|] eqn:Hu; [|simpl; rewrite Hu; auto].
  destruct (stations s) as [|nearest rest] eqn:Hs; simpl; rewrite ?Hu, ?Hs; auto.
Qed.

Lemma routeEffect_ok w : RouteOK (onApp routeEffect w).
Proof.
  unfold RouteOK. simpl.
  destruct (routeEffect_spec (app w)) as (-> & -> & ->). reflexivity.
Qed.

Lemma afterUserLocation_ok w : RouteOK (afterUserLocation w).
Proof. apply routeEffect_ok. Qed.

Lemma getCurrentLocation_route w : RouteOK w -> RouteOK (getCurrentLocation w).
Proof.
  unfold RouteOK, getCurrentLocation. destruct geolocationSupported; simpl; auto.
Qed.

Lemma mounted_route : RouteOK mounted.
Proof. apply routeEffect_ok. Qed.

Lemma step_route e w w' : RouteOK w -> step e w = Some w' -> RouteOK w'.
Proof.
  intros Hw. unfold step.
  destruct e as [ | | |text|text| | |latitude longitude|code|i reply|id].
  - destruct (_ && _); intros [= <-]. now apply getCurrentLocation_route.
  - destruct (negb _); intros [= <-]. now apply getCurrentLocation_route.
  - destruct (_ && _); intros [= <-]. exact Hw.
  - destruct (showManualLocation _); intros [= <-]. exact Hw.
  - destruct (showManualLocation _); intros [= <-]. exact Hw.
  - destruct (showManualLocation _); [|discriminate].
    unfold setManualLocationAndFetch.
    destruct (invalidCoordinates _ _); intros [= <-];
      [exact Hw|apply afterUserLocation_ok].
  - destruct (showManualLocation _); intros [= <-]. exact Hw.
  - destruct (geoRequests w); intros [= <-]. apply afterUserLocation_ok.
  - destruct (geoRequests w); intros [= <-]. exact Hw.
  - destruct (fetches w !! i) as [current|]; [|discriminate].
    unfold loadSettled. destruct (fetchStations _ _ _ _); intros [= <-].
    + unfold RouteOK. simpl.
      match goal with |- context [routeEffect ?s] =>
        destruct (routeEffect_spec s) as (-> & -> & ->) end.
      reflexivity.
    + exact Hw.
  - destruct (existsb _ _); intros [= <-]. exact Hw.
Qed.

Lemma run_route events : forall w w',
  RouteOK w -> run events w = Some w' -> RouteOK w'.
Proof.
  induction events as [|e events IH]; simpl; intros w w' Hw.
  - intros [= <-]. exact Hw.
  - destruct (step e w) as [w1|] eqn:Hstep; [|discriminate].
    apply IH. eapply step_route; eauto.
Qed.

(** *** Device requests in flight *)

Definition OneRequest (w : World) : Prop :=
  geoRequests w = if isLocating (app w) then 1%nat else 0%nat.

Lemma getCurrentLocation_one w :
  isLocating (app w) = false -> OneRequest w -> OneRequest (getCurrentLocation w).
Proof.
  unfold OneRequest, getCurrentLocation. intros Hl Hw. rewrite Hl in Hw.
  destruct geolocationSupported; simpl; [now rewrite Hw|now rewrite Hl].
Qed.

Lemma routeEffect_isLocating s : isLocating (routeEffect s) = isLocating s.
Proof.
  unfold routeEffect. destruct (userLocation s); [|reflexivity].
  destruct (_ =? _)%nat; [reflexivity|]. destruct (stations s !! 0%nat); reflexivity.
Qed.

Lemma afterUserLocation_one w : OneRequest w -> OneRequest (afterUserLocation w).
Proof.
  unfold OneRequest, afterUserLocation, loadEffect. intros Hw.
  destruct (userLocation (app w)); simpl; rewrite routeEffect_isLocating; exact Hw.
Qed.

Lemma mounted_one : OneRequest mounted.
Proof.
  unfold mounted. apply afterUserLocation_one.
  apply getCurrentLocation_one; reflexivity.
Qed.

Lemma step_one e w w' : OneRequest w -> step e w = Some w' -> OneRequest w'.
Proof.
  intros Hw. unfold step.
  destruct e as [ | | |text|text| | |latitude longitude|code|i reply|id].
  - destruct (isLocating (app w)) eqn:Hl; rewrite ?andb_false_r; [discriminate|].
    destruct (_ && _); intros [= <-]. now apply getCurrentLocation_one.
  - destruct (isLocating (app w)) eqn:Hl; [discriminate|].
    intros [= <-]. now apply getCurrentLocation_one.
  - destruct (_ && _); intros [= <-]. exact Hw.
  - destruct (showManualLocation _); intros [= <-]. exact Hw.
  - destruct (showManualLocation _); intros [= <-]. exact Hw.
  - destruct (showManualLocation _); [|discriminate].
    unfold setManualLocationAndFetch.
    destruct (invalidCoordinates _ _); intros [= <-];
      [exact Hw|apply afterUserLocation_one; exact Hw].
  - destruct (showManualLocation _); intros [= <-]. exact Hw.
  - unfold OneRequest in Hw.
    destruct (geoRequests w) as [|pending] eqn:Hp; intros [= <-].
    apply afterUserLocation_one. unfold OneRequest. simpl.
    destruct (isLocating (app w)); congruence.
  - unfold OneRequest in Hw.
    destruct (geoRequests w) as [|pending] eqn:Hp; intros [= <-].
    unfold OneRequest. simpl. destruct (isLocating (app w)); congruence.
  - destruct (fetches w !! i) as [current|]; [|discriminate].
    unfold loadSettled. destruct (fetchStations _ _ _ _); intros [= <-];
      unfold OneRequest; simpl; rewrite ?routeEffect_isLocating; exact Hw.
  - destruct (existsb _ _); intros [= <-]. exact Hw.
Qed.

Lemma run_one events : forall w w',
  OneRequest w -> run events w = Some w' -> OneRequest w'.
Proof.
  induction events as [|e events IH]; simpl; intros w w' Hw.
  - intros [= <-]. exact Hw.
  - destruct (step e w) as [w1|] eqn:Hstep; [|discriminate].
    apply IH. eapply step_one; eauto.
Qed.

End ComponentFacts.

(** ** The claims about the component *)

(** Traces used as examples, on [sampleHost]: the first request times out,
    the user opens the manual form, asks again for the device position,
    then types and submits 10 and 20 while that request is in flight. *)
Definition manualWhileLocating : list Event :=
  [PositionError 3; EnterManually; TryAgain;
   TypeLatitude "10"; TypeLongitude "20"; FindStations].

(** The user types a latitude of 200 in the manual form. *)
Definition typingLatitude200 : list Event :=
  [PositionError 3; EnterManually; TypeLatitude "200"; TypeLongitude "20"].

(** A position is delivered and the stations around it are fetched. *)
Definition locatedAndFetched : list Event :=
  [PositionSuccess (Num.ofZ 12) (Num.ofZ 77);
   FetchSettled 0 (success (Some [sampleNode; bareNode]))].

(** C4.  When the manual form is submitted with a latitude that is not a
    number or lies outside [-90, 90], or a longitude that is not a number
    or lies outside [-180, 180] (as [parseFloat] reads them), the
    submission is rejected with the validation alert: the state of the
    component is unchanged (the user location is not updated and the form
    stays open), and no fetch is started.  A latitude of 200 is such a
    latitude. *)
Theorem manual_submission_rejected `{Host} (w : World) :
  showManualLocation (app w) = true ->
  let lat := parseFloat (fst (manualLocation (app w))) in
  let lon := parseFloat (snd (manualLocation (app w))) in
  (Num.isNaN lat = true \/ Num.lt lat (SFopp (Num.ofZ 90)) = true
   \/ Num.gt lat (Num.ofZ 90) = true
   \/ Num.isNaN lon = true \/ Num.lt lon (SFopp (Num.ofZ 180)) = true
   \/ Num.gt lon (Num.ofZ 180) = true) ->
  (exists w', step FindStations w = Some w'
     /\ app w' = app w
     /\ userLocation (app w') = userLocation (app w)
     /\ showManualLocation (app w') = true
     /\ fetches w' = fetches w
     /\ geoRequests w' = geoRequests w
     /\ alerts w' = alerts w ++ [validationMessage])
  /\ Num.gt (Num.ofZ 200) (Num.ofZ 90) = true.
Proof.
  intros Hshow lat lon Hbad. split; [|reflexivity].
  assert (Hinv : invalidCoordinates lat lon = true).
  { unfold invalidCoordinates.
    destruct Hbad as [-> | [-> | [-> | [-> | [-> | ->]]]]];
      rewrite ?orb_true_r; reflexivity. }
  unfold step. rewrite Hshow. unfold setManualLocationAndFetch.
  fold lat lon. rewrite Hinv.
  eexists. split; [reflexivity|]. simpl. repeat split; auto.
Qed.

Lemma manual_submission_rejected_witness :
  exists w,
    run (H := sampleHost) typingLatitude200 (mounted (H := sampleHost)) = Some w
    /\ showManualLocation (app w) = true
    /\ parseFloat (Host := sampleHost) (fst (manualLocation (app w))) = Num.ofZ 200
    /\ exists w', step (H := sampleHost) FindStations w = Some w'
         /\ app w' = app w
         /\ fetches w' = fetches w.
Proof.
  eexists. split; [vm_compute; reflexivity|].
  split; [reflexivity|]. split; [reflexivity|].
  match goal with |- exists w', step _ ?w = _ /\ _ =>
    destruct (proj1 (manual_submission_rejected (H := sampleHost) w eq_refl
                       (or_intror (or_intror (or_introl eq_refl)))))
      as (w' & Hstep & Happ & _ & _ & Hfetch & _)
  end.
  exists w'. auto.
Defined.

(** C5, as amended.  The component keeps no generation of its requests and
    discards no response.  In every state it can reach, at most one device
    request is in flight (the locate buttons are disabled while
    [isLocating]); and whenever a request is in flight, its success
    response, when it arrives, is accepted and sets the user location to
    the delivered coordinate, whatever happened since the request was
    issued. *)
Theorem device_response_never_discarded `{Host} (events : list Event) (w : World)
  (latitude longitude : number) :
  run events mounted = Some w ->
  (geoRequests w <= 1)%nat
  /\ ((0 < geoRequests w)%nat ->
      exists w', step (PositionSuccess latitude longitude) w = Some w'
        /\ userLocation (app w') = Some (Coordinate.mk latitude longitude)
        /\ geoRequests w' = 0%nat).
Proof.
  intros Hrun. pose proof (run_one events _ _ mounted_one Hrun) as Hone.
  unfold OneRequest in Hone. split.
  - rewrite Hone. destruct (isLocating (app w)); lia.
  - intros Hpos. unfold step. destruct (geoRequests w) as [|pending]; [lia|].
    eexists. split; [reflexivity|].
    assert (pending = 0%nat) by (destruct (isLocating (app w)); lia). subst pending.
    split; [|reflexivity].
    unfold afterUserLocation. simpl.
    match goal with |- context [routeEffect ?s] =>
      destruct (routeEffect_spec s) as (_ & -> & _) end.
    reflexivity.
Qed.

Lemma device_response_never_discarded_witness :
  exists w,
    run (H := sampleHost) manualWhileLocating (mounted (H := sampleHost)) = Some w
    /\ (geoRequests w <= 1)%nat
    /\ (0 < geoRequests w)%nat
    /\ exists w', step (H := sampleHost) (PositionSuccess (Num.ofZ 1) (Num.ofZ 2)) w = Some w'
         /\ userLocation (app w') = Some (Coordinate.mk (Num.ofZ 1) (Num.ofZ 2))
         /\ geoRequests w' = 0%nat.
Proof.
  eexists. split; [vm_compute; reflexivity|].
  match goal with |- (geoRequests ?w <= 1)%nat /\ _ =>
    pose proof (device_response_never_discarded (H := sampleHost) manualWhileLocating w
                  (Num.ofZ 1) (Num.ofZ 2) ltac:(vm_compute; reflexivity)) as [Hle Hacc]
  end.
  split; [exact Hle|]. split; [simpl; lia|]. apply Hacc. simpl. lia.
Defined.

(** C5, as stated, fails: while a device request is in flight the user
    submits the coordinate (10, 20) by hand, which becomes the user
    location; the response of the older device request then arrives and
    overwrites it with (1, 2). *)
Lemma superseded_response_overwrites :
  exists w1 w2,
    run (H := sampleHost) manualWhileLocating (mounted (H := sampleHost)) = Some w1
    /\ userLocation (app w1) = Some (Coordinate.mk (Num.ofZ 10) (Num.ofZ 20))
    /\ geoRequests w1 = 1%nat
    /\ step (H := sampleHost) (PositionSuccess (Num.ofZ 1) (Num.ofZ 2)) w1 = Some w2
    /\ userLocation (app w2) = Some (Coordinate.mk (Num.ofZ 1) (Num.ofZ 2))
    /\ userLocation (app w2) <> userLocation (app w1).
Proof.
  eexists _, _. split; [vm_compute; reflexivity|].
  split; [reflexivity|]. split; [reflexivity|].
  split; [vm_compute; reflexivity|]. split; [reflexivity|].
  vm_compute. discriminate.
Qed.

(** C8.  In every state the component can reach, the route overlay is the
    two-point path from the user coordinate to the coordinate of the
    station at index 0 of the ranking when the user coordinate is resolved
    and the ranking is not empty, and is none otherwise; the effect that
    computes it runs after every transition that sets the coordinate or the
    ranking. *)
Theorem routeCoords_follows_state `{Host} (events : list Event) (w : World) :
  run events mounted = Some w ->
  routeCoords (app w)
  = match userLocation (app w), stations (app w) with
    | Some userCoordinate, nearestStation :: _ =>
        Some [(Some (Coordinate.lat userCoordinate), Some (Coordinate.lon userCoordinate));
              (Station.lat nearestStation, Station.lon nearestStation)]
    | _, _ => None
    end.
Proof.
  intros Hrun. exact (run_route events _ _ mounted_route Hrun).
Qed.

Lemma routeCoords_follows_state_witness :
  exists w,
    run (H := sampleHost) locatedAndFetched (mounted (H := sampleHost)) = Some w
    /\ length (stations (app w)) = 2%nat
    /\ routeCoords (app w)
       = Some [(Some (Num.ofZ 12), Some (Num.ofZ 77)); (Some (Num.ofZ 12), Some (Num.ofZ 77))].
Proof.
  eexists. split; [vm_compute; reflexivity|]. split; [reflexivity|].
  match goal with |- routeCoords (app ?w) = _ =>
    rewrite (routeCoords_follows_state (H := sampleHost) locatedAndFetched w
               ltac:(vm_compute; reflexivity))
  end.
  reflexivity.
Defined.

(** * Part VIII.  Geodesy, continued

    [toRadians], and coordinates that are not numbers, on binary64
    numbers. *)

(** ** [toRadians] on binary64 numbers *)

(** [toRadians] commutes with the change of sign, keeps the zeros, the
    infinities and [NaN], whatever the host. *)
Theorem toRadians_odd `{Host} (x : number) :
  toRadians (SFopp x) = SFopp (toRadians x)
  /\ toRadians Num.NaN = Num.NaN
  /\ (forall s, toRadians (S754_zero s) = S754_zero s)
  /\ (forall s, toRadians (S754_infinity s) = S754_infinity s).
Proof.
  unfold toRadians. cbn [mul div ofInteger pi hostArith]. unfold Num.mul, Num.div.
  split; [now rewrite SFmul_opp_l, SFdiv_opp_l|].
  split; [reflexivity|]. split; intros []; reflexivity.
Qed.

(** The conversion to radians of a number of magnitude at most 360, as the
    differences of two latitudes or of two longitudes are, does not
    overflow. *)
Theorem toRadians_finite_turn `{Host} (x : number) :
  Num.numeric x = true -> Num.le (SFabs x) (Num.ofZ 360) = true ->
  finiteNumber (toRadians x) = true.
Proof.
  intros Hn Hle. unfold toRadians. cbn [mul div ofInteger pi hostArith].
  assert (Hx : finiteBelow 9 x)
    by (apply (le_finiteBelow x 360 9); auto; try (vm_compute; reflexivity); lia).
  assert (Hpi : finiteBelow 2 Math_PI) by (vm_compute; congruence).
  assert (Hmul : finiteBelow (9 + 2 + 1) (Num.mul x Math_PI))
    by (apply (SFmul_below Num.prec Num.emax eq_refl eq_refl); try assumption;
        vm_compute; congruence).
  change (Num.ofZ 180) with (S754_finite false 6333186975989760 (-45)).
  apply (finiteBelow_finite (9 + 2 + 1 - 8 + 2)).
  apply (SFdiv_below Num.prec Num.emax eq_refl eq_refl _ false 6333186975989760 (-45)
           (9 + 2 + 1) Hmul); vm_compute; congruence.
Qed.

Lemma toRadians_finite_turn_witness :
  Num.numeric (Num.ofZ (-270)) = true
  /\ Num.le (SFabs (Num.ofZ (-270))) (Num.ofZ 360) = true
  /\ finiteNumber (toRadians (H := @hostArith sampleHost) (Num.ofZ (-270))) = true.
Proof.
  split; [reflexivity|]. split; [reflexivity|].
  apply (@toRadians_finite_turn sampleHost); reflexivity.
Defined.

(** ** Coordinates that are not numbers *)

(** What ECMA-262 requires of the [Math] functions at [NaN]. *)
Record HostNaN `{Host} : Prop := {
  sin_NaN : Math_sin Num.NaN = Num.NaN;
  sqrt_NaN : Math_sqrt Num.NaN = Num.NaN;
  atan2_NaN : forall x, Math_atan2 Num.NaN x = Num.NaN
}.

Lemma sampleHost_NaN : @HostNaN sampleHost.
Proof. constructor; reflexivity. Qed.

Lemma isNaN_eq x : Num.isNaN x = true -> x = Num.NaN.
Proof. destruct x; try discriminate; reflexivity. Qed.

Lemma mul_NaN_r x : Num.mul x Num.NaN = Num.NaN.
Proof. destruct x; reflexivity. Qed.

Lemma add_NaN_r x : Num.add x Num.NaN = Num.NaN.
Proof. destruct x; reflexivity. Qed.

Lemma sub_NaN_l x : Num.sub Num.NaN x = Num.NaN.
Proof. reflexivity. Qed.

Lemma sub_NaN_r x : Num.sub x Num.NaN = Num.NaN.
Proof. destruct x; reflexivity. Qed.

Section NaNCoordinates.

Context `{Host}.
Hypothesis HN : HostNaN.

Lemma haversine_NaN_term (dLat dLon : number) (c : number) :
  dLat = Num.NaN \/ dLon = Num.NaN ->
  Num.mul (Num.ofZ 6371000)
    (Num.mul (Num.ofZ 2)
       (Math_atan2
          (Math_sqrt
             (Num.add
                (Num.mul (Math_sin (Num.div (toRadians dLat) (Num.ofZ 2)))
                   (Math_sin (Num.div (toRadians dLat) (Num.ofZ 2))))
                (Num.mul
                   (Num.mul c (Math_sin (Num.div (toRadians dLon) (Num.ofZ 2))))
                   (Math_sin (Num.div (toRadians dLon) (Num.ofZ 2))))))
          (Math_sqrt
             (Num.sub (Num.ofZ 1)
                (Num.add
                   (Num.mul (Math_sin (Num.div (toRadians dLat) (Num.ofZ 2)))
                      (Math_sin (Num.div (toRadians dLat) (Num.ofZ 2))))
                   (Num.mul
                      (Num.mul c (Math_sin (Num.div (toRadians dLon) (Num.ofZ 2))))
                      (Math_sin (Num.div (toRadians dLon) (Num.ofZ 2))))))))) = Num.NaN.
Proof.
  intros [-> | ->].
  - change (Num.div (toRadians Num.NaN) (Num.ofZ 2)) with Num.NaN.
    rewrite (sin_NaN HN). change (Num.mul Num.NaN Num.NaN) with Num.NaN.
    change (Num.add Num.NaN ?x) with Num.NaN.
    rewrite (sqrt_NaN HN), (atan2_NaN HN). reflexivity.
  - change (Num.div (toRadians Num.NaN) (Num.ofZ 2)) with Num.NaN.
    rewrite (sin_NaN HN), !mul_NaN_r, add_NaN_r.
    rewrite (sqrt_NaN HN), (atan2_NaN HN). reflexivity.
Qed.

Lemma haversine_NaN (lat1 lon1 lat2 lon2 : number) :
  Num.isNaN lat1 || Num.isNaN lon1 || Num.isNaN lat2 || Num.isNaN lon2 = true ->
  haversineDistanceMeters lat1 lon1 lat2 lon2 = Num.NaN.
Proof.
  intros Hn.
  assert (Hd : Num.sub lat2 lat1 = Num.NaN \/ Num.sub lon2 lon1 = Num.NaN).
  { repeat (apply orb_true_iff in Hn as [Hn|Hn]); apply isNaN_eq in Hn; subst;
      rewrite ?sub_NaN_r; auto. }
  exact (haversine_NaN_term _ _ _ Hd).
Qed.

End NaNCoordinates.

(** * Part IX.  The display of a distance and the ranking, continued *)

(** ** The boundary between metres and kilometres *)

(** The number 999.5. *)
Definition halfBelow1000 : number := Num.div (Num.ofZ 1999) (Num.ofZ 2).

(** A distance from 999.5 up to, and excluding, 1000 is below the
    threshold of the kilometres and rounds to 1000: it is displayed as
    ["1000 m"]. *)
Theorem formatDistance_rounds_to_1000 `{Host} (m : number) :
  Num.numeric m = true ->
  Num.le halfBelow1000 m = true -> Num.lt m (Num.ofZ 1000) = true ->
  formatDistance (Some m) = "1000 m".
Proof.
  intros Hm Hge Hlt.
  assert (Nh : Num.numeric halfBelow1000 = true) by (vm_compute; reflexivity).
  assert (Vh : Num.value halfBelow1000 = 1999 * 2 ^ 1073) by (vm_compute; reflexivity).
  destruct numeric_literals as (N0 & V0 & _ & _).
  assert (HU : 0 < 2 ^ 1073) by (apply Z.pow_pos_nonneg; lia).
  assert (E74 : 2 ^ 1074 = 2 * 2 ^ 1073) by (change 1074 with (1 + 1073); now rewrite Z.pow_add_r).
  rewrite (Num_le_value _ _ Nh Hm), Vh in Hge. apply Z.leb_le in Hge.
  assert (H0 : Num.le (Num.ofZ 0) m = true).
  { rewrite (Num_le_value _ _ N0 Hm), V0. apply Z.leb_le. lia. }
  destruct (small_distance_round m Hm H0 Hlt) as (n & Hn & Hnear & Hround).
  pose proof (numeric_spec _ Hm) as [Vm Nm].
  assert (En : n = 1000).
  { unfold nearestInteger in Hnear.
    destruct (rational m) as [[p q]|] eqn:Hr; [|contradiction].
    pose proof (rational_den_pos _ _ _ Hr) as Hq.
    pose proof (value_rational _ _ _ Vm Hr) as Hpq. rewrite E74 in Hpq.
    assert (1999 * q <= 2 * p).
    { revert Hge Hpq HU Hq. generalize (Num.value m), (2 ^ 1073). clear. intros v U. nia. }
    nia. }
  subst n. unfold formatDistance. unfold Num.isNaN. rewrite Nm, Hlt.
  destruct Hround as [-> | (F & _)]; [|lia].
  now rewrite small_integer_toString by lia.
Qed.

Lemma formatDistance_rounds_to_1000_witness :
  Num.numeric halfBelow1000 = true
  /\ Num.le halfBelow1000 halfBelow1000 = true
  /\ Num.lt halfBelow1000 (Num.ofZ 1000) = true
  /\ @formatDistance sampleHost (Some halfBelow1000) = "1000 m".
Proof.
  split; [reflexivity|]. split; [reflexivity|]. split; [reflexivity|].
  apply (@formatDistance_rounds_to_1000 sampleHost); reflexivity.
Defined.

(** ** The ranking, continued *)

(** The stations whose comparison is consistent: the operand
    [distanceMeters ?? 0] of the comparator is a number. *)
Definition hasRankingKey (s : Station.t) : Prop := Num.numeric (distanceOf s) = true.

Lemma StronglySorted_lookup_lt {A : Type} (R : A -> A -> Prop) (l : list A) :
  StronglySorted R l ->
  forall (i j : nat) x y, l !! i = Some x -> l !! j = Some y -> (i < j)%nat -> R x y.
Proof.
  induction 1 as [|a l HS IH Hall]; intros i j x y Hi Hj Hlt; [discriminate|].
  destruct j as [|j]; [lia|]. destruct i as [|i].
  - injection Hi as <-. rewrite Forall_forall in Hall.
    apply Hall. eapply list_elem_of_lookup_2. exact Hj.
  - apply (IH i j); auto. lia.
Qed.

Lemma ranking_sorted_by_value stations :
  Forall hasRankingKey stations ->
  StronglySorted (fun a b => Num.value (distanceOf a) <= Num.value (distanceOf b))
    (sortStationsByDistance stations).
Proof.
  intros Hk.
  exact (Array_sort_sorted byDistance (fun s => Num.value (distanceOf s))
           hasRankingKey byDistance_key stations Hk).
Qed.

(** [sortStationsByDistance] neither drops nor repeats a station, whatever
    the distances are ([NaN] and missing ones included); an empty array
    gives an empty array. *)
Theorem sortStationsByDistance_keeps_every_station (stations : list Station.t) :
  Permutation stations (sortStationsByDistance stations)
  /\ length (sortStationsByDistance stations) = length stations
  /\ (forall s, s ∈ sortStationsByDistance stations <-> s ∈ stations)
  /\ sortStationsByDistance [] = [].
Proof.
  pose proof (Array_sort_perm byDistance stations) as Hp.
  fold (sortStationsByDistance stations) in Hp.
  split; [exact Hp|]. split; [now rewrite <- Hp|]. split; [|reflexivity].
  intros s. now rewrite <- Hp.
Qed.

(** A station without [distanceMeters] is ranked as a station at distance
    0: in the result it comes before every station at a positive
    distance. *)
Theorem sortStationsByDistance_missing_distance_first (stations : list Station.t)
  (i j : nat) (a b : Station.t) :
  Forall hasRankingKey stations ->
  sortStationsByDistance stations !! i = Some a ->
  sortStationsByDistance stations !! j = Some b ->
  Station.distanceMeters a = None ->
  Num.lt (Num.ofZ 0) (distanceOf b) = true ->
  (i < j)%nat.
Proof.
  intros Hk Hi Hj Ha Hb.
  destruct numeric_literals as (N0 & V0 & _ & _).
  assert (Hkb : hasRankingKey b).
  { rewrite Forall_forall in Hk. apply Hk.
    rewrite (Array_sort_perm byDistance stations).
    eapply list_elem_of_lookup_2. exact Hj. }
  rewrite (Num_lt_value _ _ N0 Hkb), V0 in Hb. apply Z.ltb_lt in Hb.
  assert (Va : Num.value (distanceOf a) = 0) by (unfold distanceOf; now rewrite Ha).
  destruct (Nat.lt_trichotomy i j) as [Hlt|[->|Hgt]]; [exact Hlt| |].
  - rewrite Hi in Hj. injection Hj as ->. lia.
  - pose proof (StronglySorted_lookup_lt _ _ (ranking_sorted_by_value stations Hk)
                  j i b a Hj Hi Hgt) as Hle. simpl in Hle. lia.
Qed.

(** A station at 300 m followed by a station without [distanceMeters]. *)
Definition unmeasuredStations : list Station.t :=
  [stationAt 1 300; Station.mk 2 None None EmptyString None None None].

Lemma sortStationsByDistance_missing_distance_first_witness :
  Forall hasRankingKey unmeasuredStations
  /\ sortStationsByDistance unmeasuredStations !! 0%nat
     = Some (Station.mk 2 None None EmptyString None None None)
  /\ sortStationsByDistance unmeasuredStations !! 1%nat = Some (stationAt 1 300)
  /\ (0 < 1)%nat.
Proof.
  assert (Hk : Forall hasRankingKey unmeasuredStations) by (repeat constructor).
  split; [exact Hk|]. split; [reflexivity|]. split; [reflexivity|].
  exact (sortStationsByDistance_missing_distance_first unmeasuredStations 0 1 _ _ Hk
           eq_refl eq_refl eq_refl eq_refl).
Defined.

(** Ranking an array that is already in ascending order of distance
    returns its elements in the same order; ranking twice is ranking
    once. *)
Theorem sortStationsByDistance_idempotent (stations : list Station.t) :
  Forall hasRankingKey stations ->
  (StronglySorted (fun a b => Num.le (distanceOf a) (distanceOf b) = true) stations ->
   sortStationsByDistance stations = stations)
  /\ sortStationsByDistance (sortStationsByDistance stations)
     = sortStationsByDistance stations.
Proof.
  intros Hk.
  assert (Hfix : forall l, Forall hasRankingKey l ->
            StronglySorted (fun a b => Num.value (distanceOf a) <= Num.value (distanceOf b)) l ->
            sortStationsByDistance l = l).
  { intros l Hl Hs. symmetry.
    apply (Array_sort_unique byDistance (fun s => Num.value (distanceOf s))
             hasRankingKey byDistance_key l l Hl Hs). reflexivity. }
  split.
  - intros Hs. apply Hfix; [exact Hk|].
    eapply StronglySorted_weaken with (P := hasRankingKey); [|exact Hk|exact Hs].
    intros a b Ha Hb Hle. simpl in Hle.
    rewrite (Num_le_value _ _ Ha Hb) in Hle. now apply Z.leb_le.
  - apply Hfix; [|now apply ranking_sorted_by_value].
    exact (Array_sort_good byDistance hasRankingKey stations Hk).
Qed.

Lemma sortStationsByDistance_idempotent_witness :
  Forall hasRankingKey exampleStations
  /\ sortStationsByDistance (sortStationsByDistance exampleStations)
     = sortStationsByDistance exampleStations.
Proof.
  assert (Hk : Forall hasRankingKey exampleStations) by (repeat constructor).
  split; [exact Hk|].
  exact (proj2 (sortStationsByDistance_idempotent exampleStations Hk)).
Defined.

(** * Part X.  [fetchStations], continued *)

(** [fetchStations] passes failures on.  A rejected request rejects with
    the same exception.  A status that is not a success throws
    [Error "Failed to fetch stations"], whatever the body holds, readable
    or not.  When the status is a success and the body cannot be read, the
    exception of [json()] is passed on.  When the body is read and one of
    its elements is not a node and lacks its [center], a [TypeError] is
    thrown, whatever the other elements are. *)
Theorem fetchStations_failure_modes (lat lon radiusMeters : number) :
  (forall e : Exception, fetchStations lat lon radiusMeters (Thrown e) = Thrown e)
  /\ (forall res : Response.t,
        Response.ok res = false ->
        fetchStations lat lon radiusMeters (Returned res)
        = Thrown (Error "Failed to fetch stations"))
  /\ (forall (res : Response.t) (e : Exception),
        Response.ok res = true -> Response.json res = Thrown e ->
        fetchStations lat lon radiusMeters (Returned res) = Thrown e)
  /\ (forall (res : Response.t) (data : Data.t),
        Response.ok res = true -> Response.json res = Returned data ->
        forallb hasCenter (Data.elements data ?? []) = false ->
        fetchStations lat lon radiusMeters (Returned res) = Thrown TypeError).
Proof.
  unfold fetchStations. repeat split.
  - intros res Hok. simpl. now rewrite Hok.
  - intros res e Hok Hj. simpl. now rewrite Hok, Hj.
  - intros res data Hok Hj Hall. simpl. rewrite Hok, Hj. simpl.
    now apply mapOutcome_some_missing.
Qed.

Lemma fetchStations_failure_modes_witness :
  fetchStations (Num.ofZ 12) (Num.ofZ 77) (Num.ofZ 5000)
    (Returned (Response.mk false (Thrown TypeError)))
  = Thrown (Error "Failed to fetch stations")
  /\ fetchStations (Num.ofZ 12) (Num.ofZ 77) (Num.ofZ 5000)
       (Returned (Response.mk true (Thrown (Error "Unexpected end of JSON input"))))
     = Thrown (Error "Unexpected end of JSON input")
  /\ fetchStations (Num.ofZ 12) (Num.ofZ 77) (Num.ofZ 5000)
       (Returned (Response.mk true (Returned (Data.mk (Some [sampleNode; bareWay])))))
     = Thrown TypeError.
Proof.
  destruct (fetchStations_failure_modes (Num.ofZ 12) (Num.ofZ 77) (Num.ofZ 5000))
    as (_ & H2 & H3 & H4).
  split; [apply H2; reflexivity|].
  split; [apply H3; reflexivity|].
  apply (H4 _ (Data.mk (Some [sampleNode; bareWay]))); reflexivity.
Defined.

(** ** The address of a station *)








(** The station that [sampleNode] is normalised to. *)
Definition sampleStation : Station.t :=
  Station.mk 1 (Some "Shell") None "Bengaluru" (Some (Num.ofZ 12)) (Some (Num.ofZ 77)) None.


(** * Part XI.  The [App] component, continued *)

Section ComponentSteps.

Context `{Host}.

(** The route effect writes [routeCoords] and nothing else. *)
Lemma routeEffect_frame s :
  userLocation (routeEffect s) = userLocation s
  /\ stations (routeEffect s) = stations s
  /\ loading (routeEffect s) = loading s
  /\ error (routeEffect s) = error s
  /\ selectedStationId (routeEffect s) = selectedStationId s
  /\ geoError (routeEffect s) = geoError s
  /\ isLocating (routeEffect s) = isLocating s
  /\ showManualLocation (routeEffect s) = showManualLocation s
  /\ manualLocation (routeEffect s) = manualLocation s.
Proof.
  unfold routeEffect. destruct (userLocation s) eqn:Hu; [|simpl; rewrite ?Hu; tauto].
  destruct (_ =? _)%nat; [simpl; rewrite ?Hu; tauto|].
  destruct (stations s !! 0%nat); simpl; rewrite ?Hu; tauto.
Qed.

(** A property kept by every transition holds along every run. *)
Lemma run_invariant (P : World -> Prop) :
  (forall e w w', P w -> step e w = Some w' -> P w') ->
  forall events w w', P w -> run events w = Some w' -> P w'.
Proof.
  intros Hstep. induction events as [|e events IH]; simpl; intros w w' Hw.
  - now intros [= <-].
  - destruct (step e w) as [w1|] eqn:He; [|discriminate].
    apply IH. eapply Hstep; eauto.
Qed.

(** What the effects on [userLocation] do to the other components of the
    world. *)
Lemma afterUserLocation_frame w :
  userLocation (app (afterUserLocation w)) = userLocation (app w)
  /\ stations (app (afterUserLocation w)) = stations (app w)
  /\ isLocating (app (afterUserLocation w)) = isLocating (app w)
  /\ geoError (app (afterUserLocation w)) = geoError (app w)
  /\ showManualLocation (app (afterUserLocation w)) = showManualLocation (app w)
  /\ error (app (afterUserLocation w)) = error (app w)
  /\ geoRequests (afterUserLocation w) = geoRequests w
  /\ alerts (afterUserLocation w) = alerts w.
Proof.
  unfold afterUserLocation, loadEffect.
  destruct (userLocation (app w)) eqn:Hu; simpl;
    match goal with |- context [routeEffect ?s] =>
      destruct (routeEffect_frame s) as (-> & -> & _ & -> & _ & -> & -> & -> & _) end;
    simpl; rewrite ?Hu; tauto.
Qed.

Lemma afterUserLocation_load w current :
  userLocation (app w) = Some current ->
  loading (app (afterUserLocation w)) = true
  /\ fetches (afterUserLocation w) = fetches w ++ [current].
Proof.
  intros Hu. unfold afterUserLocation, loadEffect. rewrite Hu. simpl.
  match goal with |- context [routeEffect ?s] =>
    destruct (routeEffect_frame s) as (_ & _ & -> & _) end.
  auto.
Qed.

End ComponentSteps.

(** ** Manual entry *)

(** The validation of the manual form accepts exactly the coordinates: for
    numbers as [parseFloat] produces them, the test of
    [setManualLocationAndFetch] fails exactly when the latitude is a number
    of [-90, 90] and the longitude a number of [-180, 180]. *)
Theorem invalidCoordinates_not_coordinate (lat lon : number) :
  Num.wellFormed lat = true -> Num.wellFormed lon = true ->
  invalidCoordinates lat lon = negb (isCoordinate lat lon).
Proof.
  intros Wlat Wlon. unfold invalidCoordinates, isCoordinate.
  destruct (Num.isNaN lat) eqn:Nlat;
    [unfold Num.numeric; rewrite Nlat, andb_false_r; reflexivity|].
  destruct (Num.isNaN lon) eqn:Nlon;
    [unfold Num.numeric; rewrite Nlon, !andb_false_r; reflexivity|].
  assert (Hlat : Num.numeric lat = true) by (unfold Num.numeric; now rewrite Wlat, Nlat).
  assert (Hlon : Num.numeric lon = true) by (unfold Num.numeric; now rewrite Wlon, Nlon).
  rewrite Hlat, Hlon. cbn [orb andb].
  assert (N90 : Num.numeric (Num.ofZ 90) = true) by (vm_compute; reflexivity).
  assert (M90 : Num.numeric (SFopp (Num.ofZ 90)) = true) by (vm_compute; reflexivity).
  assert (N180 : Num.numeric (Num.ofZ 180) = true) by (vm_compute; reflexivity).
  assert (M180 : Num.numeric (SFopp (Num.ofZ 180)) = true) by (vm_compute; reflexivity).
  assert (V90 : Num.value (Num.ofZ 90) = 90 * 2 ^ 1074) by (vm_compute; reflexivity).
  assert (W90 : Num.value (SFopp (Num.ofZ 90)) = - (90 * 2 ^ 1074)) by (vm_compute; reflexivity).
  assert (V180 : Num.value (Num.ofZ 180) = 180 * 2 ^ 1074) by (vm_compute; reflexivity).
  assert (W180 : Num.value (SFopp (Num.ofZ 180)) = - (180 * 2 ^ 1074))
    by (vm_compute; reflexivity).
  change (Num.gt lat (Num.ofZ 90)) with (Num.lt (Num.ofZ 90) lat).
  change (Num.gt lon (Num.ofZ 180)) with (Num.lt (Num.ofZ 180) lon).
  rewrite (Num_lt_value _ _ Hlat M90), (Num_lt_value _ _ N90 Hlat),
    (Num_lt_value _ _ Hlon M180), (Num_lt_value _ _ N180 Hlon),
    (Num_le_value _ _ (numeric_abs lat Hlat) N90),
    (Num_le_value _ _ (numeric_abs lon Hlon) N180),
    !value_abs, V90, W90, V180, W180.
  generalize (Num.value lat), (Num.value lon), (2 ^ 1074). intros a b U.
  destruct (Z.ltb_spec a (- (90 * U))), (Z.ltb_spec (90 * U) a),
    (Z.ltb_spec b (- (180 * U))), (Z.ltb_spec (180 * U) b),
    (Z.leb_spec (Z.abs a) (90 * U)), (Z.leb_spec (Z.abs b) (180 * U));
    simpl; try reflexivity; lia.
Qed.

Lemma invalidCoordinates_not_coordinate_witness :
  Num.wellFormed (Num.ofZ 10) = true /\ Num.wellFormed (Num.ofZ 200) = true
  /\ invalidCoordinates (Num.ofZ 10) (Num.ofZ 200)
     = negb (isCoordinate (Num.ofZ 10) (Num.ofZ 200)).
Proof.
  split; [reflexivity|]. split; [reflexivity|].
  apply invalidCoordinates_not_coordinate; reflexivity.
Defined.

(** When the manual form is submitted with coordinates that pass the
    validation, they become the user location, the form is closed, the
    geolocation error is cleared, and one load is started for them, with
    the loading indicator on.  Nothing is alerted; the stations of the
    previous location stay until the load settles, and a device request in
    flight is neither cancelled nor forgotten. *)
Theorem manual_submission_accepted `{Host} (w : World) :
  showManualLocation (app w) = true ->
  invalidCoordinates (parseFloat (fst (manualLocation (app w))))
                     (parseFloat (snd (manualLocation (app w)))) = false ->
  exists w', step FindStations w = Some w'
    /\ userLocation (app w')
       = Some (Coordinate.mk (parseFloat (fst (manualLocation (app w))))
                             (parseFloat (snd (manualLocation (app w)))))
    /\ showManualLocation (app w') = false
    /\ geoError (app w') = None
    /\ loading (app w') = true
    /\ fetches w'
       = fetches w ++ [Coordinate.mk (parseFloat (fst (manualLocation (app w))))
                                     (parseFloat (snd (manualLocation (app w))))]
    /\ alerts w' = alerts w
    /\ stations (app w') = stations (app w)
    /\ geoRequests w' = geoRequests w
    /\ isLocating (app w') = isLocating (app w).
Proof.
  intros Hshow Hvalid. unfold step. rewrite Hshow.
  unfold setManualLocationAndFetch. rewrite Hvalid.
  eexists. split; [reflexivity|].
  match goal with |- context [afterUserLocation ?w0] =>
    destruct (afterUserLocation_frame w0) as (-> & -> & -> & -> & -> & _ & -> & ->);
    destruct (afterUserLocation_load w0 _ eq_refl) as (-> & ->)
  end.
  simpl. repeat split.
Qed.

(** The user types 10 and 20 in the manual form. *)
Definition typingTenTwenty : list Event :=
  [PositionError 3; EnterManually; TypeLatitude "10"; TypeLongitude "20"].

Lemma manual_submission_accepted_witness :
  exists w,
    run (H := sampleHost) typingTenTwenty (mounted (H := sampleHost)) = Some w
    /\ showManualLocation (app w) = true
    /\ exists w', step (H := sampleHost) FindStations w = Some w'
         /\ userLocation (app w') = Some (Coordinate.mk (Num.ofZ 10) (Num.ofZ 20))
         /\ fetches w' = [Coordinate.mk (Num.ofZ 10) (Num.ofZ 20)].
Proof.
  eexists. split; [vm_compute; reflexivity|]. split; [reflexivity|].
  match goal with |- exists w', step _ ?w = _ /\ _ =>
    destruct (manual_submission_accepted (H := sampleHost) w eq_refl eq_refl)
      as (w' & Hstep & Hu & _ & _ & _ & Hf & _)
  end.
  exists w'. split; [exact Hstep|]. split; [exact Hu|exact Hf].
Defined.

(** ** Geolocation failures *)

(** Whatever its code, a geolocation error ends the loading and the
    locating states and sets a message that is not empty, the one of the
    code when the code is 1, 2 or 3; the location and the stations stay.
    The error panel is then displayed with its controls enabled: the
    request can be issued again and the manual form can be opened. *)
Theorem position_error_recoverable `{Host} (w : World) (code : Z) :
  (0 < geoRequests w)%nat ->
  exists w' message,
    step (PositionError code) w = Some w'
    /\ S (geoRequests w') = geoRequests w
    /\ geoError (app w') = Some message
    /\ message <> ""
    /\ (code = 1 ->
        message = "Location access denied. Please allow location permission and try again.")
    /\ (code = 2 ->
        message = "Location unavailable. Please check your GPS/network connection.")
    /\ (code = 3 -> message = "Location request timed out. Please try again.")
    /\ (code <> 1 -> code <> 2 -> code <> 3 -> message = "Unable to retrieve your location.")
    /\ loading (app w') = false
    /\ isLocating (app w') = false
    /\ userLocation (app w') = userLocation (app w)
    /\ stations (app w') = stations (app w)
    /\ step TryAgain w' = Some (getCurrentLocation w')
    /\ step LocateMe w' = Some (getCurrentLocation w')
    /\ step EnterManually w' = Some (onApp (setShowManualLocation true) w').
Proof.
  intros Hreq. unfold step at 1. destruct (geoRequests w) as [|pending] eqn:Hp; [lia|].
  eexists; eexists. split; [reflexivity|]. simpl.
  split; [reflexivity|]. split; [reflexivity|].
  split; [destruct (code =? 1); [discriminate|]; destruct (code =? 2); [discriminate|];
          destruct (code =? 3); discriminate|].
  split; [now intros ->|]. split; [now intros ->|]. split; [now intros ->|].
  split; [|repeat split].
  intros H1 H2 H3. apply Z.eqb_neq in H1, H2, H3. now rewrite H1, H2, H3.
Qed.

Lemma position_error_recoverable_witness :
  (0 < geoRequests (mounted (H := sampleHost)))%nat
  /\ exists w',
       step (H := sampleHost) (PositionError 1) (mounted (H := sampleHost)) = Some w'
       /\ geoError (app w')
          = Some "Location access denied. Please allow location permission and try again."
       /\ step (H := sampleHost) TryAgain w' = Some (getCurrentLocation (H := sampleHost) w').
Proof.
  assert (Hreq : (0 < geoRequests (mounted (H := sampleHost)))%nat) by (simpl; lia).
  split; [exact Hreq|].
  destruct (position_error_recoverable (H := sampleHost) mounted 1 Hreq)
    as (w' & message & Hstep & _ & Hg & _ & H1 & _ & _ & _ & _ & _ & _ & _ & Htry & _).
  exists w'. split; [exact Hstep|]. split; [|exact Htry].
  rewrite Hg, (H1 eq_refl). reflexivity.
Defined.

(** ** A browser without geolocation *)

(** A user location that passed the validation of the manual form. *)
Definition validatedLocation (location : option Coordinate.t) : Prop :=
  match location with
  | Some current =>
      invalidCoordinates (Coordinate.lat current) (Coordinate.lon current) = false
  | None => True
  end.

Definition NoDevice (w : World) : Prop :=
  geoRequests w = 0%nat /\ isLocating (app w) = false
  /\ validatedLocation (userLocation (app w)).

Section NoGeolocation.

Context `{Host}.
Hypothesis unsupported : geolocationSupported = false.

Lemma getCurrentLocation_unsupported w :
  getCurrentLocation w
  = onApp (fun s => setLoading false
                      (setGeoError (Some "Geolocation is not supported by your browser.") s)) w.
Proof. unfold getCurrentLocation. now rewrite unsupported. Qed.

Lemma step_NoDevice e w w' : NoDevice w -> step e w = Some w' -> NoDevice w'.
Proof.
  intros (Hreq & Hloc & Hval). unfold step.
  destruct e as [ | | |text|text| | |latitude longitude|code|i reply|id].
  - destruct (_ && _); intros [= <-]. rewrite getCurrentLocation_unsupported. now split.
  - destruct (negb _); intros [= <-]. rewrite getCurrentLocation_unsupported. now split.
  - destruct (_ && _); intros [= <-]. now split.
  - destruct (showManualLocation _); intros [= <-]. now split.
  - destruct (showManualLocation _); intros [= <-]. now split.
  - destruct (showManualLocation _); [|discriminate].
    unfold setManualLocationAndFetch.
    destruct (invalidCoordinates _ _) eqn:Hinv; intros [= <-]; [now split|].
    unfold NoDevice.
    match goal with |- context [afterUserLocation ?w0] =>
      destruct (afterUserLocation_frame w0) as (-> & _ & -> & _ & _ & _ & -> & _) end.
    simpl. auto.
  - destruct (showManualLocation _); intros [= <-]. now split.
  - rewrite Hreq. discriminate.
  - rewrite Hreq. discriminate.
  - destruct (fetches w !! i) as [current|]; [|discriminate].
    unfold loadSettled. destruct (fetchStations _ _ _ _); intros [= <-]; unfold NoDevice; simpl.
    + match goal with |- context [routeEffect ?s] =>
        destruct (routeEffect_frame s) as (-> & _ & _ & _ & _ & _ & -> & _) end.
      simpl. auto.
    + auto.
  - destruct (existsb _ _); intros [= <-]. now split.
Qed.

Lemma mounted_NoDevice : NoDevice mounted.
Proof.
  unfold mounted. rewrite getCurrentLocation_unsupported.
  unfold NoDevice. simpl. auto.
Qed.

End NoGeolocation.

(** In a browser without geolocation the component shows, once mounted,
    the message that geolocation is not supported, with the loading
    indicator off and no load started.  Whatever happens afterwards, no
    device request is ever issued, so that the component is never in the
    locating state and every user location it holds has been typed in the
    manual form and has passed its validation. *)
Theorem geolocation_unsupported `{Host} (events : list Event) (w : World) :
  geolocationSupported = false ->
  run events mounted = Some w ->
  geoError (app mounted) = Some "Geolocation is not supported by your browser."
  /\ loading (app mounted) = false
  /\ fetches mounted = []
  /\ geoRequests w = 0%nat
  /\ isLocating (app w) = false
  /\ validatedLocation (userLocation (app w)).
Proof.
  intros Hno Hrun.
  assert (Hm : mounted
               = onApp routeEffect
                   (loadEffect
                      (onApp (fun s => setLoading false
                                (setGeoError
                                   (Some "Geolocation is not supported by your browser.") s))
                         (onApp (setLoading true) (mkWorld initialState 0 [] []))))).
  { unfold mounted. now rewrite (getCurrentLocation_unsupported Hno). }
  split; [rewrite Hm; reflexivity|]. split; [rewrite Hm; reflexivity|].
  split; [rewrite Hm; reflexivity|].
  exact (run_invariant NoDevice (step_NoDevice Hno) events _ _ (mounted_NoDevice Hno) Hrun).
Qed.

(** A host as [sampleHost], in a browser without geolocation. *)
Definition noGeolocationHost : Host := {|
  Math_sin := @Math_sin sampleHost;
  Math_cos := @Math_cos sampleHost;
  Math_sqrt := @Math_sqrt sampleHost;
  Math_atan2 := @Math_atan2 sampleHost;
  parseFloat := @parseFloat sampleHost;
  shortestDigits := @shortestDigits sampleHost;
  geolocationSupported := false
|}.

(** Without geolocation: the user asks again, opens the manual form, and
    submits 10 and 20. *)
Definition manualWithoutDevice : list Event :=
  [LocateMe; EnterManually; TypeLatitude "10"; TypeLongitude "20"; FindStations].

Lemma geolocation_unsupported_witness :
  @geolocationSupported noGeolocationHost = false
  /\ exists w,
       run (H := noGeolocationHost) manualWithoutDevice (mounted (H := noGeolocationHost))
       = Some w
       /\ userLocation (app w) = Some (Coordinate.mk (Num.ofZ 10) (Num.ofZ 20))
       /\ geoRequests w = 0%nat
       /\ isLocating (app w) = false.
Proof.
  split; [reflexivity|].
  eexists. split; [vm_compute; reflexivity|]. split; [reflexivity|].
  match goal with |- geoRequests ?w = _ /\ _ =>
    destruct (geolocation_unsupported (H := noGeolocationHost) manualWithoutDevice w
                eq_refl ltac:(vm_compute; reflexivity)) as (_ & _ & _ & Hreq & Hloc & _)
  end.
  split; [exact Hreq|exact Hloc].
Defined.

(** ** Loads *)

(** When a load fails, for whatever reason [fetchStations] throws, the
    stations, the user location and the route shown before are kept, the
    error message of the list is set and the loading indicator is turned
    off, whether or not other loads are still awaited. *)
Theorem load_failure_keeps_stations `{Host} (w : World) (i : nat)
  (current : Coordinate.t) (reply : Outcome Response.t) (e : Exception) :
  fetches w !! i = Some current ->
  fetchStations (Coordinate.lat current) (Coordinate.lon current) RADIUS_METERS reply
  = Thrown e ->
  exists w', step (FetchSettled i reply) w = Some w'
    /\ stations (app w') = stations (app w)
    /\ userLocation (app w') = userLocation (app w)
    /\ routeCoords (app w') = routeCoords (app w)
    /\ error (app w')
       = Some "Failed to load nearby petrol stations. Please try again later."
    /\ loading (app w') = false
    /\ fetches w' = take i (fetches w) ++ drop (S i) (fetches w).
Proof.
  intros Hi Hf. unfold step. rewrite Hi. unfold loadSettled. rewrite Hf.
  eexists. split; [reflexivity|]. simpl. repeat split.
Qed.

Lemma load_failure_keeps_stations_witness :
  exists w,
    run (H := sampleHost) [PositionSuccess (Num.ofZ 12) (Num.ofZ 77)]
      (mounted (H := sampleHost)) = Some w
    /\ fetches w !! 0%nat = Some (Coordinate.mk (Num.ofZ 12) (Num.ofZ 77))
    /\ exists w', step (H := sampleHost) (FetchSettled 0 (Thrown Rejection)) w = Some w'
         /\ error (app w')
            = Some "Failed to load nearby petrol stations. Please try again later."
         /\ loading (app w') = false.
Proof.
  eexists. split; [vm_compute; reflexivity|]. split; [reflexivity|].
  match goal with |- exists w', step _ ?w = _ /\ _ =>
    destruct (load_failure_keeps_stations (H := sampleHost) w 0
                (Coordinate.mk (Num.ofZ 12) (Num.ofZ 77)) (Thrown Rejection) Rejection
                eq_refl eq_refl) as (w' & Hstep & _ & _ & _ & He & Hl & _)
  end.
  exists w'. auto.
Defined.

(** When a load succeeds, the stations become the ranking of the stations
    fetched, each with its distance from the location for which the load
    was started, be it still the user location or not; there is one
    station per station fetched, the error message of the list is cleared,
    the loading indicator is turned off and the route is drawn again from
    the user location of the moment. *)
Theorem load_success_ranks `{Host} (w : World) (i : nat)
  (current : Coordinate.t) (reply : Outcome Response.t) (rawStations : list Station.t) :
  fetches w !! i = Some current ->
  fetchStations (Coordinate.lat current) (Coordinate.lon current) RADIUS_METERS reply
  = Returned rawStations ->
  exists w', step (FetchSettled i reply) w = Some w'
    /\ stations (app w')
       = sortStationsByDistance (map (withDistance current) rawStations)
    /\ length (stations (app w')) = length rawStations
    /\ userLocation (app w') = userLocation (app w)
    /\ routeCoords (app w') = routeOverlay (userLocation (app w)) (stations (app w'))
    /\ error (app w') = None
    /\ loading (app w') = false
    /\ fetches w' = take i (fetches w) ++ drop (S i) (fetches w).
Proof.
  intros Hi Hf. unfold step. rewrite Hi. unfold loadSettled. rewrite Hf.
  eexists. split; [reflexivity|]. cbn [app fetches].
  match goal with |- context [routeEffect ?s] =>
    destruct (routeEffect_frame s) as (Hu & Hs & Hl & He & _);
    destruct (routeEffect_spec s) as (Hr & _)
  end.
  rewrite Hs, Hu, Hl, He, Hr. simpl.
  split; [reflexivity|]. split; [|repeat split].
  rewrite <- (Array_sort_perm byDistance). now rewrite length_map.
Qed.

(** A location is delivered, the user then submits 10 and 20 by hand while
    the first load is awaited. *)
Definition twoLoads : list Event :=
  [PositionSuccess (Num.ofZ 12) (Num.ofZ 77); LocateMe; PositionError 3; EnterManually;
   TypeLatitude "10"; TypeLongitude "20"; FindStations].

Lemma load_success_ranks_witness :
  exists w,
    run (H := sampleHost) twoLoads (mounted (H := sampleHost)) = Some w
    /\ userLocation (app w) = Some (Coordinate.mk (Num.ofZ 10) (Num.ofZ 20))
    /\ fetches w !! 0%nat = Some (Coordinate.mk (Num.ofZ 12) (Num.ofZ 77))
    /\ exists w', step (H := sampleHost) (FetchSettled 0 (success (Some [sampleNode]))) w
                  = Some w'
         /\ stations (app w')
            = sortStationsByDistance
                (map (withDistance (H := sampleHost) (Coordinate.mk (Num.ofZ 12) (Num.ofZ 77)))
                   [sampleStation])
         /\ userLocation (app w') = Some (Coordinate.mk (Num.ofZ 10) (Num.ofZ 20)).
Proof.
  eexists. split; [vm_compute; reflexivity|]. split; [reflexivity|]. split; [reflexivity|].
  match goal with |- exists w', step _ ?w = _ /\ _ =>
    destruct (load_success_ranks (H := sampleHost) w 0
                (Coordinate.mk (Num.ofZ 12) (Num.ofZ 77)) (success (Some [sampleNode]))
                [sampleStation]
                eq_refl ltac:(vm_compute; reflexivity))
      as (w' & Hstep & Hs & _ & Hu & _)
  end.
  exists w'. split; [exact Hstep|]. split; [exact Hs|]. rewrite Hu. reflexivity.
Defined.

(** ** Invariants of the component *)

Section ComponentInvariants.

Context `{Host}.

Lemma step_userLocation e w w' :
  step e w = Some w' ->
  is_Some (userLocation (app w)) -> is_Some (userLocation (app w')).
Proof.
  unfold step.
  destruct e as [ | | |text|text| | |latitude longitude|code|i reply|id].
  - destruct (_ && _); intros [= <-]. unfold getCurrentLocation.
    destruct geolocationSupported; auto.
  - destruct (negb _); intros [= <-]. unfold getCurrentLocation.
    destruct geolocationSupported; auto.
  - destruct (_ && _); intros [= <-]. auto.
  - destruct (showManualLocation _); intros [= <-]. auto.
  - destruct (showManualLocation _); intros [= <-]. auto.
  - destruct (showManualLocation _); [|discriminate].
    unfold setManualLocationAndFetch.
    destruct (invalidCoordinates _ _); intros [= <-]; [auto|].
    match goal with |- context [afterUserLocation ?w0] =>
      destruct (afterUserLocation_frame w0) as (-> & _) end.
    simpl. eauto.
  - destruct (showManualLocation _); intros [= <-]. auto.
  - destruct (geoRequests w); intros [= <-].
    match goal with |- context [afterUserLocation ?w0] =>
      destruct (afterUserLocation_frame w0) as (-> & _) end.
    simpl. eauto.
  - destruct (geoRequests w); intros [= <-]. auto.
  - destruct (fetches w !! i) as [current|]; [|discriminate].
    unfold loadSettled. destruct (fetchStations _ _ _ _); intros [= <-]; simpl; [|auto].
    match goal with |- context [routeEffect ?s] =>
      destruct (routeEffect_frame s) as (-> & _) end.
    auto.
  - destruct (existsb _ _); intros [= <-]. auto.
Qed.

(** The stations displayed are a ranking of stations with their distance
    from one location. *)
Definition Ranked (w : World) : Prop :=
  exists current rawStations,
    stations (app w) = sortStationsByDistance (map (withDistance current) rawStations).

Lemma step_Ranked e w w' : Ranked w -> step e w = Some w' -> Ranked w'.
Proof.
  intros Hw. unfold step.
  destruct e as [ | | |text|text| | |latitude longitude|code|i reply|id].
  - destruct (_ && _); intros [= <-]. unfold getCurrentLocation.
    destruct geolocationSupported; exact Hw.
  - destruct (negb _); intros [= <-]. unfold getCurrentLocation.
    destruct geolocationSupported; exact Hw.
  - destruct (_ && _); intros [= <-]. exact Hw.
  - destruct (showManualLocation _); intros [= <-]. exact Hw.
  - destruct (showManualLocation _); intros [= <-]. exact Hw.
  - destruct (showManualLocation _); [|discriminate].
    unfold setManualLocationAndFetch.
    destruct (invalidCoordinates _ _); intros [= <-]; [exact Hw|].
    unfold Ranked.
    match goal with |- context [afterUserLocation ?w0] =>
      destruct (afterUserLocation_frame w0) as (_ & -> & _) end.
    exact Hw.
  - destruct (showManualLocation _); intros [= <-]. exact Hw.
  - destruct (geoRequests w); intros [= <-]. unfold Ranked.
    match goal with |- context [afterUserLocation ?w0] =>
      destruct (afterUserLocation_frame w0) as (_ & -> & _) end.
    exact Hw.
  - destruct (geoRequests w); intros [= <-]. exact Hw.
  - destruct (fetches w !! i) as [current|]; [|discriminate].
    unfold loadSettled.
    destruct (fetchStations _ _ _ _) as [rawStations|]; intros [= <-]; [|exact Hw].
    unfold Ranked. cbn [app].
    match goal with |- context [routeEffect ?s] =>
      destruct (routeEffect_frame s) as (_ & -> & _) end.
    exists current, rawStations. reflexivity.
  - destruct (existsb _ _); intros [= <-]. exact Hw.
Qed.

Lemma mounted_Ranked : Ranked mounted.
Proof.
  exists (Coordinate.mk Num.zero Num.zero), []. unfold mounted.
  destruct (routeEffect_frame
              (app (loadEffect (getCurrentLocation
                                  (onApp (setLoading true) (mkWorld initialState 0 [] []))))))
    as (_ & Hs & _).
  cbn [onApp app]. rewrite Hs. unfold getCurrentLocation.
  destruct geolocationSupported; reflexivity.
Qed.

End ComponentInvariants.

(** Once the component holds a user location it holds one for ever: no
    transition sets it back to [null], so that the map keeps a centre. *)
Theorem userLocation_never_lost `{Host} (events : list Event) (w w' : World) :
  run events w = Some w' ->
  is_Some (userLocation (app w)) -> is_Some (userLocation (app w')).
Proof.
  intros Hrun Hu.
  exact (run_invariant (fun w => is_Some (userLocation (app w)))
           (fun e w1 w2 H1 Hs => step_userLocation e w1 w2 Hs H1) events w w' Hu Hrun).
Qed.

Lemma userLocation_never_lost_witness :
  exists w w',
    run (H := sampleHost) [PositionSuccess (Num.ofZ 12) (Num.ofZ 77)]
      (mounted (H := sampleHost)) = Some w
    /\ run (H := sampleHost) [LocateMe; PositionError 1; FetchSettled 0 (Thrown Rejection)] w
       = Some w'
    /\ is_Some (userLocation (app w))
    /\ is_Some (userLocation (app w')).
Proof.
  eexists. eexists. split; [vm_compute; reflexivity|].
  split; [vm_compute; reflexivity|].
  match goal with |- is_Some (userLocation (app ?w)) /\ is_Some (userLocation (app ?w')) =>
    assert (Hu : is_Some (userLocation (app w))) by (simpl; eauto);
    split; [exact Hu|];
    exact (userLocation_never_lost (H := sampleHost)
             [LocateMe; PositionError 1; FetchSettled 0 (Thrown Rejection)] w w'
             ltac:(vm_compute; reflexivity) Hu)
  end.
Defined.

(** In every state the component can reach, every station of the list
    carries a [distanceMeters]: [formatDistance] is never applied to
    [undefined], and the comparator of the ranking never falls back on 0. *)
Theorem stations_carry_distance `{Host} (events : list Event) (w : World) :
  run events mounted = Some w ->
  Forall (fun s => is_Some (Station.distanceMeters s)) (stations (app w)).
Proof.
  intros Hrun.
  destruct (run_invariant Ranked step_Ranked events _ _ mounted_Ranked Hrun)
    as (current & rawStations & ->).
  rewrite <- (Array_sort_perm byDistance).
  rewrite Forall_map. apply Forall_true. intros s. simpl. eauto.
Qed.

Lemma stations_carry_distance_witness :
  exists w,
    run (H := sampleHost) locatedAndFetched (mounted (H := sampleHost)) = Some w
    /\ length (stations (app w)) = 2%nat
    /\ Forall (fun s => is_Some (Station.distanceMeters s)) (stations (app w)).
Proof.
  eexists. split; [vm_compute; reflexivity|]. split; [reflexivity|].
  apply (stations_carry_distance (H := sampleHost) locatedAndFetched).
  vm_compute. reflexivity.
Defined.

(** In every state the component can reach in which the distances of the
    stations are numbers, the first station of the list is a nearest one,
    no station being at a smaller distance; it is the station the route is
    drawn to. *)
Theorem route_leads_to_nearest `{Host} (events : list Event) (w : World)
  (nearest : Station.t) (others : list Station.t) :
  run events mounted = Some w ->
  stations (app w) = nearest :: others ->
  Forall (fun s => hasNumericDistance s = true) (stations (app w)) ->
  Forall (fun s => Num.le (distanceOf nearest) (distanceOf s) = true) others
  /\ forall user, userLocation (app w) = Some user ->
       routeCoords (app w)
       = Some [(Some (Coordinate.lat user), Some (Coordinate.lon user));
               (Station.lat nearest, Station.lon nearest)].
Proof.
  intros Hrun Hs Hnum. split.
  - destruct (run_invariant Ranked step_Ranked events _ _ mounted_Ranked Hrun)
      as (current & rawStations & Hr).
    assert (Hk : Forall hasRankingKey (map (withDistance current) rawStations)).
    { rewrite (Array_sort_perm byDistance).
      fold (sortStationsByDistance (map (withDistance current) rawStations)).
      rewrite <- Hr. eapply Forall_impl; [exact Hnum|]. apply hasNumericDistance_numeric. }
    pose proof (ranking_sorted_by_value _ Hk) as Hsorted.
    rewrite <- Hr, Hs in Hsorted. rewrite Hs in Hnum.
    inversion Hsorted as [|? ? _ Hall]; subst.
    inversion Hnum as [|? ? Hn Hrest]; subst.
    rewrite Forall_forall in *. intros s Hin.
    rewrite (Num_le_value _ _ (hasNumericDistance_numeric _ Hn)
               (hasNumericDistance_numeric _ (Hrest s Hin))).
    apply Z.leb_le. now apply Hall.
  - intros user Hu. rewrite (run_route events _ _ mounted_route Hrun).
    unfold routeOverlay. now rewrite Hu, Hs.
Qed.

(** A node one degree to the north-east of [sampleNode]. *)
Definition farNode : Element.t :=
  Element.mk "node" 5 (Some (Num.ofZ 13)) (Some (Num.ofZ 78)) None None.

(** A position is delivered and two stations are fetched, the farther one
    first. *)
Definition locatedAndRanked : list Event :=
  [PositionSuccess (Num.ofZ 12) (Num.ofZ 77);
   FetchSettled 0 (success (Some [farNode; sampleNode]))].

Lemma route_leads_to_nearest_witness :
  exists w nearest other,
    run (H := sampleHost) locatedAndRanked (mounted (H := sampleHost)) = Some w
    /\ stations (app w) = [nearest; other]
    /\ Forall (fun s => hasNumericDistance s = true) (stations (app w))
    /\ Station.id nearest = 1 /\ Station.id other = 5
    /\ Forall (fun s => Num.le (distanceOf nearest) (distanceOf s) = true) [other].
Proof.
  eexists. eexists. eexists. split; [vm_compute; reflexivity|].
  split; [reflexivity|].
  match goal with |- Forall _ (stations (app ?w)) /\ _ =>
    assert (Hnum : Forall (fun s => hasNumericDistance s = true) (stations (app w)))
      by (repeat constructor);
    split; [exact Hnum|]; split; [reflexivity|]; split; [reflexivity|];
    exact (proj1 (route_leads_to_nearest (H := sampleHost) locatedAndRanked w _ _
                    ltac:(vm_compute; reflexivity) eq_refl Hnum))
  end.
Defined.

(** ** Stations without coordinates *)

(** With [Math] functions that return [NaN] at [NaN], as ECMA-262
    requires, the distance is [NaN] as soon as one of the four coordinates
    is [NaN], and [formatDistance] displays it as the empty string.  This
    is the case of a station fetched without [lat] or [lon], whose
    coordinates are [undefined]: the load gives it the distance [NaN]. *)
Theorem haversineDistanceMeters_NaN `{Host} :
  HostNaN ->
  (forall lat1 lon1 lat2 lon2 : number,
     Num.isNaN lat1 || Num.isNaN lon1 || Num.isNaN lat2 || Num.isNaN lon2 = true ->
     haversineDistanceMeters lat1 lon1 lat2 lon2 = Num.NaN
     /\ formatDistance (Some (haversineDistanceMeters lat1 lon1 lat2 lon2)) = "")
  /\ (forall (current : Coordinate.t) (s : Station.t),
        Station.lat s = None \/ Station.lon s = None ->
        Station.distanceMeters (withDistance current s) = Some Num.NaN
        /\ formatDistance (Station.distanceMeters (withDistance current s)) = "").
Proof.
  intros HN. split.
  - intros lat1 lon1 lat2 lon2 Hn. rewrite (haversine_NaN HN _ _ _ _ Hn). auto.
  - intros current s Hs.
    assert (E : Station.distanceMeters (withDistance current s) = Some Num.NaN).
    { unfold withDistance. cbn [Station.distanceMeters]. f_equal.
      apply (haversine_NaN HN).
      destruct Hs as [-> | ->]; cbn [toNumber nullish Num.isNaN is_nan Num.NaN];
        rewrite ?orb_true_r; reflexivity. }
    rewrite E. auto.
Qed.

Lemma haversineDistanceMeters_NaN_witness :
  @HostNaN sampleHost
  /\ Station.distanceMeters
       (withDistance (H := sampleHost) (Coordinate.mk (Num.ofZ 12) (Num.ofZ 77))
          (Station.mk 2 None None EmptyString None None None)) = Some Num.NaN
  /\ @formatDistance sampleHost
       (Station.distanceMeters
          (withDistance (H := sampleHost) (Coordinate.mk (Num.ofZ 12) (Num.ofZ 77))
             (Station.mk 2 None None EmptyString None None None))) = "".
Proof.
  split; [exact sampleHost_NaN|].
  exact (proj2 (@haversineDistanceMeters_NaN sampleHost sampleHost_NaN)
           (Coordinate.mk (Num.ofZ 12) (Num.ofZ 77))
           (Station.mk 2 None None EmptyString None None None) (or_introl eq_refl)).
Defined.

(** ** What the component displays

    The conditions under which the map section renders each of its panels
    and the list its notice, as the JSX of the component writes them.  A
    text is truthy when it is neither [null] nor empty. *)

Definition truthyText (text : option string) : bool := isSome (truthy text).

(** [center]: [userLocation ? [userLocation.lat, userLocation.lon] : null] *)
Definition center (s : AppState) : option (number * number) :=
  match userLocation s with
  | Some location => Some (Coordinate.lat location, Coordinate.lon location)
  | None => None
  end.

Definition showsMap (s : AppState) : bool := isSome (center s) && negb (loading s).
Definition showsLoadingPanel (s : AppState) : bool := loading s.
Definition showsErrorPanel (s : AppState) : bool := truthyText (error s) && negb (loading s).
Definition showsGeoErrorPanel (s : AppState) : bool :=
  truthyText (geoError s) && negb (loading s).
Definition showsManualForm (s : AppState) : bool := showManualLocation s.

(** The notice ["No stations found within 2 km."] of the list. *)
Definition showsEmptyNotice (s : AppState) : bool :=
  negb (loading s) && (length (stations s) =? 0)%nat && negb (truthyText (error s)).

Section FirstVisit.

Context `{Host}.

(** Before any location is known, nothing has been loaded. *)
Definition NothingLoaded (w : World) : Prop :=
  userLocation (app w) = None ->
  error (app w) = None /\ stations (app w) = [] /\ fetches w = [].

Lemma step_NothingLoaded e w w' :
  NothingLoaded w -> step e w = Some w' -> NothingLoaded w'.
Proof.
  intros Hw. unfold step, NothingLoaded in *.
  destruct e as [ | | |text|text| | |latitude longitude|code|i reply|id].
  - destruct (_ && _); intros [= <-]. unfold getCurrentLocation.
    destruct geolocationSupported; exact Hw.
  - destruct (negb _); intros [= <-]. unfold getCurrentLocation.
    destruct geolocationSupported; exact Hw.
  - destruct (_ && _); intros [= <-]. exact Hw.
  - destruct (showManualLocation _); intros [= <-]. exact Hw.
  - destruct (showManualLocation _); intros [= <-]. exact Hw.
  - destruct (showManualLocation _); [|discriminate].
    unfold setManualLocationAndFetch.
    destruct (invalidCoordinates _ _); intros [= <-]; [exact Hw|].
    match goal with |- context [afterUserLocation ?w0] =>
      destruct (afterUserLocation_frame w0) as (-> & _) end.
    discriminate.
  - destruct (showManualLocation _); intros [= <-]. exact Hw.
  - destruct (geoRequests w); intros [= <-].
    match goal with |- context [afterUserLocation ?w0] =>
      destruct (afterUserLocation_frame w0) as (-> & _) end.
    discriminate.
  - destruct (geoRequests w); intros [= <-]. exact Hw.
  - destruct (fetches w !! i) as [current|] eqn:Hi; [|discriminate].
    intros Hstep Hu.
    assert (Hu0 : userLocation (app w) = None).
    { revert Hstep Hu. unfold loadSettled.
      destruct (fetchStations _ _ _ _); intros [= <-]; simpl; [|auto].
      match goal with |- context [routeEffect ?s] =>
        destruct (routeEffect_frame s) as (-> & _) end.
      auto. }
    destruct (Hw Hu0) as (_ & _ & Hf). rewrite Hf in Hi. discriminate.
  - destruct (existsb _ _); intros [= <-]. exact Hw.
Qed.

Lemma mounted_NothingLoaded : NothingLoaded mounted.
Proof.
  intros _. unfold mounted, getCurrentLocation.
  destruct geolocationSupported; simpl; auto.
Qed.

End FirstVisit.

(** When the position cannot be obtained before any location is known,
    the map section shows the geolocation error panel, and neither the map
    nor the loading panel nor the error panel of the loads; the list then
    shows its notice that no station was found, although no load was
    started. *)
Theorem position_error_display `{Host} (events : list Event) (w w' : World) (code : Z) :
  run events mounted = Some w ->
  userLocation (app w) = None ->
  step (PositionError code) w = Some w' ->
  showsGeoErrorPanel (app w') = true
  /\ showsEmptyNotice (app w') = true
  /\ showsMap (app w') = false
  /\ showsLoadingPanel (app w') = false
  /\ showsErrorPanel (app w') = false
  /\ fetches w' = [].
Proof.
  intros Hrun Hu Hstep.
  destruct (run_invariant NothingLoaded step_NothingLoaded events _ _
              mounted_NothingLoaded Hrun Hu) as (He & Hs & Hf).
  unfold step in Hstep. destruct (geoRequests w); [discriminate|].
  injection Hstep as <-.
  unfold showsGeoErrorPanel, showsEmptyNotice, showsMap, showsLoadingPanel, showsErrorPanel,
    center. simpl. rewrite Hu, He, Hs, Hf. simpl.
  repeat split.
  destruct (code =? 1); [reflexivity|]. destruct (code =? 2); [reflexivity|].
  destruct (code =? 3); reflexivity.
Qed.

Lemma position_error_display_witness :
  run (H := sampleHost) [] (mounted (H := sampleHost)) = Some (mounted (H := sampleHost))
  /\ userLocation (app (mounted (H := sampleHost))) = None
  /\ exists w',
       step (H := sampleHost) (PositionError 1) (mounted (H := sampleHost)) = Some w'
       /\ showsGeoErrorPanel (app w') = true
       /\ showsEmptyNotice (app w') = true.
Proof.
  split; [reflexivity|]. split; [reflexivity|].
  eexists. split; [vm_compute; reflexivity|].
  match goal with |- showsGeoErrorPanel (app ?w') = _ /\ _ =>
    destruct (position_error_display (H := sampleHost) [] mounted w' 1
                eq_refl eq_refl ltac:(vm_compute; reflexivity)) as (Hg & Hn & _)
  end.
  split; [exact Hg|exact Hn].
Defined.

(** When the user asks again for the position before any location is
    known, with the manual form closed, the request is issued and the map
    section shows none of its panels while the request is awaited: the
    retry clears the geolocation error and does not turn the loading
    indicator on. *)
Theorem retry_display `{Host} (events : list Event) (w w' : World) :
  geolocationSupported = true ->
  run events mounted = Some w ->
  userLocation (app w) = None ->
  showManualLocation (app w) = false ->
  step TryAgain w = Some w' ->
  isLocating (app w') = true
  /\ geoRequests w' = S (geoRequests w)
  /\ showsMap (app w') = false
  /\ showsLoadingPanel (app w') = false
  /\ showsErrorPanel (app w') = false
  /\ showsGeoErrorPanel (app w') = false
  /\ showsManualForm (app w') = false.
Proof.
  intros Hsup Hrun Hu Hform Hstep.
  destruct (run_invariant NothingLoaded step_NothingLoaded events _ _
              mounted_NothingLoaded Hrun Hu) as (He & _ & _).
  unfold step in Hstep.
  destruct (isSome (geoError (app w))); [|discriminate].
  destruct (loading (app w)) eqn:Hl; [discriminate|].
  destruct (isLocating (app w)); [discriminate|].
  injection Hstep as <-. unfold getCurrentLocation. rewrite Hsup.
  unfold showsGeoErrorPanel, showsMap, showsLoadingPanel, showsErrorPanel, showsManualForm,
    center. simpl. rewrite Hu, He, Hl, Hform. repeat split.
Qed.

Lemma retry_display_witness :
  @geolocationSupported sampleHost = true
  /\ exists w w',
       run (H := sampleHost) [PositionError 3] (mounted (H := sampleHost)) = Some w
       /\ userLocation (app w) = None
       /\ showManualLocation (app w) = false
       /\ step (H := sampleHost) TryAgain w = Some w'
       /\ isLocating (app w') = true
       /\ showsGeoErrorPanel (app w') = false
       /\ showsLoadingPanel (app w') = false.
Proof.
  split; [reflexivity|].
  eexists. eexists. split; [vm_compute; reflexivity|].
  split; [reflexivity|]. split; [reflexivity|]. split; [vm_compute; reflexivity|].
  match goal with |- isLocating (app ?w') = _ /\ _ =>
    destruct (retry_display (H := sampleHost) [PositionError 3] _ w' eq_refl
                ltac:(vm_compute; reflexivity) eq_refl eq_refl
                ltac:(vm_compute; reflexivity)) as (Hl & _ & _ & Hp & _ & Hg & _)
  end.
  split; [exact Hl|]. split; [exact Hg|exact Hp].
Defined.

(** * Part XII.  The theme: the hook [useDarkMode]

    The hook reads and writes three things of the browser: the entry
    ["fuel-finder-theme"] of [localStorage], the media query
    [(prefers-color-scheme: dark)] and the class list of the root element
    of the document. *)

Module Browser.
Record t : Type := mk {
  (** [typeof window !== 'undefined'] *)
  hasWindow : bool;
  localStorage : gmap string string;
  (** [window.matchMedia], when the browser has it: the [matches] of the
      query it is given *)
  matchMedia : option (string -> bool);
  (** [document.documentElement.classList] *)
  classList : gset string
}.
End Browser.

Definition STORAGE_KEY : string := "fuel-finder-theme".

(** A value that is a boolean or [undefined] ([None]), and its
    truthiness. *)
Definition ToBoolean (v : option bool) : bool :=
  match v with
  | Some b => b
  | None => false
  end.

(** The initialiser of the state [isDark].  [window.matchMedia && ...] is
    [undefined] when the browser has no [matchMedia]. *)
Definition initialIsDark (b : Browser.t) : option bool :=
  if negb (Browser.hasWindow b) then Some false
  else
    match Browser.localStorage b !! STORAGE_KEY with
    | Some stored => Some (String.eqb stored "dark")
    | None =>
        match Browser.matchMedia b with
        | Some matches => Some (matches "(prefers-color-scheme: dark)")
        | None => None
        end
    end.

(** The effect on [[isDark]]. *)
Definition themeEffect (isDark : option bool) (b : Browser.t) : Browser.t :=
  Browser.mk (Browser.hasWindow b)
    (<[STORAGE_KEY := if ToBoolean isDark then "dark" else "light"]> (Browser.localStorage b))
    (Browser.matchMedia b)
    (if ToBoolean isDark then Browser.classList b ∪ {["dark"]}
     else Browser.classList b ∖ {["dark"]}).

(** The hook in a browser: its state and the browser. *)
Record DarkMode : Type := mkDarkMode {
  isDark : option bool;
  browser : Browser.t
}.

(** The first render and its effect; effects run in a browser only. *)
Definition useDarkMode (b : Browser.t) : DarkMode :=
  let v := initialIsDark b in
  mkDarkMode v (if Browser.hasWindow b then themeEffect v b else b).

(** [setIsDark (v)]: a value that is the state already changes nothing; a
    new value is rendered and the effect runs. *)
Definition setIsDark (v : bool) (st : DarkMode) : DarkMode :=
  if decide (isDark st = Some v) then st
  else mkDarkMode (Some v) (themeEffect (Some v) (browser st)).

(** The button of the header: [setIsDark (!isDark)]. *)
Definition toggleTheme (st : DarkMode) : DarkMode :=
  setIsDark (negb (ToBoolean (isDark st))) st.

Inductive ThemeEvent : Type :=
  | SetIsDark (v : bool)
  | ToggleTheme.

Definition themeStep (e : ThemeEvent) (st : DarkMode) : DarkMode :=
  match e with
  | SetIsDark v => setIsDark v st
  | ToggleTheme => toggleTheme st
  end.

Definition themeRun (events : list ThemeEvent) (st : DarkMode) : DarkMode :=
  foldl (fun st e => themeStep e st) st events.

(** A browser whose user prefers the dark scheme and has stored nothing. *)
Definition darkBrowser : Browser.t :=
  Browser.mk true ∅ (Some (fun query => String.eqb query "(prefers-color-scheme: dark)"))
    {[ "app" ]}.

(** ** Properties of the hook *)

(** What the browser holds agrees with the state. *)
Definition ThemeApplied (st : DarkMode) : Prop :=
  Browser.localStorage (browser st) !! STORAGE_KEY
  = Some (if ToBoolean (isDark st) then "dark" else "light")
  /\ ("dark" ∈ Browser.classList (browser st) <-> ToBoolean (isDark st) = true)
  /\ Browser.hasWindow (browser st) = true.

Lemma elem_of_add_class (classes : gset string) (c d : string) :
  c ∈ classes ∪ {[d]} <-> c ∈ classes \/ c = d.
Proof. now rewrite elem_of_union, elem_of_singleton. Qed.

Lemma elem_of_remove_class (classes : gset string) (c d : string) :
  c ∈ classes ∖ {[d]} <-> c ∈ classes /\ c <> d.
Proof. now rewrite elem_of_difference, elem_of_singleton. Qed.

Lemma themeEffect_applied v b :
  Browser.hasWindow b = true -> ThemeApplied (mkDarkMode v (themeEffect v b)).
Proof.
  intros Hw. unfold ThemeApplied, themeEffect. cbn [browser isDark Browser.localStorage
    Browser.classList Browser.hasWindow].
  split; [apply lookup_insert_eq|]. split; [|exact Hw].
  destruct (ToBoolean v); [rewrite elem_of_add_class|rewrite elem_of_remove_class];
    intuition congruence.
Qed.

Lemma themeStep_applied e st : ThemeApplied st -> ThemeApplied (themeStep e st).
Proof.
  intros Hst.
  assert (Hset : forall v, ThemeApplied (setIsDark v st)).
  { intros v. unfold setIsDark. destruct (decide _); [exact Hst|].
    apply themeEffect_applied. apply Hst. }
  destruct e; [apply Hset|apply Hset].
Qed.

Lemma themeRun_applied events : forall st,
  ThemeApplied st -> ThemeApplied (themeRun events st).
Proof.
  induction events as [|e events IH]; intros st Hst; [exact Hst|].
  apply IH. now apply themeStep_applied.
Qed.

(** The initial theme.  Outside a browser it is light.  In a browser a
    stored theme wins over the preference of the system, and any stored
    text other than ["dark"] means light; with nothing stored the theme is
    the preference of the system, and [undefined], which counts as light,
    when the browser has no [matchMedia]. *)
Theorem initialIsDark_cases (b : Browser.t) :
  (Browser.hasWindow b = false -> initialIsDark b = Some false)
  /\ (Browser.hasWindow b = true ->
      (forall stored, Browser.localStorage b !! STORAGE_KEY = Some stored ->
         initialIsDark b = Some (bool_decide (stored = "dark")))
      /\ (Browser.localStorage b !! STORAGE_KEY = None ->
          (forall matches, Browser.matchMedia b = Some matches ->
             initialIsDark b = Some (matches "(prefers-color-scheme: dark)"))
          /\ (Browser.matchMedia b = None ->
              initialIsDark b = None /\ ToBoolean (initialIsDark b) = false)))
  /\ (ToBoolean (initialIsDark b) = true
      <-> Browser.hasWindow b = true
          /\ (Browser.localStorage b !! STORAGE_KEY = Some "dark"
              \/ (Browser.localStorage b !! STORAGE_KEY = None
                  /\ exists matches, Browser.matchMedia b = Some matches
                       /\ matches "(prefers-color-scheme: dark)" = true))).
Proof.
  unfold initialIsDark. split; [intros ->; reflexivity|]. split.
  - intros ->. cbn [negb]. split.
    + intros stored ->. f_equal. destruct (String.eqb_spec stored "dark") as [->|Hne].
      * now rewrite bool_decide_eq_true_2.
      * now rewrite bool_decide_eq_false_2.
    + intros ->. split; [now intros matches ->|]. intros ->. auto.
  - destruct (Browser.hasWindow b); cbn [negb ToBoolean]; [|split; [discriminate|intros [[=] _]]].
    destruct (Browser.localStorage b !! STORAGE_KEY) as [stored|].
    + cbn [ToBoolean]. rewrite String.eqb_eq. split.
      * intros ->. split; [reflexivity|now left].
      * intros [_ [[= ->] | [[=] _]]]. reflexivity.
    + destruct (Browser.matchMedia b) as [matches|]; cbn [ToBoolean].
      * split; [intros Hm; split; [reflexivity|right; eauto]|].
        intros [_ [[=] | [_ (m & [= <-] & Hm)]]]. exact Hm.
      * split; [discriminate|]. intros [_ [[=] | [_ (m & [=] & _)]]].
Qed.

(** After the effect has run, the root element carries the class ["dark"]
    exactly when the theme is dark and the stored theme is ["dark"] or
    ["light"] accordingly; the other classes of the root element and the
    other entries of the storage are as they were. *)
Theorem themeEffect_writes (v : option bool) (b : Browser.t) :
  ("dark" ∈ Browser.classList (themeEffect v b) <-> ToBoolean v = true)
  /\ Browser.localStorage (themeEffect v b) !! STORAGE_KEY
     = Some (if ToBoolean v then "dark" else "light")
  /\ (forall class, class <> "dark" ->
        class ∈ Browser.classList (themeEffect v b) <-> class ∈ Browser.classList b)
  /\ (forall key, key <> STORAGE_KEY ->
        Browser.localStorage (themeEffect v b) !! key = Browser.localStorage b !! key)
  /\ themeEffect v (themeEffect v b) = themeEffect v b.
Proof.
  unfold themeEffect. cbn [Browser.localStorage Browser.classList Browser.hasWindow
    Browser.matchMedia].
  split; [destruct (ToBoolean v); [rewrite elem_of_add_class|rewrite elem_of_remove_class];
          intuition congruence|].
  split; [apply lookup_insert_eq|].
  split; [intros class Hc; destruct (ToBoolean v);
          [rewrite elem_of_add_class|rewrite elem_of_remove_class]; tauto|].
  split; [intros key Hk; now apply lookup_insert_ne|].
  rewrite insert_insert_eq. f_equal. apply set_eq. intros class.
  destruct (ToBoolean v); rewrite ?elem_of_add_class, ?elem_of_remove_class; tauto.
Qed.

(** The theme survives a reload: in a browser, whatever the sequence of
    changes of theme since the hook was mounted, the theme that a new
    mount of the hook would start with is the theme of the moment, and the
    class ["dark"] is on the root element exactly when that theme is
    dark. *)
Theorem useDarkMode_reload (b : Browser.t) (events : list ThemeEvent) :
  Browser.hasWindow b = true ->
  initialIsDark (browser (themeRun events (useDarkMode b)))
  = Some (ToBoolean (isDark (themeRun events (useDarkMode b))))
  /\ ("dark" ∈ Browser.classList (browser (themeRun events (useDarkMode b)))
      <-> ToBoolean (isDark (themeRun events (useDarkMode b))) = true).
Proof.
  intros Hw.
  assert (Hap : ThemeApplied (themeRun events (useDarkMode b))).
  { apply themeRun_applied. unfold useDarkMode. rewrite Hw. now apply themeEffect_applied. }
  destruct Hap as (Hs & Hc & Hw'). split; [|exact Hc].
  unfold initialIsDark. rewrite Hw', Hs. cbn [negb].
  now destruct (ToBoolean _).
Qed.

Lemma useDarkMode_reload_witness :
  Browser.hasWindow darkBrowser = true
  /\ isDark (themeRun [ToggleTheme] (useDarkMode darkBrowser)) = Some false
  /\ initialIsDark (browser (themeRun [ToggleTheme] (useDarkMode darkBrowser))) = Some false.
Proof.
  split; [reflexivity|]. split; [reflexivity|].
  exact (proj1 (useDarkMode_reload darkBrowser [ToggleTheme] eq_refl)).
Defined.

(** Pressing the theme button twice brings back the theme, the stored
    theme and the classes of the root element, once the theme is a boolean
    that the browser reflects, as it is after any first press. *)
Theorem toggleTheme_twice (st : DarkMode) (dark : bool) :
  isDark st = Some dark -> ThemeApplied st ->
  toggleTheme (toggleTheme st) = st
  /\ isDark (toggleTheme st) = Some (negb dark).
Proof.
  intros Hd (Hs & Hc & _). destruct st as [v b]. cbn [isDark browser] in *. subst v.
  cbn [ToBoolean] in *.
  unfold toggleTheme, setIsDark. cbn [isDark browser ToBoolean].
  rewrite (decide_False (P := Some dark = Some (negb dark))) by (destruct dark; discriminate).
  cbn [isDark browser ToBoolean].
  rewrite (decide_False (P := Some (negb dark) = Some (negb (negb dark))))
    by (destruct dark; discriminate).
  rewrite negb_involutive. split; [|reflexivity]. f_equal.
  destruct b as [hw ls mm cl]. unfold themeEffect.
  cbn [Browser.localStorage Browser.classList Browser.hasWindow Browser.matchMedia ToBoolean] in *.
  rewrite insert_insert_eq, (insert_id ls STORAGE_KEY _ Hs). f_equal.
  destruct dark; cbn [negb].
  - assert (Hin : "dark" ∈ cl) by (now apply Hc).
    apply set_eq. intros x. rewrite elem_of_add_class, elem_of_remove_class.
    destruct (decide (x = "dark")) as [->|]; tauto.
  - assert (Hout : "dark" ∉ cl) by (intros Hin; apply Hc in Hin; discriminate).
    apply set_eq. intros x. rewrite elem_of_remove_class, elem_of_add_class.
    destruct (decide (x = "dark")) as [->|]; tauto.
Qed.

Lemma toggleTheme_twice_witness :
  isDark (useDarkMode darkBrowser) = Some true
  /\ toggleTheme (toggleTheme (useDarkMode darkBrowser)) = useDarkMode darkBrowser.
Proof.
  split; [reflexivity|].
  exact (proj1 (toggleTheme_twice (useDarkMode darkBrowser) true eq_refl
                  (themeEffect_applied _ darkBrowser eq_refl))).
Defined.

(** * Part XIII.  The first version of the component

    The first version of [App] asks for the position once, when it is
    mounted, and reports a geolocation failure in [error]; it has neither
    [geoError] nor [isLocating] nor the manual form.  Its effects on
    [[userLocation]] and on [[stations, userLocation]] are those of the
    later version.  Its state is kept in an [AppState] whose last four
    components are never written. *)

Inductive BasicEvent : Type :=
  | BasicPositionSuccess (latitude longitude : number)
  | BasicPositionError (code : Z)
  | BasicFetchSettled (i : nat) (reply : Outcome Response.t)
  | BasicSelectStation (id : Z).

Section BasicComponent.

Context `{Host}.

(** The effect of the mount, then the effects on the state it has set. *)
Definition basicMounted : World :=
  let w := onApp (setLoading true) (mkWorld initialState 0 [] []) in
  onApp routeEffect
    (loadEffect
       (if negb geolocationSupported then
          onApp (fun s => setLoading false
                            (setError (Some "Geolocation is not supported by your browser.") s)) w
        else mkWorld (app w) 1 (fetches w) (alerts w))).

Definition basicPositionSuccess (latitude longitude : number) (s : AppState) : AppState :=
  let current := Coordinate.mk latitude longitude in
  setUserLocation (Some current) s.

Definition basicPositionError (s : AppState) : AppState :=
  setLoading false (setError (Some "Unable to retrieve your location.") s).

Definition basicStep (e : BasicEvent) (w : World) : option World :=
  let s := app w in
  match e with
  | BasicPositionSuccess latitude longitude =>
      match geoRequests w with
      | O => None
      | S pending =>
          Some (afterUserLocation
                  (mkWorld (basicPositionSuccess latitude longitude s) pending
                     (fetches w) (alerts w)))
      end
  | BasicPositionError code =>
      match geoRequests w with
      | O => None
      | S pending => Some (mkWorld (basicPositionError s) pending (fetches w) (alerts w))
      end
  | BasicFetchSettled i reply =>
      match fetches w !! i with
      | None => None
      | Some current =>
          let '(s', changed) := loadSettled current reply s in
          Some (mkWorld (if changed then routeEffect s' else s') (geoRequests w)
                  (remove_nth i (fetches w)) (alerts w))
      end
  | BasicSelectStation id =>
      if existsb (fun st => Station.id st =? id) (stations s)
      then Some (onApp (setSelectedStationId (Some id)) w) else None
  end.

Fixpoint basicRun (events : list BasicEvent) (w : World) : option World :=
  match events with
  | [] => Some w
  | e :: rest =>
      match basicStep e w with
      | Some w' => basicRun rest w'
      | None => None
      end
  end.

(** ** One request, one load *)

Definition isPositionAnswer (e : BasicEvent) : bool :=
  match e with
  | BasicPositionSuccess _ _ | BasicPositionError _ => true
  | _ => false
  end.

Definition isLoadSettled (e : BasicEvent) : bool :=
  match e with
  | BasicFetchSettled _ _ => true
  | _ => false
  end.

(** While the request for the position is awaited, nothing has been
    loaded. *)
Definition Waiting (w : World) : Prop :=
  (geoRequests w + length (fetches w) <= 1)%nat
  /\ ((0 < geoRequests w)%nat ->
      userLocation (app w) = None /\ stations (app w) = []).

Lemma length_remove_nth {A : Type} (i : nat) (l : list A) (x : A) :
  l !! i = Some x -> S (length (remove_nth i l)) = length l.
Proof.
  intros Hi. unfold remove_nth. pose proof (lookup_lt_Some _ _ _ Hi) as Hlt.
  rewrite length_app, length_take, length_drop. lia.
Qed.

Lemma basicStep_count e w w' :
  basicStep e w = Some w' ->
  (geoRequests w' + (if isPositionAnswer e then 1 else 0) = geoRequests w)%nat
  /\ (length (fetches w') + (if isLoadSettled e then 1 else 0)
      = length (fetches w)
        + match e with BasicPositionSuccess _ _ => 1 | _ => 0 end)%nat.
Proof.
  unfold basicStep. destruct e as [latitude longitude|code|i reply|id]; simpl.
  - destruct (geoRequests w) as [|pending]; intros [= <-].
    match goal with |- context [afterUserLocation ?w0] =>
      destruct (afterUserLocation_frame w0) as (_ & _ & _ & _ & _ & _ & -> & _);
      destruct (afterUserLocation_load w0 _ eq_refl) as (_ & ->)
    end.
    simpl. rewrite length_app. simpl. lia.
  - destruct (geoRequests w) as [|pending]; intros [= <-]. simpl. lia.
  - destruct (fetches w !! i) as [current|] eqn:Hi; [|discriminate].
    destruct (loadSettled current reply (app w)) as [s' changed]. intros [= <-]. simpl.
    pose proof (length_remove_nth _ _ _ Hi). lia.
  - destruct (existsb _ _); intros [= <-]. simpl. lia.
Qed.

Lemma basicStep_Waiting e w w' : Waiting w -> basicStep e w = Some w' -> Waiting w'.
Proof.
  intros [Hle Hw] Hstep. pose proof (basicStep_count e w w' Hstep) as [Hg Hf].
  split.
  - destruct e; simpl in Hg, Hf; lia.
  - intros Hpos.
    assert (He : isPositionAnswer e = false)
      by (destruct e; simpl in *; try reflexivity; lia).
    assert (Hw0 : (0 < geoRequests w)%nat) by (rewrite He in Hg; lia).
    destruct (Hw Hw0) as [Hu Hs].
    revert Hstep. unfold basicStep. destruct e as [? ?|?|i reply|id]; try discriminate.
    + assert (Hnil : fetches w = []) by (apply length_zero_iff_nil; lia).
      rewrite Hnil. discriminate.
    + rewrite Hs. discriminate.
Qed.

Lemma basicMounted_Waiting : Waiting basicMounted.
Proof.
  unfold basicMounted, Waiting. destruct geolocationSupported; simpl; split; auto; lia.
Qed.

Lemma basicRun_invariant (P : World -> Prop) :
  (forall e w w', P w -> basicStep e w = Some w' -> P w') ->
  forall events w w', P w -> basicRun events w = Some w' -> P w'.
Proof.
  intros Hstep. induction events as [|e events IH]; simpl; intros w w' Hw.
  - now intros [= <-].
  - destruct (basicStep e w) as [w1|] eqn:He; [|discriminate].
    apply IH. eapply Hstep; eauto.
Qed.

Lemma basicRun_count events : forall w w',
  basicRun events w = Some w' ->
  (geoRequests w' + length (List.filter isPositionAnswer events) = geoRequests w)%nat
  /\ (length (fetches w') + length (List.filter isLoadSettled events)
      <= length (fetches w) + length (List.filter isPositionAnswer events))%nat.
Proof.
  induction events as [|e events IH]; simpl; intros w w'.
  - intros [= <-]. lia.
  - destruct (basicStep e w) as [w1|] eqn:He; [|discriminate]. intros Hrun.
    destruct (IH _ _ Hrun) as [Hg Hf].
    destruct (basicStep_count e w w1 He) as [Hg1 Hf1].
    destruct e; simpl in *; lia.
Qed.

End BasicComponent.

(** The first version of the component asks for the position once and
    never again: along every run the position is answered at most once, at
    most one load is started, and at most one load settles. *)
Theorem basic_single_request `{Host} (events : list BasicEvent) (w : World) :
  basicRun events basicMounted = Some w ->
  (length (List.filter isPositionAnswer events) + geoRequests w <= 1)%nat
  /\ (length (List.filter isLoadSettled events) + length (fetches w) <= 1)%nat.
Proof.
  intros Hrun. destruct (basicRun_count events _ _ Hrun) as [Hg Hf].
  assert (Hm : (geoRequests basicMounted <= 1)%nat /\ fetches basicMounted = []).
  { unfold basicMounted. destruct geolocationSupported; simpl; split; auto. }
  destruct Hm as [Hm1 Hm2]. rewrite Hm2 in Hf.
  change (length (@nil Coordinate.t)) with 0%nat in Hf. split; lia.
Qed.

(** The position is delivered and the load settles. *)
Definition basicLocatedAndFetched : list BasicEvent :=
  [BasicPositionSuccess (Num.ofZ 12) (Num.ofZ 77);
   BasicFetchSettled 0 (success (Some [sampleNode]))].

Lemma basic_single_request_witness :
  exists w,
    basicRun (H := sampleHost) basicLocatedAndFetched (basicMounted (H := sampleHost)) = Some w
    /\ length (stations (app w)) = 1%nat
    /\ (length (List.filter isPositionAnswer basicLocatedAndFetched) + geoRequests w <= 1)%nat
    /\ (length (List.filter isLoadSettled basicLocatedAndFetched) + length (fetches w) <= 1)%nat.
Proof.
  eexists. split; [vm_compute; reflexivity|]. split; [reflexivity|].
  apply (basic_single_request (H := sampleHost) basicLocatedAndFetched).
  vm_compute. reflexivity.
Defined.

(** In the first version a geolocation failure is final: the error
    message is set, the loading indicator is turned off, there is neither
    location nor station, and nothing can happen any more: no request is
    awaited and the component offers no way to ask again. *)
Theorem basic_position_error_final `{Host} (events : list BasicEvent) (w w' : World)
  (code : Z) :
  basicRun events basicMounted = Some w ->
  basicStep (BasicPositionError code) w = Some w' ->
  error (app w') = Some "Unable to retrieve your location."
  /\ loading (app w') = false
  /\ userLocation (app w') = None
  /\ stations (app w') = []
  /\ forall e, basicStep e w' = None.
Proof.
  intros Hrun Hstep.
  pose proof (basicRun_invariant Waiting basicStep_Waiting events _ _
                basicMounted_Waiting Hrun) as [Hle Hw].
  unfold basicStep in Hstep. destruct (geoRequests w) as [|pending] eqn:Hp; [discriminate|].
  injection Hstep as <-.
  destruct (Hw ltac:(lia)) as [Hu Hs].
  assert (Hf : fetches w = []) by (apply length_zero_iff_nil; lia).
  assert (pending = 0%nat) by lia. subst pending.
  simpl. rewrite Hu, Hs. repeat split.
  intros e. unfold basicStep. simpl. rewrite Hf, Hs. destruct e; reflexivity.
Qed.

Lemma basic_position_error_final_witness :
  basicRun (H := sampleHost) [] (basicMounted (H := sampleHost))
  = Some (basicMounted (H := sampleHost))
  /\ exists w',
       basicStep (H := sampleHost) (BasicPositionError 1) (basicMounted (H := sampleHost))
       = Some w'
       /\ error (app w') = Some "Unable to retrieve your location."
       /\ basicStep (H := sampleHost) (BasicFetchSettled 0 (Thrown Rejection)) w' = None.
Proof.
  split; [reflexivity|]. eexists. split; [vm_compute; reflexivity|].
  match goal with |- error (app ?w') = _ /\ _ =>
    destruct (basic_position_error_final (H := sampleHost) [] basicMounted w' 1
                eq_refl ltac:(vm_compute; reflexivity)) as (He & _ & _ & _ & Hall)
  end.
  split; [exact He|apply Hall].
Defined.
